(** * batchskl: an arena-backed skip list over externally stored keys

    A shallow embedding of [batchskl/skl.go] and the properties its
    specification states about it.

    Conventions of the embedding.
    - [uint32] and [uint64] values are [Z] with the wrap-around written out
      ([u32], [u64]); Go's [int] is taken as the 64-bit type it is on the
      targets the layout below is for, and no arithmetic on it comes close
      to its bound.
    - The node arena [s.nodes] is a Go slice: a backing array (a list of
      bytes, its length is the capacity) and a length.  [unsafe] casts read
      and write the backing array directly, little-endian, with the field
      offsets the gc toolchain gives [node] on 64-bit targets.
    - Methods of [*Skiplist] run in a state monad over [world]; a panic is an
      [Abort] result and the state at the panic is kept, as in Go. *)

From Stdlib Require Import ZArith Lia List Strings.Byte Floats Sorted Permutation.
From Stdlib Require Import Reals Lra.
From stdpp Require Import base option list sorting.

Module batchskl.

Open Scope Z_scope.

(** ** Machine integers *)

Definition u32 (z : Z) : Z := z mod 2 ^ 32.
Definition u64 (z : Z) : Z := z mod 2 ^ 64.
Definition MaxUint32 : Z := 4294967295.

(** ** Constants of the package *)

Definition maxHeight : Z := 20.
(** [unsafe.Sizeof(links{})]: two [uint32]. *)
Definition linksSize : Z := 8.
(** [unsafe.Sizeof(KeyPrefix(0))]. *)
Definition keyPrefixSize : Z := 8.
(** Field offsets of [node]: [key] at 0, four bytes of padding, [prefix] at
    8, [links] at 16; [links[h].next] at [16 + 8h], [links[h].prev] four
    bytes further. *)
Definition keyOff : Z := 0.
Definition prefixOff : Z := 8.
Definition linksOff : Z := prefixOff + keyPrefixSize.
Definition nextOff (h : Z) : Z := linksOff + h * linksSize.
Definition prevOff (h : Z) : Z := linksOff + h * linksSize + 4.
(** [unsafe.Sizeof(node{})]. *)
Definition maxNodeSize : Z := linksOff + maxHeight * linksSize.

(** [ErrRecordExists] is the only error value of the package. *)
Inductive error : Set := ErrRecordExists.

(** ** Bytes and little-endian words in a backing array *)

Fixpoint load_le (arr : list Z) (i n : nat) : option Z :=
  match n with
  | O => Some 0
  | S n' =>
      match arr !! i, load_le arr (S i) n' with
      | Some b, Some r => Some (b + 256 * r)
      | _, _ => None
      end
  end.

Fixpoint store_le (arr : list Z) (i n : nat) (v : Z) : list Z :=
  match n with
  | O => arr
  | S n' => store_le (<[i := v mod 256]> arr) (S i) n' (v / 256)
  end.

(** ** Slices of bytes *)

Record slice : Type := mkSlice { arr : list Z; len : Z }.

Definition cap (sl : slice) : Z := Z.of_nat (length (arr sl)).

(** ** Storage: the external collaborator *)

Record Storage : Type := mkStorage {
  Get : Z -> list Byte.byte;
  Prefix : list Byte.byte -> Z;
  Compare : list Byte.byte -> Z -> Z
}.

(** ** The skip list *)

Record Skiplist : Type := mkSkiplist {
  storage : Storage;
  nodes : slice;
  head : Z;
  tail : Z;
  height : Z
}.

(** ** Program state and the monad of methods *)

(** Calls into [Storage], in program order. *)
Inductive event : Type :=
| EvGet (offset : Z)
| EvPrefix (key : list Byte.byte)
| EvCompare (a : list Byte.byte) (b : Z).

(** The package variable [probabilities], the skip list the methods act on,
    the calls made into its [Storage] so far (most recent last), and the
    source of [rand.Uint32] with the number of draws taken from it. *)
Record world : Type := mkWorld {
  probabilities : list Z;
  skl : Skiplist;
  calls : list event;
  rand_src : nat -> Z;
  rand_pos : nat
}.

Inductive abort : Set :=
| PanicHeight      (* newNode: height out of range *)
| PanicIndex       (* index out of range *)
| PanicSlice       (* slice bounds out of range *)
| PanicMake        (* makeslice: len or cap out of range *)
| MemFault         (* unsafe access outside the backing array *)
| OutOfFuel.       (* the model's loop bound, not a Go behaviour *)

Inductive res (A : Type) : Type :=
| Ok (a : A)
| Abort (e : abort).
Arguments Ok {A} a.
Arguments Abort {A} e.

Definition M (A : Type) : Type := world -> res A * world.

#[global] Instance M_ret : MRet M := fun A a w => (Ok a, w).
#[global] Instance M_bind : MBind M := fun A B f m w =>
  match m w with
  | (Ok a, w') => f a w'
  | (Abort e, w') => (Abort e, w')
  end.

Definition panic {A : Type} (e : abort) : M A := fun w => (Abort e, w).

Definition get_skl : M Skiplist := fun w => (Ok (skl w), w).

Definition put_skl (s : Skiplist) : M unit := fun w =>
  (Ok tt, mkWorld (probabilities w) s (calls w) (rand_src w) (rand_pos w)).

Definition put_nodes (sl : slice) : M unit :=
  s ← get_skl;
  put_skl (mkSkiplist (storage s) sl (head s) (tail s) (height s)).

Definition put_head (v : Z) : M unit :=
  s ← get_skl;
  put_skl (mkSkiplist (storage s) (nodes s) v (tail s) (height s)).

Definition put_tail (v : Z) : M unit :=
  s ← get_skl;
  put_skl (mkSkiplist (storage s) (nodes s) (head s) v (height s)).

Definition put_height (v : Z) : M unit :=
  s ← get_skl;
  put_skl (mkSkiplist (storage s) (nodes s) (head s) (tail s) v).

Definition log_call (ev : event) : M unit := fun w =>
  (Ok tt, mkWorld (probabilities w) (skl w) (calls w ++ [ev]) (rand_src w) (rand_pos w)).

(** [s.storage.Prefix(key)] and [s.storage.Compare(a, b)]. *)
Definition storage_Prefix (key : list Byte.byte) : M Z :=
  s ← get_skl;
  _ ← log_call (EvPrefix key);
  mret (Prefix (storage s) key).

Definition storage_Compare (a : list Byte.byte) (b : Z) : M Z :=
  s ← get_skl;
  _ ← log_call (EvCompare a b);
  mret (Compare (storage s) a b).

(** [rand.Uint32()]. *)
Definition rand_Uint32 : M Z := fun w =>
  (Ok (u32 (rand_src w (rand_pos w))),
   mkWorld (probabilities w) (skl w) (calls w) (rand_src w) (S (rand_pos w))).

(** ** [init]: the table of thresholds *)

(** [1 / math.E] as a [float64]. *)
Definition pValue : float := 0x1.78b56362cef38p-2%float.

(** [float64(z)] for an integer constant. *)
Definition float64_of_Z (z : Z) : float :=
  SF2Prim (binary_normalize prec emax z 0 false).

(** The integer part of a finite [float64], towards zero. *)
Definition float64_trunc (f : float) : Z :=
  match Prim2SF f with
  | S754_finite s m e =>
      let a := if 0 <=? e then Z.pos m * 2 ^ e else Z.pos m / 2 ^ (- e) in
      if s then - a else a
  | _ => 0
  end.

Fixpoint init_loop (n i : nat) (p : float) (tbl : list Z) : list Z :=
  match n with
  | O => tbl
  | S n' =>
      init_loop n' (S i) (p * pValue)%float
        (<[i := u32 (float64_trunc (float64_of_Z MaxUint32 * p)%float)]> tbl)
  end.

Definition init : M unit := fun w =>
  (Ok tt,
   mkWorld (init_loop (Z.to_nat maxHeight) 0 1%float (probabilities w))
     (skl w) (calls w) (rand_src w) (rand_pos w)).

(** The state of the package when [init] starts: the array is zeroed. *)
Definition probabilities0 : list Z := replicate (Z.to_nat maxHeight) 0.

(** ** Arena *)

(** The most bytes the allocator of the runtime hands out in one piece on
    the 64-bit targets: [maxAlloc] of [runtime/malloc.go]. *)
Definition maxAlloc : Z := 2 ^ 48.

(** [make([]byte, l, c)]: [makeslice] panics on a negative length, on a
    length above the capacity and on a capacity above [maxAlloc]; below
    that limit the machine is taken to have the memory. *)
Definition make_bytes (l c : Z) : M slice :=
  if (0 <=? l) && (l <=? c) && (c <=? maxAlloc)
  then mret (mkSlice (replicate (Z.to_nat c) 0) l)
  else panic PanicMake.

(** [copy(dst, src)]: the first [min(len(dst), len(src))] bytes. *)
Definition copy_bytes (dst src : slice) : slice :=
  let n := Z.to_nat (Z.min (len dst) (len src)) in
  mkSlice (take n (arr src) ++ drop n (arr dst)) (len dst).

(** [sl[:hi]]. *)
Definition reslice (sl : slice) (hi : Z) : M slice :=
  if (0 <=? hi) && (hi <=? cap sl) then mret (mkSlice (arr sl) hi)
  else panic PanicSlice.

Definition alloc (size : Z) : M Z :=
  s ← get_skl;
  let offset := u32 (len (nodes s)) in
  let newSize := u32 (offset + size) in
  _ ← (if cap (nodes s) <? newSize then
         let allocSize := u32 (cap (nodes s) * 2) in
         let allocSize := if allocSize <? newSize then newSize else allocSize in
         tmp ← make_bytes (len (nodes s)) allocSize;
         put_nodes (copy_bytes tmp (nodes s))
       else mret tt);
  s ← get_skl;
  sl ← reslice (nodes s) newSize;
  _ ← put_nodes sl;
  mret offset.

(** [s.node(offset)]: the address of [s.nodes[offset]], bounds-checked
    against the length of the slice; what is then read or written through
    the pointer is not checked by Go. *)
Definition node (offset : Z) : M Z :=
  s ← get_skl;
  if (0 <=? offset) && (offset <? len (nodes s)) then mret offset
  else panic PanicIndex.

(** Reads and writes through a [*node]. *)
Definition load (n : nat) (addr : Z) : M Z :=
  s ← get_skl;
  match load_le (arr (nodes s)) (Z.to_nat addr) n with
  | Some v => mret v
  | None => panic MemFault
  end.

Definition store (n : nat) (addr v : Z) : M unit :=
  s ← get_skl;
  if addr + Z.of_nat n <=? cap (nodes s) then
    put_nodes (mkSlice (store_le (arr (nodes s)) (Z.to_nat addr) n v) (len (nodes s)))
  else panic MemFault.

(** [nd.links[h]]: indexing the array [links] is bounds-checked. *)
Definition links_index (h : Z) : M Z :=
  if (0 <=? h) && (h <? maxHeight) then mret h else panic PanicIndex.

Definition newNode (height key prefix : Z) : M Z :=
  if (height <? 1) || (maxHeight <? height) then panic PanicHeight
  else
    let unusedSize := (maxHeight - height) * linksSize in
    offset ← alloc (u32 (maxNodeSize - unusedSize));
    nd ← node offset;
    _ ← store 4 (nd + keyOff) key;
    _ ← store 8 (nd + prefixOff) prefix;
    mret offset.

Definition getKey (nd : Z) : M Z :=
  p ← node nd; load 4 (p + keyOff).

Definition getKeyPrefix (nd : Z) : M Z :=
  p ← node nd; load 8 (p + prefixOff).

Definition getNext (nd h : Z) : M Z :=
  p ← node nd; i ← links_index h; load 4 (p + nextOff i).

Definition getPrev (nd h : Z) : M Z :=
  p ← node nd; i ← links_index h; load 4 (p + prevOff i).

Definition setNext (nd h next : Z) : M unit :=
  p ← node nd; i ← links_index h; store 4 (p + nextOff i) next.

Definition setPrev (nd h prev : Z) : M unit :=
  p ← node nd; i ← links_index h; store 4 (p + prevOff i) prev.

(** [for i := from; i < maxHeight; i++ { setNext(head, i, tail); setPrev(tail, i, head) }] *)
Fixpoint link_levels (n : nat) (i : Z) : M unit :=
  match n with
  | O => mret tt
  | S n' =>
      s ← get_skl;
      _ ← setNext (head s) i (tail s);
      s ← get_skl;
      _ ← setPrev (tail s) i (head s);
      link_levels n' (u32 (i + 1))
  end.

(** The first statements of [NewSkiplist]: the capacity hint is raised to
    256 and the struct is made, with an arena of no node. *)
Definition NewSkiplist_struct (storage : Storage) (initBufSize : Z) : M unit :=
  let initBufSize := if initBufSize <? 256 then 256 else initBufSize in
  sl ← make_bytes 0 initBufSize;
  put_skl (mkSkiplist storage sl 0 0 1).

Definition NewSkiplist (storage : Storage) (initBufSize : Z) : M unit :=
  _ ← NewSkiplist_struct storage initBufSize;
  hd ← newNode maxHeight 0 0;
  _ ← put_head hd;
  tl ← newNode maxHeight 0 0;
  _ ← put_tail tl;
  link_levels (Z.to_nat maxHeight) 0.

(** The loop of [randomHeight]; it runs at most [maxHeight - 1] times. *)
Fixpoint randomHeight_loop (n : nat) (tbl : list Z) (rnd h : Z) : Z :=
  match n with
  | O => h
  | S n' =>
      if (h <? maxHeight) && (rnd <=? nth (Z.to_nat h) tbl 0)
      then randomHeight_loop n' tbl rnd (u32 (h + 1))
      else h
  end.

Definition get_probabilities : M (list Z) := fun w => (Ok (probabilities w), w).

Definition randomHeight : M Z :=
  rnd ← rand_Uint32;
  tbl ← get_probabilities;
  mret (randomHeight_loop (Z.to_nat maxHeight) tbl rnd 1).

(** ** Splice search *)

(** What one turn of the loop of [findSpliceForLevel] decides. *)
Inductive turn : Set :=
| Stop (next : Z) (found : bool)
| Advance (next : Z).

(** The body of the loop of [findSpliceForLevel], from [prev]. *)
Definition findSpliceForLevel_body
    (key : list Byte.byte) (prefix level prev : Z) : M turn :=
  next ← getNext prev level;
  s ← get_skl;
  if next =? tail s then mret (Stop next false)
  else
    nextPrefix ← getKeyPrefix next;
    if prefix <? nextPrefix then mret (Stop next false)
    else if prefix =? nextPrefix then
      k ← getKey next;
      cmp ← storage_Compare key k;
      if cmp =? 0 then mret (Stop next true)
      else if cmp <? 0 then mret (Stop next false)
      else mret (Advance next)
    else mret (Advance next).

(** The loop has no bound of its own in Go; [fuel] bounds the number of
    turns here. *)
Fixpoint findSpliceForLevel
    (fuel : nat) (key : list Byte.byte) (prefix level start : Z)
  : M (Z * Z * bool) :=
  match fuel with
  | O => panic OutOfFuel
  | S fuel' =>
      t ← findSpliceForLevel_body key prefix level start;
      match t with
      | Stop next found => mret (start, next, found)
      | Advance next => findSpliceForLevel fuel' key prefix level next
      end
  end.

(** ** [debug]: the nodes of a level *)

(** [for nd := s.head; nd != s.tail; nd = s.getNext(nd, level)]: the nodes
    the loop visits, first to last. *)
Fixpoint debug_level (fuel : nat) (level nd : Z) : M (list Z) :=
  s ← get_skl;
  if nd =? tail s then mret []
  else
    match fuel with
    | O => panic OutOfFuel
    | S fuel' =>
        next ← getNext nd level;
        rest ← debug_level fuel' level next;
        mret (nd :: rest)
    end.

(** A bound on the turns of a loop along one level: every node takes at
    least one byte of the arena. *)
Definition level_fuel (s : Skiplist) : nat := S (Z.to_nat (len (nodes s))).

(** [debug] prints, for each level below [s.height], the level and the
    number of nodes its loop counts; the pairs stand for the lines. *)
Fixpoint debug_levels (n : nat) (level : Z) : M (list (Z * Z)) :=
  match n with
  | O => mret []
  | S n' =>
      s ← get_skl;
      nds ← debug_level (level_fuel s) level (head s);
      rest ← debug_levels n' (u32 (level + 1));
      mret ((level, Z.of_nat (length nds)) :: rest)
  end.

Definition debug : M (list (Z * Z)) :=
  s ← get_skl;
  debug_levels (Z.to_nat (height s)) 0.

(** ** Insertion *)

(** Modelled from the spec: the search phase of insertion (section 4.6),
    whose source file is not part of [skl.go].  From the top active level
    down to level 0 it runs the splice search, resuming from the
    predecessor found one level above; a match stops it at once.  The
    result lists the (predecessor, successor) pairs, level 0 first. *)
Fixpoint findSplices
    (n : nat) (key : list Byte.byte) (prefix prev : Z) (spl : list (Z * Z))
  : M (option (list (Z * Z))) :=
  match n with
  | O => mret (Some spl)
  | S n' =>
      s ← get_skl;
      '(p, next, found) ← findSpliceForLevel (level_fuel s) key prefix (Z.of_nat n') prev;
      if found : bool then mret None
      else findSplices n' key prefix p ((p, next) :: spl)
  end.

(** Modelled from the spec: the link phase of insertion (section 4.6).  For
    each level, the new node's own next and prev, then the predecessor's
    next, then the successor's prev. *)
Fixpoint spliceNode (nd level : Z) (spl : list (Z * Z)) : M unit :=
  match spl with
  | [] => mret tt
  | (prev, next) :: spl' =>
      _ ← setNext nd level next;
      _ ← setPrev nd level prev;
      _ ← setNext prev level nd;
      _ ← setPrev next level nd;
      spliceNode nd (level + 1) spl'
  end.

(** Modelled from the spec: insertion (section 4.6), whose source file is
    not part of [skl.go].  The key's prefix comes from [Storage]; a height
    is drawn; the active height is raised to it if it is larger; the
    splices are searched; a match returns [ErrRecordExists] with no link
    changed; otherwise the node is allocated once and linked at its
    levels. *)
Definition Add (key : list Byte.byte) (keyOffset : Z) : M (option error) :=
  prefix ← storage_Prefix key;
  h ← randomHeight;
  s ← get_skl;
  _ ← (if height s <? h then put_height h else mret tt);
  s ← get_skl;
  r ← findSplices (Z.to_nat (height s)) key prefix (head s) [];
  match r with
  | None => mret (Some ErrRecordExists)
  | Some spl =>
      nd ← newNode h keyOffset prefix;
      _ ← spliceNode nd 0 (take (Z.to_nat h) spl);
      mret None
  end.

(** A caller that inserts the records of [ops] one after another and
    collects what each insertion returns. *)
Fixpoint AddAll (ops : list (list Byte.byte * Z)) : M (list (option error)) :=
  match ops with
  | [] => mret []
  | (key, keyOffset) :: ops' =>
      r ← Add key keyOffset;
      rs ← AddAll ops';
      mret (r :: rs)
  end.

(** What a caller may do with a skip list once it is made: insert, search a
    level, and read a node as an iterator does. *)
Inductive operation : Type :=
| OpAdd (key : list Byte.byte) (keyOffset : Z)
| OpSearch (key : list Byte.byte) (prefix level start : Z)
| OpNext (nd h : Z)
| OpPrev (nd h : Z)
| OpKey (nd : Z).

Definition perform (o : operation) : M unit :=
  match o with
  | OpAdd key keyOffset => _ ← Add key keyOffset; mret tt
  | OpSearch key prefix level start =>
      s ← get_skl;
      _ ← findSpliceForLevel (level_fuel s) key prefix level start;
      mret tt
  | OpNext nd h => _ ← getNext nd h; mret tt
  | OpPrev nd h => _ ← getPrev nd h; mret tt
  | OpKey nd => _ ← getKey nd; mret tt
  end.

Fixpoint performAll (os : list operation) : M unit :=
  match os with
  | [] => mret tt
  | o :: os' => _ ← perform o; performAll os'
  end.

(** ** A small storage to run the code on *)

Module Demo.

(** Keys are ordered by their first byte (an empty key is below all
    others), the prefix is that byte divided by four, and the key stored at
    offset [o] is the one byte [o mod 256]. *)
Definition rank (k : list Byte.byte) : Z :=
  match k with
  | [] => 0
  | b :: _ => 1 + Z.of_N (Byte.to_N b)
  end.

Definition key_at (o : Z) : list Byte.byte :=
  match Byte.of_N (Z.to_N (o mod 256)) with
  | Some b => [b]
  | None => []
  end.

Definition demo : Storage :=
  mkStorage key_at (fun k => rank k / 4) (fun a b => rank a - rank (key_at b)).

(** The order of keys [demo] compares by. *)
Definition order (a b : list Byte.byte) : comparison := rank a ?= rank b.

(** The program state before [init] has run, with a source of draws. *)
Definition boot (src : nat -> Z) : world :=
  mkWorld probabilities0 (mkSkiplist demo (mkSlice [] 0) 0 0 0) [] src 0.

(** A source of draws: 0, 1000000000, 2000000000, ... *)
Definition draws (n : nat) : Z := Z.of_nat n * 1000000000.

(** The program state once [init] has run. *)
Definition start : world := snd (init (boot draws)).

(** The state after [NewSkiplist] with no hint: an empty list. *)
Definition fresh : world := snd (NewSkiplist demo 0 start).

(** The records "b", "a", "c", at the offsets 98, 97 and 99. *)
Definition records : list (list Byte.byte * Z) :=
  [(key_at 98, 98); (key_at 97, 97); (key_at 99, 99)].

(** The state after [NewSkiplist] and the insertion of [records]. *)
Definition filled : world :=
  snd ((NewSkiplist demo 0 ≫= fun _ => AddAll records) start).

(** The state after [NewSkiplist], insertions and a search between them. *)
Definition script : list operation :=
  [OpAdd (key_at 98) 98; OpSearch (key_at 97) 24 0 0; OpAdd (key_at 97) 97;
   OpNext 0 0; OpAdd (key_at 98) 98].

Definition scripted : world :=
  snd ((NewSkiplist demo 0 ≫= fun _ => performAll script) start).

(** A skip list whose arena has grown to eight bytes below 2^32; what the
    bytes hold plays no part in an allocation. *)
Definition nearly_full_len : Z := 2 ^ 32 - 8.

Definition nearly_full : world :=
  mkWorld probabilities0
    (mkSkiplist demo
       (mkSlice (replicate (Z.to_nat nearly_full_len) 0) nearly_full_len)
       0 maxNodeSize 1)
    [] draws 0.

End Demo.

(** * Properties *)

(** ** Machine integers *)

Lemma u32_id z : 0 <= z < 2 ^ 32 -> u32 z = z.
Proof. intros H. unfold u32. apply Z.mod_small. exact H. Qed.

Lemma u32_range z : 0 <= u32 z < 2 ^ 32.
Proof. unfold u32. apply Z.mod_pos_bound. reflexivity. Qed.

Lemma u64_id z : 0 <= z < 2 ^ 64 -> u64 z = z.
Proof. intros H. unfold u64. apply Z.mod_small. exact H. Qed.

(** ** Words in a backing array *)

Lemma length_store_le a i n v : length (store_le a i n v) = length a.
Proof.
  revert a i v. induction n as [|n IH]; intros a i v; simpl; [reflexivity|].
  rewrite IH. apply length_insert.
Qed.

Lemma lookup_store_le_ne a i n v k :
  (k < i \/ i + n <= k)%nat -> store_le a i n v !! k = a !! k.
Proof.
  revert a i v. induction n as [|n IH]; intros a i v Hk; simpl; [reflexivity|].
  rewrite IH by lia. apply list_lookup_insert_ne. lia.
Qed.

Lemma load_le_ext a a' i n :
  (forall k, (i <= k < i + n)%nat -> a' !! k = a !! k) ->
  load_le a' i n = load_le a i n.
Proof.
  revert i. induction n as [|n IH]; intros i H; simpl; [reflexivity|].
  rewrite (H i) by lia. rewrite IH; [reflexivity|].
  intros k Hk. apply H. lia.
Qed.

Lemma load_store_le_ne a i n v j m :
  (j + m <= i \/ i + n <= j)%nat ->
  load_le (store_le a i n v) j m = load_le a j m.
Proof.
  intros H. apply load_le_ext. intros k Hk. apply lookup_store_le_ne. lia.
Qed.

Lemma load_store_le_eq a i n v :
  (i + n <= length a)%nat ->
  load_le (store_le a i n v) i n = Some (v mod 256 ^ Z.of_nat n).
Proof.
  revert a i v. induction n as [|n IH]; intros a i v Hl.
  - simpl. rewrite Z.mod_1_r. reflexivity.
  - cbn [store_le load_le].
    rewrite lookup_store_le_ne by lia.
    rewrite list_lookup_insert_eq by lia.
    rewrite IH by (rewrite length_insert; lia).
    f_equal. rewrite Nat2Z.inj_succ, Z.pow_succ_r by lia.
    rewrite Z.rem_mul_r by lia. reflexivity.
Qed.

Lemma load_le_Some a i n :
  (i + n <= length a)%nat -> exists v, load_le a i n = Some v.
Proof.
  revert i. induction n as [|n IH]; intros i H; simpl; [eauto|].
  destruct (lookup_lt_is_Some_2 a i) as [b Hb]; [lia|].
  destruct (IH (S i)) as [r Hr]; [lia|].
  rewrite Hb, Hr. eauto.
Qed.

#[global] Arguments load_le : simpl never.
#[global] Arguments store_le : simpl never.

(** ** Fields of nodes, read and written without the monad *)

Inductive field : Set :=
| FKey
| FPrefix
| FNext (h : Z)
| FPrev (h : Z).

Definition foff (f : field) : Z :=
  match f with
  | FKey => keyOff
  | FPrefix => prefixOff
  | FNext h => nextOff h
  | FPrev h => prevOff h
  end.

Definition fsize (f : field) : nat :=
  match f with
  | FPrefix => 8%nat
  | _ => 4%nat
  end.

Definition peek (s : Skiplist) (nd : Z) (f : field) : option Z :=
  load_le (arr (nodes s)) (Z.to_nat (nd + foff f)) (fsize f).

Definition poke (s : Skiplist) (nd : Z) (f : field) (v : Z) : Skiplist :=
  mkSkiplist (storage s)
    (mkSlice (store_le (arr (nodes s)) (Z.to_nat (nd + foff f)) (fsize f) v)
       (len (nodes s)))
    (head s) (tail s) (height s).

Definition with_skl (w : world) (s : Skiplist) : world :=
  mkWorld (probabilities w) s (calls w) (rand_src w) (rand_pos w).

Definition with_calls (w : world) (evs : list event) : world :=
  mkWorld (probabilities w) (skl w) (calls w ++ evs) (rand_src w) (rand_pos w).

Lemma with_skl_id w : with_skl w (skl w) = w.
Proof. destruct w; reflexivity. Qed.

Lemma with_calls_nil w : with_calls w [] = w.
Proof. destruct w; unfold with_calls; simpl. rewrite app_nil_r. reflexivity. Qed.

Lemma with_calls_app w e1 e2 :
  with_calls (with_calls w e1) e2 = with_calls w (e1 ++ e2).
Proof. unfold with_calls; simpl. rewrite app_assoc. reflexivity. Qed.

(** Decides the integer tests of a goal that [lia] can decide. *)
Ltac zbool :=
  repeat match goal with
  | |- context [?a <=? ?b] =>
      first [rewrite (proj2 (Z.leb_le a b)) by lia
            |rewrite (proj2 (Z.leb_gt a b)) by lia]
  | |- context [?a <? ?b] =>
      first [rewrite (proj2 (Z.ltb_lt a b)) by lia
            |rewrite (proj2 (Z.ltb_ge a b)) by lia]
  | |- context [?a =? ?b] =>
      first [rewrite (proj2 (Z.eqb_eq a b)) by lia
            |rewrite (proj2 (Z.eqb_neq a b)) by lia]
  end.

(** Unfolding of the monad's operations in a goal or a hypothesis. *)
Ltac munfold :=
  repeat progress
    unfold mbind, M_bind, mret, M_ret, panic, get_skl, put_skl, put_nodes,
      put_head, put_tail, put_height, log_call, get_probabilities in *.

Lemma bind_Ok {A B} (m : M A) (f : A -> M B) w b w' :
  (m ≫= f) w = (Ok b, w') ->
  exists a w1, m w = (Ok a, w1) /\ f a w1 = (Ok b, w').
Proof.
  unfold mbind, M_bind. destruct (m w) as [[a|e] w1]; intros H.
  - eauto.
  - discriminate.
Qed.

Lemma bind_run {A B} (m : M A) (f : A -> M B) w a w1 :
  m w = (Ok a, w1) -> (m ≫= f) w = f a w1.
Proof. unfold mbind, M_bind. intros ->. reflexivity. Qed.

Lemma bind_abort {A B} (m : M A) (f : A -> M B) w e w1 :
  m w = (Abort e, w1) -> (m ≫= f) w = (Abort e, w1).
Proof. unfold mbind, M_bind. intros ->. reflexivity. Qed.

(** *** The accessors *)

Lemma node_run nd w :
  0 <= nd < len (nodes (skl w)) -> node nd w = (Ok nd, w).
Proof.
  intros H. unfold node. munfold.
  destruct (Z.leb_spec 0 nd); [|lia].
  destruct (Z.ltb_spec nd (len (nodes (skl w)))); [|lia]. reflexivity.
Qed.

Lemma node_inv nd w r w' :
  node nd w = (r, w') ->
  w' = w /\
  ((r = Ok nd /\ 0 <= nd < len (nodes (skl w))) \/
   (r = Abort PanicIndex /\ ~ 0 <= nd < len (nodes (skl w)))).
Proof.
  unfold node. munfold.
  destruct (Z.leb_spec 0 nd); destruct (Z.ltb_spec nd (len (nodes (skl w))));
    simpl; intros [= <- <-]; split; auto; first [left; split; [reflexivity|lia] | right; split; [reflexivity|lia]].
Qed.

Lemma links_index_run h w :
  0 <= h < maxHeight -> links_index h w = (Ok h, w).
Proof.
  intros H. unfold links_index. munfold.
  destruct (Z.leb_spec 0 h); [|lia].
  destruct (Z.ltb_spec h maxHeight); [|lia]. reflexivity.
Qed.

Lemma links_index_inv h w r w' :
  links_index h w = (r, w') ->
  w' = w /\
  ((r = Ok h /\ 0 <= h < maxHeight) \/
   (r = Abort PanicIndex /\ ~ 0 <= h < maxHeight)).
Proof.
  unfold links_index. munfold.
  destruct (Z.leb_spec 0 h); destruct (Z.ltb_spec h maxHeight);
    simpl; intros [= <- <-]; split; auto; first [left; split; [reflexivity|lia] | right; split; [reflexivity|lia]].
Qed.

Lemma load_inv n addr w r w' :
  load n addr w = (r, w') ->
  w' = w /\
  match load_le (arr (nodes (skl w))) (Z.to_nat addr) n with
  | Some v => r = Ok v
  | None => r = Abort MemFault
  end.
Proof.
  unfold load. munfold.
  destruct (load_le _ _ _); simpl; intros [= <- <-]; auto.
Qed.

(** Every accessor that reads is a function of the state it leaves as it
    found it. *)
Definition reads {A} (m : M A) : Prop := forall w r w', m w = (r, w') -> w' = w.

Lemma reads_bind {A B} (m : M A) (f : A -> M B) :
  reads m -> (forall a, reads (f a)) -> reads (m ≫= f).
Proof.
  intros Hm Hf w r w'. unfold mbind, M_bind.
  destruct (m w) as [[a|e] w1] eqn:E; intros H.
  - apply Hm in E. subst w1. eapply Hf; eauto.
  - apply Hm in E. congruence.
Qed.

Lemma reads_ret {A} (a : A) : reads (mret a : M A).
Proof. intros w r w'. unfold mret, M_ret. congruence. Qed.

Lemma reads_panic {A} e : reads (panic e : M A).
Proof. intros w r w'. unfold panic. congruence. Qed.

Lemma reads_get_skl : reads get_skl.
Proof. intros w r w'. unfold get_skl. congruence. Qed.

Lemma reads_node nd : reads (node nd).
Proof. intros w r w' H. apply node_inv in H. tauto. Qed.

Lemma reads_links_index h : reads (links_index h).
Proof. intros w r w' H. apply links_index_inv in H. tauto. Qed.

Lemma reads_load n a : reads (load n a).
Proof. intros w r w' H. apply load_inv in H. tauto. Qed.

Lemma reads_getKey nd : reads (getKey nd).
Proof. unfold getKey. apply reads_bind; [apply reads_node|]. intros; apply reads_load. Qed.

Lemma reads_getKeyPrefix nd : reads (getKeyPrefix nd).
Proof. unfold getKeyPrefix. apply reads_bind; [apply reads_node|]. intros; apply reads_load. Qed.

Lemma reads_getNext nd h : reads (getNext nd h).
Proof.
  unfold getNext. apply reads_bind; [apply reads_node|]. intros.
  apply reads_bind; [apply reads_links_index|]. intros; apply reads_load.
Qed.

Lemma reads_getPrev nd h : reads (getPrev nd h).
Proof.
  unfold getPrev. apply reads_bind; [apply reads_node|]. intros.
  apply reads_bind; [apply reads_links_index|]. intros; apply reads_load.
Qed.

Lemma load_run n addr w v :
  load_le (arr (nodes (skl w))) (Z.to_nat addr) n = Some v ->
  load n addr w = (Ok v, w).
Proof. intros H. unfold load. munfold. rewrite H. reflexivity. Qed.

Lemma getKey_run nd w v :
  0 <= nd < len (nodes (skl w)) -> peek (skl w) nd FKey = Some v ->
  getKey nd w = (Ok v, w).
Proof.
  intros Hn Hp. unfold getKey.
  rewrite (bind_run _ _ _ _ _ (node_run _ _ Hn)). apply load_run. exact Hp.
Qed.

Lemma getKeyPrefix_run nd w v :
  0 <= nd < len (nodes (skl w)) -> peek (skl w) nd FPrefix = Some v ->
  getKeyPrefix nd w = (Ok v, w).
Proof.
  intros Hn Hp. unfold getKeyPrefix.
  rewrite (bind_run _ _ _ _ _ (node_run _ _ Hn)). apply load_run. exact Hp.
Qed.

Lemma getNext_run nd h w v :
  0 <= nd < len (nodes (skl w)) -> 0 <= h < maxHeight ->
  peek (skl w) nd (FNext h) = Some v ->
  getNext nd h w = (Ok v, w).
Proof.
  intros Hn Hh Hp. unfold getNext.
  rewrite (bind_run _ _ _ _ _ (node_run _ _ Hn)).
  rewrite (bind_run _ _ _ _ _ (links_index_run _ _ Hh)).
  apply load_run. exact Hp.
Qed.

Lemma getPrev_run nd h w v :
  0 <= nd < len (nodes (skl w)) -> 0 <= h < maxHeight ->
  peek (skl w) nd (FPrev h) = Some v ->
  getPrev nd h w = (Ok v, w).
Proof.
  intros Hn Hh Hp. unfold getPrev.
  rewrite (bind_run _ _ _ _ _ (node_run _ _ Hn)).
  rewrite (bind_run _ _ _ _ _ (links_index_run _ _ Hh)).
  apply load_run. exact Hp.
Qed.

Lemma getNext_inv nd h w v w' :
  getNext nd h w = (Ok v, w') ->
  w' = w /\ 0 <= nd < len (nodes (skl w)) /\ 0 <= h < maxHeight /\
  peek (skl w) nd (FNext h) = Some v.
Proof.
  unfold getNext. intros H.
  apply bind_Ok in H as (p & w1 & H1 & H).
  apply node_inv in H1 as [-> [[[= <-] Hn]|[[=] _]]].
  apply bind_Ok in H as (i & w2 & H2 & H).
  apply links_index_inv in H2 as [-> [[[= <-] Hh]|[[=] _]]].
  apply load_inv in H as [-> H]. unfold peek. cbn [foff fsize].
  destruct (load_le _ _ _); [|discriminate]. injection H as <-. auto.
Qed.

Lemma getKey_inv nd w v w' :
  getKey nd w = (Ok v, w') ->
  w' = w /\ 0 <= nd < len (nodes (skl w)) /\ peek (skl w) nd FKey = Some v.
Proof.
  unfold getKey. intros H.
  apply bind_Ok in H as (p & w1 & H1 & H).
  apply node_inv in H1 as [-> [[[= <-] Hn]|[[=] _]]].
  apply load_inv in H as [-> H]. unfold peek. cbn [foff fsize].
  destruct (load_le _ _ _); [|discriminate]. injection H as <-. auto.
Qed.

Lemma getKeyPrefix_inv nd w v w' :
  getKeyPrefix nd w = (Ok v, w') ->
  w' = w /\ 0 <= nd < len (nodes (skl w)) /\ peek (skl w) nd FPrefix = Some v.
Proof.
  unfold getKeyPrefix. intros H.
  apply bind_Ok in H as (p & w1 & H1 & H).
  apply node_inv in H1 as [-> [[[= <-] Hn]|[[=] _]]].
  apply load_inv in H as [-> H]. unfold peek. cbn [foff fsize].
  destruct (load_le _ _ _); [|discriminate]. injection H as <-. auto.
Qed.

Lemma store_run n addr v w :
  addr + Z.of_nat n <= cap (nodes (skl w)) ->
  store n addr v w =
    (Ok tt, with_skl w (mkSkiplist (storage (skl w))
       (mkSlice (store_le (arr (nodes (skl w))) (Z.to_nat addr) n v) (len (nodes (skl w))))
       (head (skl w)) (tail (skl w)) (height (skl w)))).
Proof.
  intros H. unfold store. munfold.
  destruct (Z.leb_spec (addr + Z.of_nat n) (cap (nodes (skl w)))); [|lia].
  reflexivity.
Qed.

Lemma setNext_run nd h v w :
  0 <= nd < len (nodes (skl w)) -> 0 <= h < maxHeight ->
  nd + nextOff h + 4 <= cap (nodes (skl w)) ->
  setNext nd h v w = (Ok tt, with_skl w (poke (skl w) nd (FNext h) v)).
Proof.
  intros Hn Hh Hc. unfold setNext.
  rewrite (bind_run _ _ _ _ _ (node_run _ _ Hn)).
  rewrite (bind_run _ _ _ _ _ (links_index_run _ _ Hh)).
  rewrite store_run by (simpl; lia). reflexivity.
Qed.

Lemma setPrev_run nd h v w :
  0 <= nd < len (nodes (skl w)) -> 0 <= h < maxHeight ->
  nd + prevOff h + 4 <= cap (nodes (skl w)) ->
  setPrev nd h v w = (Ok tt, with_skl w (poke (skl w) nd (FPrev h) v)).
Proof.
  intros Hn Hh Hc. unfold setPrev.
  rewrite (bind_run _ _ _ _ _ (node_run _ _ Hn)).
  rewrite (bind_run _ _ _ _ _ (links_index_run _ _ Hh)).
  rewrite store_run by (simpl; lia). reflexivity.
Qed.

(** *** [alloc] and [newNode] *)

(** The backing array after [alloc] has made room for [newSize] bytes. *)
Definition alloc_arr (sl : slice) (newSize : Z) : list Z :=
  if cap sl <? newSize then
    let allocSize := u32 (cap sl * 2) in
    let allocSize := if allocSize <? newSize then newSize else allocSize in
    take (Z.to_nat (len sl)) (arr sl)
      ++ drop (Z.to_nat (len sl)) (replicate (Z.to_nat allocSize) 0)
  else arr sl.

(** The skip list after [alloc size]. *)
Definition grow (s : Skiplist) (size : Z) : Skiplist :=
  let newSize := u32 (u32 (len (nodes s)) + size) in
  mkSkiplist (storage s) (mkSlice (alloc_arr (nodes s) newSize) newSize)
    (head s) (tail s) (height s).

Definition slice_ok (sl : slice) : Prop := 0 <= len sl <= cap sl.

Lemma alloc_arr_length sl newSize :
  slice_ok sl ->
  Z.of_nat (length (alloc_arr sl newSize)) =
    if cap sl <? newSize then
      (if u32 (cap sl * 2) <? newSize then newSize else u32 (cap sl * 2))
    else cap sl.
Proof.
  intros [H0 H1]. unfold alloc_arr, cap in *.
  destruct (Z.ltb_spec (Z.of_nat (length (arr sl))) newSize) as [Hlt|Hge]; [|reflexivity].
  rewrite length_app, length_take, length_drop, length_replicate.
  destruct (Z.ltb_spec (u32 (Z.of_nat (length (arr sl)) * 2)) newSize); lia.
Qed.

Lemma alloc_arr_cap sl newSize :
  slice_ok sl -> newSize <= Z.of_nat (length (alloc_arr sl newSize)).
Proof.
  intros H. rewrite alloc_arr_length by exact H.
  destruct (Z.ltb_spec (cap sl) newSize);
    [destruct (Z.ltb_spec (u32 (cap sl * 2)) newSize)|]; lia.
Qed.

Lemma alloc_arr_lookup sl newSize k :
  slice_ok sl -> (Z.of_nat k < len sl) ->
  alloc_arr sl newSize !! k = arr sl !! k.
Proof.
  intros [H0 H1] Hk. unfold alloc_arr, cap in *.
  destruct (Z.ltb_spec (Z.of_nat (length (arr sl))) newSize) as [Hlt|Hge]; [|reflexivity].
  rewrite lookup_app_l by (rewrite length_take; lia).
  apply lookup_take_lt. lia.
Qed.

Lemma alloc_run size w :
  slice_ok (nodes (skl w)) ->
  alloc size w = (Ok (u32 (len (nodes (skl w)))), with_skl w (grow (skl w) size)).
Proof.
  intros Hok. pose proof Hok as [H0 H1].
  pose proof (u32_range (u32 (len (nodes (skl w))) + size)) as Hns.
  unfold alloc, grow, alloc_arr, make_bytes, reslice, copy_bytes, with_skl.
  munfold. cbn [skl nodes arr len storage head tail height].
  destruct (Z.ltb_spec (cap (nodes (skl w))) (u32 (u32 (len (nodes (skl w))) + size)))
    as [Hlt|Hge].
  - assert (HA : u32 (u32 (len (nodes (skl w))) + size) <=
                 (if u32 (cap (nodes (skl w)) * 2) <? u32 (u32 (len (nodes (skl w))) + size)
                  then u32 (u32 (len (nodes (skl w))) + size)
                  else u32 (cap (nodes (skl w)) * 2))).
    { destruct (Z.ltb_spec (u32 (cap (nodes (skl w)) * 2))
                  (u32 (u32 (len (nodes (skl w))) + size))); lia. }
    assert (HB : (if u32 (cap (nodes (skl w)) * 2) <? u32 (u32 (len (nodes (skl w))) + size)
                  then u32 (u32 (len (nodes (skl w))) + size)
                  else u32 (cap (nodes (skl w)) * 2)) <= maxAlloc).
    { pose proof (u32_range (cap (nodes (skl w)) * 2)). unfold maxAlloc.
      destruct (Z.ltb_spec (u32 (cap (nodes (skl w)) * 2))
                  (u32 (u32 (len (nodes (skl w))) + size))); lia. }
    zbool. cbn [andb skl nodes arr len storage head tail height].
    unfold cap in *. cbn [arr len].
    rewrite Z.min_id.
    rewrite length_app, length_take, length_drop, length_replicate.
    zbool. reflexivity.
  - cbn [skl nodes arr len storage head tail height]. zbool. reflexivity.
Qed.

(** The size [newNode] asks [alloc] for. *)
Definition nodeSize (height : Z) : Z := linksOff + height * linksSize.

Lemma nodeSize_eq h :
  1 <= h <= maxHeight ->
  u32 (maxNodeSize - (maxHeight - h) * linksSize) = nodeSize h.
Proof.
  intros H. unfold maxNodeSize, nodeSize, linksOff, prefixOff, keyPrefixSize,
    linksSize, maxHeight in *.
  rewrite u32_id by lia. lia.
Qed.

Lemma newNode_height_panic h k p w :
  h < 1 \/ maxHeight < h -> newNode h k p w = (Abort PanicHeight, w).
Proof.
  intros H. unfold newNode.
  destruct (Z.ltb_spec h 1); destruct (Z.ltb_spec maxHeight h); simpl; try reflexivity; lia.
Qed.

Lemma newNode_ok h k p w :
  slice_ok (nodes (skl w)) -> len (nodes (skl w)) < 2 ^ 32 ->
  1 <= h <= maxHeight ->
  len (nodes (skl w)) + nodeSize h < 2 ^ 32 ->
  newNode h k p w =
    (Ok (len (nodes (skl w))),
     with_skl w
       (poke (poke (grow (skl w) (nodeSize h)) (len (nodes (skl w))) FKey k)
          (len (nodes (skl w))) FPrefix p)).
Proof.
  intros Hok HL Hh Hfit. pose proof Hok as [H0 H1].
  unfold newNode.
  destruct (Z.ltb_spec h 1); [lia|]. destruct (Z.ltb_spec maxHeight h); [lia|].
  cbn [orb]. rewrite nodeSize_eq by exact Hh.
  rewrite (bind_run _ _ _ _ _ (alloc_run _ _ Hok)).
  rewrite (u32_id (len _)) by lia.
  assert (Hsz : 0 < nodeSize h) by (unfold nodeSize, linksOff, prefixOff, keyPrefixSize, linksSize; lia).
  assert (Hlen : len (nodes (grow (skl w) (nodeSize h))) = len (nodes (skl w)) + nodeSize h).
  { unfold grow. cbn. rewrite (u32_id (len _)) by lia. apply u32_id. lia. }
  assert (Hcap : len (nodes (skl w)) + nodeSize h <= cap (nodes (grow (skl w) (nodeSize h)))).
  { rewrite <- Hlen. unfold grow, cap. cbn. apply alloc_arr_cap. exact Hok. }
  set (s1 := grow (skl w) (nodeSize h)) in *.
  assert (Hnd : 0 <= len (nodes (skl w)) < len (nodes (skl (with_skl w s1))))
    by (cbn [skl with_skl]; lia).
  rewrite (bind_run _ _ _ _ _ (node_run _ _ Hnd)).
  assert (Hsz' : 16 <= nodeSize h)
    by (unfold nodeSize, linksOff, prefixOff, keyPrefixSize, linksSize; lia).
  assert (Hk : len (nodes (skl w)) + keyOff + Z.of_nat 4 <= cap (nodes (skl (with_skl w s1))))
    by (cbn [skl with_skl]; unfold keyOff; lia).
  rewrite (bind_run _ _ _ _ _ (store_run 4 _ k _ Hk)).
  match goal with |- (store 8 _ _ ≫= _) ?w1 = _ =>
    assert (Hp : len (nodes (skl w)) + prefixOff + Z.of_nat 8 <= cap (nodes (skl w1)))
  end.
  { cbn [skl with_skl nodes]. unfold cap in *. cbn [arr].
    rewrite length_store_le. unfold prefixOff. lia. }
  rewrite (bind_run _ _ _ _ _ (store_run 8 _ p _ Hp)).
  reflexivity.
Qed.

Lemma newNode_overflow h k p w :
  slice_ok (nodes (skl w)) -> len (nodes (skl w)) < 2 ^ 32 ->
  1 <= h <= maxHeight ->
  2 ^ 32 <= len (nodes (skl w)) + nodeSize h ->
  newNode h k p w = (Abort PanicIndex, with_skl w (grow (skl w) (nodeSize h))).
Proof.
  intros Hok HL Hh Hfit. pose proof Hok as [H0 H1].
  unfold newNode.
  destruct (Z.ltb_spec h 1); [lia|]. destruct (Z.ltb_spec maxHeight h); [lia|].
  cbn [orb]. rewrite nodeSize_eq by exact Hh.
  rewrite (bind_run _ _ _ _ _ (alloc_run _ _ Hok)).
  rewrite (u32_id (len _)) by lia.
  assert (Hsz : 0 < nodeSize h <= 176)
    by (unfold nodeSize, linksOff, prefixOff, keyPrefixSize, linksSize, maxHeight in *; lia).
  assert (Hlen : len (nodes (grow (skl w) (nodeSize h))) = len (nodes (skl w)) + nodeSize h - 2 ^ 32).
  { unfold grow. cbn. rewrite (u32_id (len _)) by lia. unfold u32.
    symmetry. apply Z.mod_unique_pos with (q := 1); lia. }
  unfold mbind at 1, M_bind at 1.
  destruct (node (len (nodes (skl w))) (with_skl w (grow (skl w) (nodeSize h)))) as [r w'] eqn:E.
  apply node_inv in E as [-> [[_ E]|[-> _]]]; [|reflexivity].
  cbn [skl with_skl] in E. lia.
Qed.

(** ** The nodes of an arena *)

(** What the arena does not record about a node: where it starts, the
    height it was allocated with and the key offset it was given. *)
Record gnode : Type := mkG { g_off : Z; g_ht : Z; g_key : Z }.

Definition node_end (g : gnode) : Z := g_off g + nodeSize (g_ht g).

(** The nodes [N] lie in the arena, one after another. *)
Record arena_ok (s : Skiplist) (N : list gnode) : Prop := {
  ar_slice : slice_ok (nodes s);
  ar_len : len (nodes s) < 2 ^ 32;
  ar_in : forall g, g ∈ N ->
      0 <= g_off g /\ 1 <= g_ht g <= maxHeight /\ node_end g <= len (nodes s);
  ar_sep : forall g g', g ∈ N -> g' ∈ N ->
      g_off g = g_off g' \/ node_end g <= g_off g' \/ node_end g' <= g_off g
}.

(** The fields a node of a given height has. *)
Definition fvalid (g : gnode) (f : field) : Prop :=
  match f with
  | FNext h | FPrev h => 0 <= h < g_ht g
  | _ => True
  end.

Ltac layout :=
  unfold maxNodeSize, node_end, nodeSize, foff, fsize, nextOff, prevOff,
    linksOff, prefixOff, keyOff, keyPrefixSize, linksSize, maxHeight in *.

Lemma field_in s N g f :
  arena_ok s N -> g ∈ N -> fvalid g f ->
  0 <= g_off g + foff f /\
  g_off g + foff f + Z.of_nat (fsize f) <= len (nodes s).
Proof.
  intros [Hs HL Hin _] Hg Hf. destruct (Hin g Hg) as (H0 & Hh & He).
  destruct f; cbn [fvalid] in Hf; layout; lia.
Qed.

Lemma field_sep s N g g' f f' :
  arena_ok s N -> g ∈ N -> g' ∈ N -> fvalid g f -> fvalid g' f' ->
  g_off g <> g_off g' \/ f <> f' ->
  g_off g + foff f + Z.of_nat (fsize f) <= g_off g' + foff f' \/
  g_off g' + foff f' + Z.of_nat (fsize f') <= g_off g + foff f.
Proof.
  intros [Hs HL Hin Hsep] Hg Hg' Hf Hf' Hne.
  destruct (Hin g Hg) as (H0 & Hh & He).
  destruct (Hin g' Hg') as (H0' & Hh' & He').
  destruct (Hsep g g' Hg Hg') as [Heq|Hd].
  - destruct Hne as [Hne|Hne]; [contradiction|].
    destruct f, f'; cbn [fvalid] in Hf, Hf'; layout;
      try lia; try congruence.
    + destruct (Z.eq_dec h h0); [congruence|lia].
    + destruct (Z.eq_dec h h0); [congruence|lia].
  - destruct f, f'; cbn [fvalid] in Hf, Hf'; layout; lia.
Qed.

Lemma peek_poke_ne s N g g' f f' v :
  arena_ok s N -> g ∈ N -> g' ∈ N -> fvalid g f -> fvalid g' f' ->
  g_off g <> g_off g' \/ f <> f' ->
  peek (poke s (g_off g) f v) (g_off g') f' = peek s (g_off g') f'.
Proof.
  intros Ha Hg Hg' Hf Hf' Hne. unfold peek, poke. cbn [nodes arr].
  pose proof (field_in _ _ _ _ Ha Hg Hf).
  pose proof (field_in _ _ _ _ Ha Hg' Hf').
  pose proof (field_sep _ _ _ _ _ _ Ha Hg Hg' Hf Hf' Hne).
  apply load_store_le_ne. lia.
Qed.

Lemma peek_poke_eq s N g f v :
  arena_ok s N -> g ∈ N -> fvalid g f ->
  peek (poke s (g_off g) f v) (g_off g) f = Some (v mod 256 ^ Z.of_nat (fsize f)).
Proof.
  intros Ha Hg Hf. unfold peek, poke. cbn [nodes arr].
  pose proof (field_in _ _ _ _ Ha Hg Hf).
  destruct Ha as [[Hs0 Hs1] _ _ _]. unfold cap in Hs1.
  apply load_store_le_eq. lia.
Qed.

Lemma peek_poke_eq32 s N g f v :
  arena_ok s N -> g ∈ N -> fvalid g f -> f <> FPrefix -> 0 <= v < 2 ^ 32 ->
  peek (poke s (g_off g) f v) (g_off g) f = Some v.
Proof.
  intros Ha Hg Hf Hne Hv. rewrite (peek_poke_eq _ _ _ _ _ Ha Hg Hf).
  f_equal. destruct f; try congruence; cbn [fsize]; apply Z.mod_small;
    change (256 ^ Z.of_nat 4) with (2 ^ 32); lia.
Qed.

Lemma arena_ok_poke s N nd f v :
  arena_ok s N -> arena_ok (poke s nd f v) N.
Proof.
  intros [[Hs0 Hs1] HL Hin Hsep]. split; cbn [poke nodes len]; auto.
  split; cbn [len]; [exact Hs0|]. unfold cap in *. cbn [arr].
  rewrite length_store_le. exact Hs1.
Qed.

Lemma peek_is_Some s N g f :
  arena_ok s N -> g ∈ N -> fvalid g f -> is_Some (peek s (g_off g) f).
Proof.
  intros Ha Hg Hf. pose proof (field_in _ _ _ _ Ha Hg Hf).
  destruct Ha as [[Hs0 Hs1] _ _ _]. unfold cap in Hs1.
  unfold peek. destruct (load_le_Some (arr (nodes s)) (Z.to_nat (g_off g + foff f)) (fsize f)) as [v Hv]; [lia|].
  rewrite Hv. eauto.
Qed.

(** *** Allocation of one more node *)

Lemma peek_grow s N g f size :
  arena_ok s N -> g ∈ N -> fvalid g f ->
  peek (grow s size) (g_off g) f = peek s (g_off g) f.
Proof.
  intros Ha Hg Hf. pose proof (field_in _ _ _ _ Ha Hg Hf).
  destruct Ha as [Hs _ _ _].
  unfold peek, grow. cbn [nodes arr]. apply load_le_ext.
  intros k Hk. apply alloc_arr_lookup; [exact Hs|lia].
Qed.

Lemma arena_ok_grow s N h k :
  arena_ok s N -> 1 <= h <= maxHeight ->
  len (nodes s) + nodeSize h < 2 ^ 32 ->
  arena_ok (grow s (nodeSize h)) (mkG (len (nodes s)) h k :: N).
Proof.
  intros [Hs HL Hin Hsep] Hh Hfit. pose proof Hs as [Hs0 Hs1].
  assert (Hsz : 0 < nodeSize h) by (layout; lia).
  assert (Hlen : len (nodes (grow s (nodeSize h))) = len (nodes s) + nodeSize h).
  { unfold grow. cbn. rewrite (u32_id (len _)) by lia. apply u32_id. lia. }
  split.
  - split; [lia|]. rewrite Hlen at 1. rewrite <- Hlen.
    unfold grow, cap. cbn [nodes arr len]. apply alloc_arr_cap. exact Hs.
  - lia.
  - intros g Hg. rewrite Hlen. apply elem_of_cons in Hg as [->|Hg].
    + unfold node_end. cbn [g_off g_ht]. lia.
    + specialize (Hin g Hg). lia.
  - intros g g' Hg Hg'.
    apply elem_of_cons in Hg as [->|Hg]; apply elem_of_cons in Hg' as [->|Hg'].
    + left; reflexivity.
    + specialize (Hin g' Hg'). right; right. cbn [g_off]. lia.
    + specialize (Hin g Hg). right; left. cbn [g_off]. lia.
    + auto.
Qed.

Lemma arena_ok_weaken s N N' :
  arena_ok s N -> (forall g, g ∈ N' -> g ∈ N) -> arena_ok s N'.
Proof.
  intros [Hs HL Hin Hsep] Hsub. split; auto.
Qed.

(** ** One turn of the splice search *)

Lemma body_tail key prefix level prev w next :
  0 <= prev < len (nodes (skl w)) -> 0 <= level < maxHeight ->
  peek (skl w) prev (FNext level) = Some next ->
  next = tail (skl w) ->
  findSpliceForLevel_body key prefix level prev w = (Ok (Stop next false), w).
Proof.
  intros Hp Hl Hn Ht. unfold findSpliceForLevel_body.
  rewrite (bind_run _ _ _ _ _ (getNext_run _ _ _ _ Hp Hl Hn)).
  munfold. zbool. reflexivity.
Qed.

Lemma body_greater key prefix level prev w next np :
  0 <= prev < len (nodes (skl w)) -> 0 <= level < maxHeight ->
  peek (skl w) prev (FNext level) = Some next ->
  next <> tail (skl w) ->
  0 <= next < len (nodes (skl w)) ->
  peek (skl w) next FPrefix = Some np ->
  prefix < np ->
  findSpliceForLevel_body key prefix level prev w = (Ok (Stop next false), w).
Proof.
  intros Hp Hl Hn Ht Hnx Hnp Hlt. unfold findSpliceForLevel_body.
  rewrite (bind_run _ _ _ _ _ (getNext_run _ _ _ _ Hp Hl Hn)).
  unfold mbind at 1, M_bind at 1, get_skl at 1. zbool.
  rewrite (bind_run _ _ _ _ _ (getKeyPrefix_run _ _ _ Hnx Hnp)).
  zbool. reflexivity.
Qed.

Lemma body_less key prefix level prev w next np :
  0 <= prev < len (nodes (skl w)) -> 0 <= level < maxHeight ->
  peek (skl w) prev (FNext level) = Some next ->
  next <> tail (skl w) ->
  0 <= next < len (nodes (skl w)) ->
  peek (skl w) next FPrefix = Some np ->
  np < prefix ->
  findSpliceForLevel_body key prefix level prev w = (Ok (Advance next), w).
Proof.
  intros Hp Hl Hn Ht Hnx Hnp Hlt. unfold findSpliceForLevel_body.
  rewrite (bind_run _ _ _ _ _ (getNext_run _ _ _ _ Hp Hl Hn)).
  unfold mbind at 1, M_bind at 1, get_skl at 1. zbool.
  rewrite (bind_run _ _ _ _ _ (getKeyPrefix_run _ _ _ Hnx Hnp)).
  zbool. reflexivity.
Qed.

(** What the comparison decides when the prefixes are equal. *)
Definition turn_of_cmp (next cmp : Z) : turn :=
  if cmp =? 0 then Stop next true
  else if cmp <? 0 then Stop next false
  else Advance next.

Lemma body_equal key prefix level prev w next k :
  0 <= prev < len (nodes (skl w)) -> 0 <= level < maxHeight ->
  peek (skl w) prev (FNext level) = Some next ->
  next <> tail (skl w) ->
  0 <= next < len (nodes (skl w)) ->
  peek (skl w) next FPrefix = Some prefix ->
  peek (skl w) next FKey = Some k ->
  findSpliceForLevel_body key prefix level prev w =
    (Ok (turn_of_cmp next (Compare (storage (skl w)) key k)),
     with_calls w [EvCompare key k]).
Proof.
  intros Hp Hl Hn Ht Hnx Hnp Hk. unfold findSpliceForLevel_body.
  rewrite (bind_run _ _ _ _ _ (getNext_run _ _ _ _ Hp Hl Hn)).
  unfold mbind at 1, M_bind at 1, get_skl at 1. zbool.
  rewrite (bind_run _ _ _ _ _ (getKeyPrefix_run _ _ _ Hnx Hnp)).
  zbool.
  rewrite (bind_run _ _ _ _ _ (getKey_run _ _ _ Hnx Hk)).
  unfold storage_Compare, turn_of_cmp. munfold. cbn [skl].
  fold (with_calls w [EvCompare key k]).
  destruct (Compare (storage (skl w)) key k =? 0); [reflexivity|].
  destruct (Compare (storage (skl w)) key k <? 0); reflexivity.
Qed.

(** ** The contract of [Storage] *)

(** [Compare] reflects one total preorder [kcmp] of keys through [Get], and
    [Prefix] is compatible with it and fits its 64 bits. *)
Record StorageContract (st : Storage)
    (kcmp : list Byte.byte -> list Byte.byte -> comparison) : Prop := {
  kcmp_refl : forall a, kcmp a a = Eq;
  kcmp_opp : forall a b, kcmp b a = CompOpp (kcmp a b);
  kcmp_trans : forall a b c, kcmp a b = Lt -> kcmp b c = Lt -> kcmp a c = Lt;
  kcmp_eq : forall a b c, kcmp a b = Eq -> kcmp a c = kcmp b c;
  Compare_kcmp : forall a o, (Compare st a o ?= 0) = kcmp a (Get st o);
  Prefix_mono : forall a b, Prefix st a < Prefix st b -> kcmp a b = Lt;
  Prefix_range : forall a, 0 <= Prefix st a < 2 ^ 64
}.

(** ** Chains of links *)

(** Where a walk from [a] along [l] ends. *)
Fixpoint endp (a : Z) (l : list Z) : Z :=
  match l with
  | [] => a
  | x :: l' => endp x l'
  end.

Lemma endp_app a l1 l2 : endp a (l1 ++ l2) = endp (endp a l1) l2.
Proof. revert a. induction l1 as [|x l1 IH]; intros a; simpl; auto. Qed.

Lemma endp_snoc a l x : endp a (l ++ [x]) = x.
Proof. rewrite endp_app. reflexivity. Qed.

Lemma endp_elem a l : endp a l = a \/ endp a l ∈ l.
Proof.
  revert a. induction l as [|x l IH]; intros a; simpl; [auto|].
  right. destruct (IH x) as [->|H]; [left|right; exact H].
Qed.

(** At level [j], [next] leads from [a] through the nodes [l] to [b], and
    [prev] leads back. *)
Fixpoint chain (s : Skiplist) (j a : Z) (l : list Z) (b : Z) : Prop :=
  match l with
  | [] => peek s a (FNext j) = Some b /\ peek s b (FPrev j) = Some a
  | x :: l' =>
      peek s a (FNext j) = Some x /\ peek s x (FPrev j) = Some a /\
      chain s j x l' b
  end.

Lemma chain_app_inv s j a l1 l2 b :
  chain s j a (l1 ++ l2) b -> chain s j (endp a l1) l2 b.
Proof.
  revert a. induction l1 as [|x l1 IH]; intros a; simpl; [auto|].
  intros (_ & _ & H). auto.
Qed.

Lemma chain_next s j a l b :
  chain s j a l b -> peek s a (FNext j) = Some (hd b l).
Proof. destruct l; simpl; tauto. Qed.

Lemma chain_tail s j a x l b :
  chain s j a (x :: l) b -> chain s j x l b.
Proof. simpl; tauto. Qed.

Lemma chain_ext s s' j a l b :
  (forall x, x = a \/ x ∈ l -> peek s' x (FNext j) = peek s x (FNext j)) ->
  (forall x, x = b \/ x ∈ l -> peek s' x (FPrev j) = peek s x (FPrev j)) ->
  chain s j a l b -> chain s' j a l b.
Proof.
  revert a. induction l as [|x l IH]; intros a Hn Hp; simpl.
  - intros [H1 H2]. rewrite Hn, Hp by auto. auto.
  - intros (H1 & H2 & H3). rewrite Hn by auto.
    rewrite Hp by (right; left). repeat split; auto.
    apply IH; auto.
    + intros y [->|Hy]; apply Hn; right; [left|right; exact Hy].
    + intros y [->|Hy]; apply Hp; [left; reflexivity|right; right; exact Hy].
Qed.

(** The nodes of [G] that reach level [j]. *)
Definition lvl (j : Z) (G : list gnode) : list gnode :=
  filter (fun g => j < g_ht g) G.

Lemma lvl_app j G1 G2 : lvl j (G1 ++ G2) = lvl j G1 ++ lvl j G2.
Proof. apply filter_app. Qed.

Lemma elem_of_lvl j G g : g ∈ lvl j G <-> j < g_ht g /\ g ∈ G.
Proof. unfold lvl. apply (list_elem_of_filter (fun g => j < g_ht g)). Qed.

Lemma lvl_none j G : (forall g, g ∈ G -> g_ht g <= j) -> lvl j G = [].
Proof.
  intros H. induction G as [|g G IH]; [reflexivity|].
  unfold lvl. rewrite filter_cons. destruct (decide (j < g_ht g)) as [Hlt|_].
  - specialize (H g ltac:(left)). lia.
  - apply IH. intros g' Hg'. apply H. right. exact Hg'.
Qed.

(** The last node of a level is where the walk of the level below is
    resumed: it splits the lower level in two. *)
Lemma lvl_split j a G :
  exists P Q, lvl j G = P ++ Q /\
    endp a (map g_off P) = endp a (map g_off (lvl (j + 1) G)) /\
    (endp a (map g_off P) = a \/ exists g, g ∈ G /\ g_off g = endp a (map g_off P)).
Proof.
  induction G as [|g G IH] using rev_ind.
  - exists [], []. simpl. auto.
  - destruct IH as (P & Q & HPQ & He & Hin).
    rewrite !lvl_app. unfold lvl at 2 4. rewrite !filter_cons, !filter_nil.
    destruct (decide (j + 1 < g_ht g)) as [H1|H1].
    + destruct (decide (j < g_ht g)) as [_|H0]; [|lia].
      exists (lvl j G ++ [g]), []. rewrite app_nil_r. split; [reflexivity|].
      rewrite !map_app, !endp_app. simpl. split; [reflexivity|].
      right. exists g. split; [|reflexivity].
      apply elem_of_app. right. left.
    + rewrite app_nil_r. exists P, (Q ++ filter (fun g0 => j < g_ht g0) [g]).
      rewrite filter_cons, filter_nil. split.
      * rewrite HPQ, app_assoc. reflexivity.
      * split; [exact He|].
        destruct Hin as [Hin|(g' & Hg' & Hin)]; [left; exact Hin|].
        right. exists g'. split; [|exact Hin]. apply elem_of_app. left. exact Hg'.
Qed.

(** ** The invariant of the skip list *)

Section Contract.

Context (st : Storage) (kcmp : list Byte.byte -> list Byte.byte -> comparison).
Context (HC : StorageContract st kcmp).

(** The key of a node. *)
Definition gk (g : gnode) : list Byte.byte := Get st (g_key g).

(** Head and tail are nodes of the maximum height. *)
Definition sentinel (off : Z) : gnode := mkG off maxHeight 0.

(** [G] lists the nodes that were inserted, in the order of level 0. *)
Record Inv (s : Skiplist) (G : list gnode) : Prop := {
  inv_storage : storage s = st;
  inv_arena : arena_ok s (sentinel (head s) :: sentinel (tail s) :: G);
  inv_nodup : NoDup (head s :: tail s :: map g_off G);
  inv_height : 1 <= height s <= maxHeight;
  inv_hts : forall g, g ∈ G -> g_ht g <= height s;
  inv_chain : forall j, 0 <= j < maxHeight ->
      chain s j (head s) (map g_off (lvl j G)) (tail s);
  inv_keys : forall g, g ∈ G ->
      0 <= g_key g < 2 ^ 32 /\
      peek s (g_off g) FKey = Some (g_key g) /\
      peek s (g_off g) FPrefix = Some (Prefix st (gk g));
  inv_sorted : StronglySorted (fun g g' => kcmp (gk g) (gk g') = Lt) G
}.

Lemma kcmp_lt_gt a b : kcmp a b = Lt -> kcmp b a = Gt.
Proof. intros H. rewrite (kcmp_opp _ _ HC a b), H. reflexivity. Qed.

Lemma kcmp_gt_lt a b : kcmp a b = Gt -> kcmp b a = Lt.
Proof. intros H. rewrite (kcmp_opp _ _ HC a b), H. reflexivity. Qed.

Lemma kcmp_eq_sym a b : kcmp a b = Eq -> kcmp b a = Eq.
Proof. intros H. rewrite (kcmp_opp _ _ HC a b), H. reflexivity. Qed.

Lemma kcmp_prefix_eq a b : kcmp a b = Eq -> Prefix st a = Prefix st b.
Proof.
  intros H.
  destruct (Z.lt_trichotomy (Prefix st a) (Prefix st b)) as [Hlt|[Heq|Hgt]].
  - apply (Prefix_mono _ _ HC) in Hlt. congruence.
  - exact Heq.
  - apply (Prefix_mono _ _ HC) in Hgt. apply kcmp_lt_gt in Hgt. congruence.
Qed.

Lemma Inv_head_in s G : Inv s G -> 0 <= head s < len (nodes s).
Proof.
  intros HI. destruct (ar_in _ _ (inv_arena _ _ HI) (sentinel (head s))) as (H0 & _ & H1).
  - left.
  - unfold node_end, sentinel in *. cbn [g_off g_ht] in *. layout. lia.
Qed.

Lemma Inv_tail_in s G : Inv s G -> 0 <= tail s < len (nodes s).
Proof.
  intros HI. destruct (ar_in _ _ (inv_arena _ _ HI) (sentinel (tail s))) as (H0 & _ & H1).
  - right; left.
  - unfold node_end, sentinel in *. cbn [g_off g_ht] in *. layout. lia.
Qed.

Lemma Inv_node s G g :
  Inv s G -> g ∈ G ->
  0 <= g_off g < len (nodes s) /\ 1 <= g_ht g <= maxHeight /\
  g_off g <> head s /\ g_off g <> tail s.
Proof.
  intros HI Hg.
  destruct (ar_in _ _ (inv_arena _ _ HI) g) as (H0 & Hh & H1).
  { right; right; exact Hg. }
  pose proof (inv_nodup _ _ HI) as Hnd.
  apply NoDup_cons in Hnd as [Hh1 Hnd]. apply NoDup_cons in Hnd as [Ht1 _].
  assert (Hin : g_off g ∈ map g_off G) by (apply list_elem_of_fmap; exists g; auto).
  repeat split; try lia.
  - unfold node_end in H1. layout. lia.
  - intros E. apply Hh1. right. rewrite <- E. exact Hin.
  - intros E. apply Ht1. rewrite <- E. exact Hin.
Qed.

(** Whether the node a walk stops before is the key looked for. *)
Definition found_hd (a : list Byte.byte) (R : list gnode) : bool :=
  match R with
  | r :: _ => match kcmp a (gk r) with Eq => true | _ => false end
  | [] => false
  end.

(** The walk of one level: from [p], over the nodes [Q] whose keys are
    below the key looked for, to the first node of [R]. *)
Lemma search_chain a j G Q :
  0 <= j < maxHeight ->
  forall R p w fuel,
  Inv (skl w) G ->
  (forall g, g ∈ Q ++ R -> g ∈ G /\ j < g_ht g) ->
  0 <= p < len (nodes (skl w)) ->
  chain (skl w) j p (map g_off (Q ++ R)) (tail (skl w)) ->
  (forall g, g ∈ Q -> kcmp (gk g) a = Lt) ->
  (forall g, g ∈ R -> kcmp a (gk g) <> Gt) ->
  (length Q < fuel)%nat ->
  exists evs,
    findSpliceForLevel fuel a (Prefix st a) j p w =
      (Ok (endp p (map g_off Q), hd (tail (skl w)) (map g_off R), found_hd a R),
       with_calls w evs).
Proof.
  intros Hj. induction Q as [|q Q IH]; intros R p w fuel HI Hin Hp Hch HQ HR Hfuel.
  - destruct fuel as [|fuel]; [simpl in Hfuel; lia|].
    cbn [findSpliceForLevel app map endp] in *.
    pose proof (chain_next _ _ _ _ _ Hch) as Hnx.
    destruct R as [|r R]; cbn [map hd found_hd] in *.
    + exists []. rewrite with_calls_nil.
      rewrite (bind_run _ _ _ _ _ (body_tail _ _ _ _ _ _ Hp Hj Hnx eq_refl)).
      reflexivity.
    + destruct (Hin r ltac:(left)) as [Hr Hjr].
      destruct (Inv_node _ _ _ HI Hr) as (Hb & Hh & Hnh & Hnt).
      destruct (inv_keys _ _ HI r Hr) as (Hkr & Hk & Hpf).
      specialize (HR r ltac:(left)).
      destruct (Z.lt_trichotomy (Prefix st a) (Prefix st (gk r))) as [Hlt|[Heq|Hgt]].
      * exists []. rewrite with_calls_nil.
        rewrite (bind_run _ _ _ _ _ (body_greater _ _ _ _ _ _ _ Hp Hj Hnx Hnt Hb Hpf Hlt)).
        apply (Prefix_mono _ _ HC) in Hlt. rewrite Hlt. reflexivity.
      * exists [EvCompare a (g_key r)].
        rewrite <- Heq in Hpf.
        rewrite (bind_run _ _ _ _ _ (body_equal _ _ _ _ _ _ _ Hp Hj Hnx Hnt Hb Hpf Hk)).
        rewrite (inv_storage _ _ HI). unfold turn_of_cmp.
        pose proof (Compare_kcmp _ _ HC a (g_key r)) as Hc. fold (gk r) in Hc.
        destruct (kcmp a (gk r)) eqn:E.
        -- apply Z.compare_eq_iff in Hc. rewrite Hc. reflexivity.
        -- assert (Compare st a (g_key r) < 0) by (apply Z.compare_lt_iff; exact Hc).
           zbool. reflexivity.
        -- congruence.
      * apply (Prefix_mono _ _ HC) in Hgt. apply kcmp_lt_gt in Hgt. congruence.
  - destruct fuel as [|fuel]; [simpl in Hfuel; lia|].
    cbn [findSpliceForLevel app map endp] in *.
    pose proof (chain_next _ _ _ _ _ Hch) as Hnx. cbn [hd] in Hnx.
    destruct (Hin q ltac:(left)) as [Hq Hjq].
    destruct (Inv_node _ _ _ HI Hq) as (Hb & Hh & Hnh & Hnt).
    destruct (inv_keys _ _ HI q Hq) as (Hkq & Hk & Hpf).
    pose proof (HQ q ltac:(left)) as Hlt'. apply kcmp_lt_gt in Hlt'.
    apply chain_tail in Hch.
    assert (Hin' : forall g, g ∈ Q ++ R -> g ∈ G /\ j < g_ht g)
      by (intros g Hg; apply Hin; right; exact Hg).
    assert (HQ' : forall g, g ∈ Q -> kcmp (gk g) a = Lt)
      by (intros g Hg; apply HQ; right; exact Hg).
    destruct (Z.lt_trichotomy (Prefix st a) (Prefix st (gk q))) as [Hlt|[Heq|Hgt]].
    + apply (Prefix_mono _ _ HC) in Hlt. congruence.
    + rewrite <- Heq in Hpf.
      rewrite (bind_run _ _ _ _ _ (body_equal _ _ _ _ _ _ _ Hp Hj Hnx Hnt Hb Hpf Hk)).
      rewrite (inv_storage _ _ HI). unfold turn_of_cmp.
      pose proof (Compare_kcmp _ _ HC a (g_key q)) as Hc. fold (gk q) in Hc.
      rewrite Hlt' in Hc.
      assert (0 < Compare st a (g_key q)) by (apply Z.compare_gt_iff; exact Hc).
      zbool.
      destruct (IH R (g_off q) (with_calls w [EvCompare a (g_key q)]) fuel)
        as [evs He]; auto; [simpl in Hfuel; lia|].
      exists ([EvCompare a (g_key q)] ++ evs).
      rewrite He. cbn [skl with_calls]. rewrite with_calls_app. reflexivity.
    + rewrite (bind_run _ _ _ _ _ (body_less _ _ _ _ _ _ _ Hp Hj Hnx Hnt Hb Hpf Hgt)).
      destruct (IH R (g_off q) w fuel) as [evs He]; auto; [simpl in Hfuel; lia|].
      exists evs. exact He.
Qed.

Lemma bounded_NoDup_length (l : list Z) (n : Z) :
  0 <= n -> NoDup l -> (forall x, x ∈ l -> 0 <= x < n) ->
  Z.of_nat (length l) <= n.
Proof.
  intros Hn Hnd Hb.
  assert (H : (length l <= length (seqZ 0 n))%nat).
  { apply submseteq_length, NoDup_submseteq; [exact Hnd|].
    intros x Hx. apply elem_of_seqZ. specialize (Hb x Hx). lia. }
  rewrite length_seqZ in H. lia.
Qed.

Lemma Inv_length s G : Inv s G -> Z.of_nat (length G) <= len (nodes s).
Proof.
  intros HI. rewrite <- (length_map g_off).
  pose proof (inv_nodup _ _ HI) as Hnd.
  apply NoDup_cons in Hnd as [_ Hnd]. apply NoDup_cons in Hnd as [_ Hnd].
  apply bounded_NoDup_length; [|exact Hnd|].
  - pose proof (Inv_head_in _ _ HI). lia.
  - intros x Hx. apply list_elem_of_fmap in Hx as (g' & -> & Hg').
    destruct (Inv_node _ _ _ HI Hg') as (Hb & _). exact Hb.
Qed.

(** *** The search of all levels *)

(** The splice of level [j] when the nodes [A] are below the key and the
    nodes [R] are not. *)
Definition splice_at (s : Skiplist) (A R : list gnode) (j : Z) : Z * Z :=
  (endp (head s) (map g_off (lvl j A)), hd (tail s) (map g_off (lvl j R))).

Definition splices (s : Skiplist) (A R : list gnode) (i n : nat) : list (Z * Z) :=
  map (fun j => splice_at s A R (Z.of_nat j)) (seq i n).

Lemma splices_S s A R n :
  splices s A R 0 (S n) = splices s A R 0 n ++ [splice_at s A R (Z.of_nat n)].
Proof. unfold splices. rewrite seq_S, map_app. reflexivity. Qed.

(** Whether one of the [n] lowest levels stops before the key itself. *)
Fixpoint any_found (a : list Byte.byte) (R : list gnode) (n : nat) : bool :=
  match n with
  | O => false
  | S n' => found_hd a (lvl (Z.of_nat n') R) || any_found a R n'
  end.

Lemma findSplices_spec a A R n :
  (Z.of_nat n <= maxHeight) ->
  (forall g, g ∈ A -> kcmp (gk g) a = Lt) ->
  (forall g, g ∈ R -> kcmp a (gk g) <> Gt) ->
  forall spl w,
  Inv (skl w) (A ++ R) ->
  exists evs,
    findSplices n a (Prefix st a)
      (endp (head (skl w)) (map g_off (lvl (Z.of_nat n) A))) spl w =
      (Ok (if any_found a R n then None
           else Some (splices (skl w) A R 0 n ++ spl)),
       with_calls w evs).
Proof.
  intros Hn HA HR. induction n as [|n IH]; intros spl w HI.
  - exists []. rewrite with_calls_nil. reflexivity.
  - cbn [findSplices any_found]. rewrite splices_S.
    unfold mbind at 1, M_bind at 1, get_skl at 1.
    set (j := Z.of_nat n) in *.
    assert (Hj : 0 <= j < maxHeight) by lia.
    destruct (lvl_split j (head (skl w)) A) as (P & Q & HPQ & He & Hin).
    replace (Z.of_nat (S n)) with (j + 1) by lia.
    rewrite <- He.
    pose proof (inv_chain _ _ HI j Hj) as Hch.
    rewrite lvl_app, HPQ, <- app_assoc, map_app in Hch.
    apply chain_app_inv in Hch.
    assert (HinG : forall g, g ∈ Q ++ lvl j R -> g ∈ A ++ R /\ j < g_ht g).
    { intros g Hg. apply elem_of_app in Hg as [Hg|Hg].
      - assert (Hg' : g ∈ lvl j A) by (rewrite HPQ; apply elem_of_app; auto).
        apply elem_of_lvl in Hg' as [? ?]. split; [apply elem_of_app; auto|lia].
      - apply elem_of_lvl in Hg as [? ?]. split; [apply elem_of_app; auto|lia]. }
    assert (Hp : 0 <= endp (head (skl w)) (map g_off P) < len (nodes (skl w))).
    { destruct Hin as [->|(g & Hg & <-)].
      - eapply Inv_head_in; eauto.
      - eapply Inv_node; eauto. apply elem_of_app; auto. }
    assert (HQ : forall g, g ∈ Q -> kcmp (gk g) a = Lt).
    { intros g Hg. apply HA.
      assert (Hg' : g ∈ lvl j A) by (rewrite HPQ; apply elem_of_app; auto).
      apply elem_of_lvl in Hg'. tauto. }
    assert (HR' : forall g, g ∈ lvl j R -> kcmp a (gk g) <> Gt).
    { intros g Hg. apply HR. apply elem_of_lvl in Hg. tauto. }
    assert (Hfuel : (length Q < level_fuel (skl w))%nat).
    { unfold level_fuel. pose proof (Inv_length _ _ HI) as HL.
      rewrite length_app in HL.
      pose proof (length_filter (fun g => j < g_ht g) A) as HF.
      fold (lvl j A) in HF. rewrite HPQ, length_app in HF. lia. }
    destruct (search_chain a j (A ++ R) Q Hj (lvl j R) _ w _ HI HinG Hp Hch HQ HR' Hfuel)
      as [evs Hs].
    rewrite (bind_run _ _ _ _ _ Hs).
    rewrite <- endp_app, <- map_app, <- HPQ.
    destruct (found_hd a (lvl j R)) eqn:Hf; cbn [orb].
    + exists evs. reflexivity.
    + destruct (IH ltac:(lia)
                  ((endp (head (skl w)) (map g_off (lvl j A)),
                    hd (tail (skl w)) (map g_off (lvl j R))) :: spl)
                  (with_calls w evs) HI) as [evs' He'].
      cbn [skl with_calls] in He'. fold j in He'. rewrite He'.
      exists (evs ++ evs'). rewrite with_calls_app.
      destruct (any_found a R n); [reflexivity|].
      unfold splice_at. rewrite <- app_assoc. reflexivity.
Qed.

(** *** Linking a node at one level *)

Lemma setNext_ok N g i v w :
  arena_ok (skl w) N -> g ∈ N -> 0 <= i < g_ht g ->
  setNext (g_off g) i v w = (Ok tt, with_skl w (poke (skl w) (g_off g) (FNext i) v)).
Proof.
  intros Ha Hg Hi.
  pose proof (field_in _ _ g (FNext i) Ha Hg Hi) as Hf.
  destruct (ar_in _ _ Ha g Hg) as (H0 & Hh & He).
  destruct (ar_slice _ _ Ha) as [Hs0 Hs1].
  cbn [foff fsize] in Hf.
  apply setNext_run; layout; lia.
Qed.

Lemma setPrev_ok N g i v w :
  arena_ok (skl w) N -> g ∈ N -> 0 <= i < g_ht g ->
  setPrev (g_off g) i v w = (Ok tt, with_skl w (poke (skl w) (g_off g) (FPrev i) v)).
Proof.
  intros Ha Hg Hi.
  pose proof (field_in _ _ g (FPrev i) Ha Hg Hi) as Hf.
  destruct (ar_in _ _ Ha g Hg) as (H0 & Hh & He).
  destruct (ar_slice _ _ Ha) as [Hs0 Hs1].
  cbn [foff fsize] in Hf.
  apply setPrev_run; layout; lia.
Qed.

(** The four writes that link [nd] between [p] and [n] at level [i]. *)
Definition link_at (s : Skiplist) (nd i p n : Z) : Skiplist :=
  poke (poke (poke (poke s nd (FNext i) n) nd (FPrev i) p) p (FNext i) nd)
    n (FPrev i) nd.

Lemma arena_off_range s N g : arena_ok s N -> g ∈ N -> 0 <= g_off g < 2 ^ 32.
Proof.
  intros Ha Hg. destruct (ar_in _ _ Ha g Hg) as (H0 & Hh & He).
  pose proof (ar_len _ _ Ha). unfold node_end in He. layout. lia.
Qed.

Lemma link_at_peeks s N gnew gp gn i :
  arena_ok s N -> gnew ∈ N -> gp ∈ N -> gn ∈ N ->
  0 <= i < g_ht gnew -> 0 <= i < g_ht gp -> 0 <= i < g_ht gn ->
  g_off gp <> g_off gnew -> g_off gn <> g_off gnew ->
  let s' := link_at s (g_off gnew) i (g_off gp) (g_off gn) in
  arena_ok s' N /\
  peek s' (g_off gnew) (FNext i) = Some (g_off gn) /\
  peek s' (g_off gnew) (FPrev i) = Some (g_off gp) /\
  peek s' (g_off gp) (FNext i) = Some (g_off gnew) /\
  peek s' (g_off gn) (FPrev i) = Some (g_off gnew) /\
  forall g f, g ∈ N -> fvalid g f ->
    ~ (g_off g = g_off gnew /\ f = FNext i) ->
    ~ (g_off g = g_off gnew /\ f = FPrev i) ->
    ~ (g_off g = g_off gp /\ f = FNext i) ->
    ~ (g_off g = g_off gn /\ f = FPrev i) ->
    peek s' (g_off g) f = peek s (g_off g) f.
Proof.
  intros Ha Hnew Hp Hn Hi1 Hi2 Hi3 Hpn Hnn s'. subst s'. unfold link_at.
  set (s1 := poke s (g_off gnew) (FNext i) (g_off gn)).
  set (s2 := poke s1 (g_off gnew) (FPrev i) (g_off gp)).
  set (s3 := poke s2 (g_off gp) (FNext i) (g_off gnew)).
  assert (Ha1 : arena_ok s1 N) by (apply arena_ok_poke; exact Ha).
  assert (Ha2 : arena_ok s2 N) by (apply arena_ok_poke; exact Ha1).
  assert (Ha3 : arena_ok s3 N) by (apply arena_ok_poke; exact Ha2).
  pose proof (arena_off_range _ _ _ Ha Hnew) as Rnew.
  pose proof (arena_off_range _ _ _ Ha Hp) as Rp.
  pose proof (arena_off_range _ _ _ Ha Hn) as Rn.
  split; [apply arena_ok_poke; exact Ha3|].
  split; [|split; [|split; [|split]]].
  - rewrite (peek_poke_ne s3 N gn gnew (FPrev i) (FNext i)) by (auto; right; congruence).
    unfold s3. rewrite (peek_poke_ne s2 N gp gnew (FNext i) (FNext i)) by (auto; left; congruence).
    unfold s2. rewrite (peek_poke_ne s1 N gnew gnew (FPrev i) (FNext i)) by (auto; right; congruence).
    unfold s1. apply (peek_poke_eq32 s N gnew (FNext i)); auto; congruence.
  - rewrite (peek_poke_ne s3 N gn gnew (FPrev i) (FPrev i)) by (auto; left; congruence).
    unfold s3. rewrite (peek_poke_ne s2 N gp gnew (FNext i) (FPrev i)) by (auto; right; congruence).
    unfold s2. apply (peek_poke_eq32 s1 N gnew (FPrev i)); auto; congruence.
  - rewrite (peek_poke_ne s3 N gn gp (FPrev i) (FNext i)) by (auto; right; congruence).
    unfold s3. apply (peek_poke_eq32 s2 N gp (FNext i)); auto; congruence.
  - apply (peek_poke_eq32 s3 N gn (FPrev i)); auto; congruence.
  - intros g f Hg Hf N1 N2 N3 N4.
    rewrite (peek_poke_ne s3 N gn g (FPrev i) f); auto.
    2:{ destruct (Z.eq_dec (g_off gn) (g_off g)) as [E|E]; [right|left; exact E].
        intros <-. apply N4. split; congruence. }
    unfold s3. rewrite (peek_poke_ne s2 N gp g (FNext i) f); auto.
    2:{ destruct (Z.eq_dec (g_off gp) (g_off g)) as [E|E]; [right|left; exact E].
        intros <-. apply N3. split; congruence. }
    unfold s2. rewrite (peek_poke_ne s1 N gnew g (FPrev i) f); auto.
    2:{ destruct (Z.eq_dec (g_off gnew) (g_off g)) as [E|E]; [right|left; exact E].
        intros <-. apply N2. split; congruence. }
    unfold s1. rewrite (peek_poke_ne s N gnew g (FNext i) f); auto.
    destruct (Z.eq_dec (g_off gnew) (g_off g)) as [E|E]; [right|left; exact E].
    intros <-. apply N1. split; congruence.
Qed.

Lemma link_at_run N gnew gp gn i w {B} (K : unit -> M B) :
  arena_ok (skl w) N -> gnew ∈ N -> gp ∈ N -> gn ∈ N ->
  0 <= i < g_ht gnew -> 0 <= i < g_ht gp -> 0 <= i < g_ht gn ->
  (setNext (g_off gnew) i (g_off gn) ≫= fun _ =>
   setPrev (g_off gnew) i (g_off gp) ≫= fun _ =>
   setNext (g_off gp) i (g_off gnew) ≫= fun _ =>
   setPrev (g_off gn) i (g_off gnew) ≫= K) w =
  K tt (with_skl w (link_at (skl w) (g_off gnew) i (g_off gp) (g_off gn))).
Proof.
  intros Ha Hnew Hp Hn Hi1 Hi2 Hi3.
  rewrite (bind_run _ _ _ _ _ (setNext_ok N gnew i _ w Ha Hnew Hi1)).
  match goal with |- (_ ≫= _) ?w1 = _ =>
    assert (Ha1 : arena_ok (skl w1) N) by (apply arena_ok_poke; exact Ha) end.
  rewrite (bind_run _ _ _ _ _ (setPrev_ok N gnew i _ _ Ha1 Hnew Hi1)).
  match goal with |- (_ ≫= _) ?w1 = _ =>
    assert (Ha2 : arena_ok (skl w1) N) by (apply arena_ok_poke; exact Ha1) end.
  rewrite (bind_run _ _ _ _ _ (setNext_ok N gp i _ _ Ha2 Hp Hi2)).
  match goal with |- (_ ≫= _) ?w1 = _ =>
    assert (Ha3 : arena_ok (skl w1) N) by (apply arena_ok_poke; exact Ha2) end.
  rewrite (bind_run _ _ _ _ _ (setPrev_ok N gn i _ _ Ha3 Hn Hi3)).
  reflexivity.
Qed.

(** Linking [nd] into a chain between the end of [LA] and the start of
    [LB]. *)
Lemma chain_insert s s' j nd :
  forall LA LB a b,
  chain s j a (LA ++ LB) b ->
  NoDup (a :: LA ++ LB ++ [b]) ->
  peek s' nd (FNext j) = Some (hd b LB) ->
  peek s' nd (FPrev j) = Some (endp a LA) ->
  peek s' (endp a LA) (FNext j) = Some nd ->
  peek s' (hd b LB) (FPrev j) = Some nd ->
  (forall x, x ∈ a :: LA ++ LB -> x <> endp a LA ->
     peek s' x (FNext j) = peek s x (FNext j)) ->
  (forall x, x ∈ LA ++ LB ++ [b] -> x <> hd b LB ->
     peek s' x (FPrev j) = peek s x (FPrev j)) ->
  chain s' j a (LA ++ nd :: LB) b.
Proof.
  induction LA as [|x LA IH]; intros LB a b Hch Hnd H1 H2 H3 H4 Hfn Hfp;
    cbn [app endp] in *.
  - cbn [chain]. split; [exact H3|]. split; [exact H2|].
    apply NoDup_cons in Hnd as [Ha Hnd].
    destruct LB as [|y LB]; cbn [hd chain app] in *.
    + auto.
    + split; [exact H1|]. split; [exact H4|].
      destruct Hch as (_ & _ & Hch).
      apply NoDup_cons in Hnd as [Hy Hnd].
      eapply chain_ext; [| |exact Hch].
      * intros z Hz. apply Hfn.
        -- right. destruct Hz as [->|Hz]; [left|right; exact Hz].
        -- intros ->. apply Ha. destruct Hz as [->|Hz]; [left|right].
           apply elem_of_app. left. exact Hz.
      * intros z Hz. apply Hfp.
        -- right. destruct Hz as [->|Hz]; apply elem_of_app; [right; left|left; exact Hz].
        -- intros ->. apply Hy. destruct Hz as [E|Hz]; apply elem_of_app.
           ++ right. rewrite E. left.
           ++ left. exact Hz.
  - destruct Hch as (Hn & Hp & Hch). cbn [chain].
    pose proof Hnd as Hnd0.
    apply NoDup_cons in Hnd as [Ha Hnd].
    assert (Hax : endp x LA ∈ x :: LA ++ LB ++ [b]).
    { destruct (endp_elem x LA) as [->|He]; [left|right].
      apply elem_of_app. left. exact He. }
    assert (Hxn : x <> hd b LB).
    { apply NoDup_cons in Hnd as [Hx _]. intros E. apply Hx.
      apply elem_of_app. right. rewrite E.
      destruct LB; cbn [hd app]; left. }
    split; [|split].
    + rewrite Hfn; [exact Hn|left|]. intros E. apply Ha. rewrite E. exact Hax.
    + rewrite Hfp; [exact Hp|left|exact Hxn].
    + apply IH; auto.
      * intros z Hz. apply Hfn. right. exact Hz.
      * intros z Hz. apply Hfp. right. exact Hz.
Qed.

(** *** The state while a new node is being linked *)

(** [gnew] is allocated and holds its key; the levels below [i] already go
    through it, the levels from [i] on do not yet. *)
Record Linking (s : Skiplist) (A R : list gnode) (gnew : gnode) (i : Z) : Prop := {
  lk_storage : storage s = st;
  lk_arena : arena_ok s (sentinel (head s) :: sentinel (tail s) :: gnew :: A ++ R);
  lk_nodup : NoDup (head s :: tail s :: g_off gnew :: map g_off (A ++ R));
  lk_keys : forall g, g ∈ gnew :: A ++ R ->
      0 <= g_key g < 2 ^ 32 /\
      peek s (g_off g) FKey = Some (g_key g) /\
      peek s (g_off g) FPrefix = Some (Prefix st (gk g));
  lk_done : forall j, 0 <= j < i ->
      chain s j (head s) (map g_off (lvl j (A ++ gnew :: R))) (tail s);
  lk_todo : forall j, i <= j < maxHeight ->
      chain s j (head s) (map g_off (lvl j (A ++ R))) (tail s)
}.

Lemma lvl_node j G x :
  x ∈ map g_off (lvl j G) -> exists g, g ∈ G /\ g_off g = x /\ j < g_ht g.
Proof.
  intros Hx. apply list_elem_of_fmap in Hx as (g & -> & Hg).
  apply elem_of_lvl in Hg as [? ?]. eauto.
Qed.

Lemma endp_lvl_node (hd0 : Z) j G :
  endp hd0 (map g_off (lvl j G)) = hd0 \/
  exists g, g ∈ G /\ g_off g = endp hd0 (map g_off (lvl j G)) /\ j < g_ht g.
Proof.
  destruct (endp_elem hd0 (map g_off (lvl j G))) as [H|H]; [left; exact H|].
  right. apply lvl_node. exact H.
Qed.

Lemma hd_lvl_node (tl0 : Z) j G :
  hd tl0 (map g_off (lvl j G)) = tl0 \/
  exists g, g ∈ G /\ g_off g = hd tl0 (map g_off (lvl j G)) /\ j < g_ht g.
Proof.
  destruct (lvl j G) as [|g L] eqn:E; cbn [map hd]; [left; reflexivity|].
  right. exists g. assert (Hg : g ∈ lvl j G) by (rewrite E; left).
  apply elem_of_lvl in Hg as [? ?]. auto.
Qed.

Lemma NoDup_level (h t : Z) (M L : list Z) :
  NoDup (h :: t :: M) -> L `sublist_of` M -> NoDup (h :: L ++ [t]).
Proof.
  intros Hnd Hsub.
  apply NoDup_cons in Hnd as [Hh Hnd]. apply NoDup_cons in Hnd as [Ht Hnd].
  apply NoDup_cons. split.
  - intros Hin. apply elem_of_app in Hin as [Hin|Hin].
    + apply Hh. right. eapply elem_of_sublist; eauto.
    + apply list_elem_of_singleton in Hin. apply Hh. rewrite Hin. left.
  - apply NoDup_app. split; [eapply sublist_NoDup; eauto|]. split.
    + intros x Hx Hx'. apply list_elem_of_singleton in Hx'. subst x.
      apply Ht. eapply elem_of_sublist; eauto.
    + apply NoDup_singleton.
Qed.

Lemma lvl_sublist j G : map g_off (lvl j G) `sublist_of` map g_off G.
Proof. apply fmap_sublist. apply sublist_filter. Qed.

(** A chain of a level is kept by writes that leave the links of that
    level alone. *)
Lemma chain_frame s s' (N : list gnode) j G' :
  0 <= j < maxHeight ->
  head s' = head s -> tail s' = tail s ->
  sentinel (head s) ∈ N -> sentinel (tail s) ∈ N ->
  (forall g, g ∈ G' -> g ∈ N) ->
  (forall g f, g ∈ N -> fvalid g f -> f = FNext j \/ f = FPrev j ->
     peek s' (g_off g) f = peek s (g_off g) f) ->
  chain s j (head s) (map g_off (lvl j G')) (tail s) ->
  chain s' j (head s') (map g_off (lvl j G')) (tail s').
Proof.
  intros Hj Hh Ht Hhd Htl Hsub Hfr Hch. rewrite Hh, Ht.
  eapply chain_ext; [| |exact Hch].
  - intros x [->|Hx].
    + apply (Hfr (sentinel (head s))); auto; cbn; unfold maxHeight in *; lia.
    + apply lvl_node in Hx as (g & Hg & <- & Hlt).
      apply Hfr; auto; cbn; lia.
  - intros x [->|Hx].
    + apply (Hfr (sentinel (tail s))); auto; cbn; unfold maxHeight in *; lia.
    + apply lvl_node in Hx as (g & Hg & <- & Hlt).
      apply Hfr; auto; cbn; lia.
Qed.

Lemma Linking_step s A R gnew i :
  Linking s A R gnew i -> 0 <= i < g_ht gnew ->
  Linking
    (link_at s (g_off gnew) i
       (endp (head s) (map g_off (lvl i A)))
       (hd (tail s) (map g_off (lvl i R))))
    A R gnew (i + 1).
Proof.
  intros HL Hi.
  set (N := sentinel (head s) :: sentinel (tail s) :: gnew :: A ++ R).
  pose proof (lk_arena _ _ _ _ _ HL) as Ha. fold N in Ha.
  pose proof (lk_nodup _ _ _ _ _ HL) as Hnd.
  assert (Hnew : gnew ∈ N) by (right; right; left).
  assert (Hhd : sentinel (head s) ∈ N) by left.
  assert (Htl : sentinel (tail s) ∈ N) by (right; left).
  assert (HG : forall g, g ∈ A ++ R -> g ∈ N) by (intros g Hg; right; right; right; exact Hg).
  assert (HG' : forall g, g ∈ A ++ gnew :: R -> g ∈ N).
  { intros g Hg. apply elem_of_app in Hg as [Hg|Hg].
    - apply HG, elem_of_app; auto.
    - apply elem_of_cons in Hg as [->|Hg]; [exact Hnew|]. apply HG, elem_of_app; auto. }
  assert (Hi20 : i < maxHeight).
  { destruct (ar_in _ _ Ha gnew Hnew) as (_ & ? & _). lia. }
  assert (Hold : forall g, g ∈ A ++ R -> g_off g <> g_off gnew).
  { intros g Hg E.
    apply NoDup_cons in Hnd as [_ Hnd]. apply NoDup_cons in Hnd as [_ Hnd].
    apply NoDup_cons in Hnd as [Hn _]. apply Hn. rewrite <- E.
    apply list_elem_of_fmap. eauto. }
  assert (Hhn : head s <> g_off gnew).
  { intros E. apply NoDup_cons in Hnd as [Hn _]. apply Hn. rewrite E. right; left. }
  assert (Htn : tail s <> g_off gnew).
  { intros E. apply NoDup_cons in Hnd as [_ Hnd]. apply NoDup_cons in Hnd as [Hn _].
    apply Hn. rewrite E. left. }
  (* the predecessor and the successor are nodes of the arena *)
  assert (Hp : exists gp, gp ∈ N /\ g_off gp = endp (head s) (map g_off (lvl i A)) /\
                          i < g_ht gp /\ g_off gp <> g_off gnew).
  { destruct (endp_lvl_node (head s) i A) as [E|(g & Hg & E & Hlt)].
    - exists (sentinel (head s)). rewrite E. cbn. auto.
    - exists g. repeat split; auto; [apply HG|apply Hold]; apply elem_of_app; auto. }
  assert (Hn : exists gn, gn ∈ N /\ g_off gn = hd (tail s) (map g_off (lvl i R)) /\
                          i < g_ht gn /\ g_off gn <> g_off gnew).
  { destruct (hd_lvl_node (tail s) i R) as [E|(g & Hg & E & Hlt)].
    - exists (sentinel (tail s)). rewrite E. cbn. auto.
    - exists g. repeat split; auto; [apply HG|apply Hold]; apply elem_of_app; auto. }
  destruct Hp as (gp & Hgp & Ep & Hip & Hpn).
  destruct Hn as (gn & Hgn & En & Hin & Hnn).
  rewrite <- Ep, <- En.
  destruct (link_at_peeks s N gnew gp gn i Ha Hnew Hgp Hgn ltac:(lia) ltac:(lia) ltac:(lia) Hpn Hnn)
    as (Ha' & P1 & P2 & P3 & P4 & Hfr).
  set (s' := link_at s (g_off gnew) i (g_off gp) (g_off gn)) in *.
  assert (Hh' : head s' = head s) by reflexivity.
  assert (Ht' : tail s' = tail s) by reflexivity.
  split.
  - exact (lk_storage _ _ _ _ _ HL).
  - exact Ha'.
  - exact Hnd.
  - intros g Hg. destruct (lk_keys _ _ _ _ _ HL g Hg) as (Hr & Hk & Hpf).
    assert (HgN : g ∈ N) by (right; right; exact Hg).
    split; [exact Hr|]. split.
    + rewrite Hfr; [exact Hk|exact HgN|exact I| | | |]; intros [_ ?]; discriminate.
    + rewrite Hfr; [exact Hpf|exact HgN|exact I| | | |]; intros [_ ?]; discriminate.
  - intros j Hj. destruct (Z.eq_dec j i) as [->|Hne].
    + rewrite Hh', Ht'.
      pose proof (lk_todo _ _ _ _ _ HL i ltac:(lia)) as Hch.
      rewrite lvl_app, map_app in Hch.
      rewrite lvl_app. unfold lvl at 2. rewrite filter_cons.
      destruct (decide (i < g_ht gnew)) as [_|?]; [|lia].
      fold (lvl i R). rewrite map_app. cbn [map].
      assert (Hnd' : NoDup (head s :: map g_off (lvl i A) ++ map g_off (lvl i R) ++ [tail s])).
      { rewrite app_assoc. eapply NoDup_level.
        - apply NoDup_cons in Hnd as [H1 Hnd]. apply NoDup_cons in Hnd as [H2 Hnd].
          apply NoDup_cons in Hnd as [H3 Hnd].
          apply NoDup_cons. split.
          + intros H. apply H1. apply elem_of_cons in H as [->|H]; [left|right; right; exact H].
          + apply NoDup_cons. split; [|exact Hnd].
            intros H. apply H2. right. exact H.
        - rewrite <- map_app, <- lvl_app. apply lvl_sublist. }
      apply (chain_insert s s' i (g_off gnew) _ _ _ _ Hch Hnd').
      * rewrite <- En. exact P1.
      * rewrite <- Ep. exact P2.
      * rewrite <- Ep. exact P3.
      * rewrite <- En. exact P4.
      * intros x Hx Hne. rewrite <- Ep in Hne.
        assert (Hxg : exists g, g ∈ N /\ g_off g = x /\ i < g_ht g /\ x <> g_off gnew).
        { apply elem_of_cons in Hx as [->|Hx].
          - exists (sentinel (head s)). cbn. auto.
          - rewrite <- map_app, <- lvl_app in Hx.
            apply lvl_node in Hx as (g & Hg & <- & Hlt). exists g. auto. }
        destruct Hxg as (g & Hg & <- & Hlt & Hxn).
        apply Hfr; auto; [cbn; lia| | | |]; intros [? ?]; congruence.
      * intros x Hx Hne. rewrite <- En in Hne.
        assert (Hxg : exists g, g ∈ N /\ g_off g = x /\ i < g_ht g /\ x <> g_off gnew).
        { rewrite app_assoc in Hx. apply elem_of_app in Hx as [Hx|Hx].
          - rewrite <- map_app, <- lvl_app in Hx.
            apply lvl_node in Hx as (g & Hg & <- & Hlt). exists g. auto.
          - apply list_elem_of_singleton in Hx. subst x.
            exists (sentinel (tail s)). cbn. auto. }
        destruct Hxg as (g & Hg & <- & Hlt & Hxn).
        apply Hfr; auto; [cbn; lia| | | |]; intros [? ?]; congruence.
    + apply (chain_frame s s' N j (A ++ gnew :: R)); auto; [lia| |].
      * intros g f Hg Hf [->| ->]; apply Hfr; auto; intros [_ ?]; congruence.
      * apply (lk_done _ _ _ _ _ HL). lia.
  - intros j Hj.
    apply (chain_frame s s' N j (A ++ R)); auto; [lia| |].
    + intros g f Hg Hf [->| ->]; apply Hfr; auto;
        intros [_ E]; first [discriminate E | injection E; lia].
    + apply (lk_todo _ _ _ _ _ HL). lia.
Qed.

Lemma Linking_run_step s A R gnew i w {B} (K : unit -> M B) :
  skl w = s -> Linking s A R gnew i -> 0 <= i < g_ht gnew ->
  (setNext (g_off gnew) i (hd (tail s) (map g_off (lvl i R))) ≫= fun _ =>
   setPrev (g_off gnew) i (endp (head s) (map g_off (lvl i A))) ≫= fun _ =>
   setNext (endp (head s) (map g_off (lvl i A))) i (g_off gnew) ≫= fun _ =>
   setPrev (hd (tail s) (map g_off (lvl i R))) i (g_off gnew) ≫= K) w =
  K tt (with_skl w
          (link_at s (g_off gnew) i
             (endp (head s) (map g_off (lvl i A)))
             (hd (tail s) (map g_off (lvl i R))))).
Proof.
  intros <- HL Hi.
  set (N := sentinel (head (skl w)) :: sentinel (tail (skl w)) :: gnew :: A ++ R).
  pose proof (lk_arena _ _ _ _ _ HL) as Ha. fold N in Ha.
  assert (Hnew : gnew ∈ N) by (right; right; left).
  assert (HG : forall g, g ∈ A ++ R -> g ∈ N) by (intros g Hg; right; right; right; exact Hg).
  assert (Hi20 : i < maxHeight).
  { destruct (ar_in _ _ Ha gnew Hnew) as (_ & ? & _). lia. }
  assert (Hp : exists gp, gp ∈ N /\ g_off gp = endp (head (skl w)) (map g_off (lvl i A)) /\
                          i < g_ht gp).
  { destruct (endp_lvl_node (head (skl w)) i A) as [E|(g & Hg & E & Hlt)].
    - exists (sentinel (head (skl w))). rewrite E. cbn. repeat split; auto. left.
    - exists g. repeat split; auto. apply HG. apply elem_of_app; auto. }
  assert (Hn : exists gn, gn ∈ N /\ g_off gn = hd (tail (skl w)) (map g_off (lvl i R)) /\
                          i < g_ht gn).
  { destruct (hd_lvl_node (tail (skl w)) i R) as [E|(g & Hg & E & Hlt)].
    - exists (sentinel (tail (skl w))). rewrite E. cbn. repeat split; auto. right; left.
    - exists g. repeat split; auto. apply HG. apply elem_of_app; auto. }
  destruct Hp as (gp & Hgp & Ep & Hip).
  destruct Hn as (gn & Hgn & En & Hin).
  rewrite <- Ep, <- En.
  apply (link_at_run N gnew gp gn i w K Ha Hnew Hgp Hgn); lia.
Qed.

Lemma splices_head_tail s s' A R i n :
  head s' = head s -> tail s' = tail s ->
  splices s' A R i n = splices s A R i n.
Proof. intros Hh Ht. unfold splices, splice_at. rewrite Hh, Ht. reflexivity. Qed.

(** The loop that links the new node, from level [i] up. *)
Lemma spliceNode_spec A R gnew k :
  forall i w,
  Linking (skl w) A R gnew (Z.of_nat i) ->
  Z.of_nat (i + k) <= g_ht gnew ->
  exists s',
    spliceNode (g_off gnew) (Z.of_nat i) (splices (skl w) A R i k) w =
      (Ok tt, with_skl w s') /\
    Linking s' A R gnew (Z.of_nat (i + k)) /\
    head s' = head (skl w) /\ tail s' = tail (skl w) /\
    height s' = height (skl w) /\
    len (nodes s') = len (nodes (skl w)).
Proof.
  induction k as [|k IH]; intros i w HL Hk.
  - exists (skl w). cbn [splices seq map spliceNode]. unfold splices. cbn [seq map spliceNode].
    rewrite with_skl_id, Nat.add_0_r. split; [reflexivity|]. split; [exact HL|]. auto.
  - unfold splices. cbn [seq map spliceNode]. fold (splices (skl w) A R (S i) k).
    unfold splice_at at 1.
    rewrite (Linking_run_step (skl w) A R gnew (Z.of_nat i) w _ eq_refl HL) by lia.
    pose proof (Linking_step _ _ _ _ _ HL ltac:(lia)) as HL'.
    set (s1 := link_at (skl w) (g_off gnew) (Z.of_nat i)
                 (endp (head (skl w)) (map g_off (lvl (Z.of_nat i) A)))
                 (hd (tail (skl w)) (map g_off (lvl (Z.of_nat i) R)))) in *.
    replace (Z.of_nat i + 1) with (Z.of_nat (S i)) in * by lia.
    destruct (IH (S i) (with_skl w s1) HL' ltac:(lia)) as (s' & Hrun & HL'' & Hh & Ht & Hht & Hlen).
    cbn [skl with_skl] in *.
    rewrite (splices_head_tail (skl w) s1) in Hrun by reflexivity.
    exists s'. rewrite Hrun.
    replace (i + S k)%nat with (S i + k)%nat by lia.
    split; [reflexivity|]. split; [exact HL''|]. auto.
Qed.

(** *** Raising the height *)

Definition set_height (s : Skiplist) (v : Z) : Skiplist :=
  mkSkiplist (storage s) (nodes s) (head s) (tail s) v.

Lemma Inv_raise s G v :
  Inv s G -> height s <= v <= maxHeight -> Inv (set_height s v) G.
Proof.
  intros [H1 H2 H3 H4 H5 H6 H7 H8] Hv. split; cbn [set_height storage head tail height]; auto.
  - destruct H2 as [Hs HL Hin Hsep]. split; auto.
  - lia.
  - intros g Hg. specialize (H5 g Hg). lia.
  - intros j Hj. eapply chain_ext; [| |apply H6; exact Hj]; reflexivity.
Qed.

(** *** From the allocation of the node to the first link *)

Definition with_node (s : Skiplist) (h k pfx : Z) : Skiplist :=
  poke (poke (grow s (nodeSize h)) (len (nodes s)) FKey k)
    (len (nodes s)) FPrefix pfx.

Lemma with_node_arena s N h k pfx :
  arena_ok s N -> 1 <= h <= maxHeight ->
  len (nodes s) + nodeSize h < 2 ^ 32 ->
  arena_ok (with_node s h k pfx) (mkG (len (nodes s)) h k :: N).
Proof.
  intros Ha Hh Hfit. unfold with_node.
  apply arena_ok_poke, arena_ok_poke, arena_ok_grow; auto.
Qed.

Lemma with_node_old s N h k pfx g f :
  arena_ok s N -> 1 <= h <= maxHeight ->
  len (nodes s) + nodeSize h < 2 ^ 32 ->
  g ∈ N -> fvalid g f ->
  peek (with_node s h k pfx) (g_off g) f = peek s (g_off g) f.
Proof.
  intros Ha Hh Hfit Hg Hf. unfold with_node.
  pose proof (arena_ok_grow _ _ h k Ha Hh Hfit) as Ha1.
  set (gnew := mkG (len (nodes s)) h k) in *.
  pose proof (arena_ok_poke _ _ (len (nodes s)) FKey k Ha1) as Ha2.
  assert (Hne : g_off gnew <> g_off g).
  { destruct (ar_in _ _ Ha g Hg) as (H0 & Hgh & He). unfold node_end in He.
    cbn [gnew g_off]. layout. lia. }
  etransitivity;
    [apply (peek_poke_ne _ (gnew :: N) gnew g FPrefix f pfx Ha2);
     [left|right; exact Hg|exact I|exact Hf|left; exact Hne]|].
  etransitivity;
    [apply (peek_poke_ne _ (gnew :: N) gnew g FKey f k Ha1);
     [left|right; exact Hg|exact I|exact Hf|left; exact Hne]|].
  apply (peek_grow s N); auto.
Qed.

Lemma with_node_new s N h k pfx :
  arena_ok s N -> 1 <= h <= maxHeight ->
  len (nodes s) + nodeSize h < 2 ^ 32 ->
  0 <= k < 2 ^ 32 -> 0 <= pfx < 2 ^ 64 ->
  peek (with_node s h k pfx) (len (nodes s)) FKey = Some k /\
  peek (with_node s h k pfx) (len (nodes s)) FPrefix = Some pfx.
Proof.
  intros Ha Hh Hfit Hk Hp. unfold with_node.
  pose proof (arena_ok_grow _ _ h k Ha Hh Hfit) as Ha1.
  set (gnew := mkG (len (nodes s)) h k) in *.
  pose proof (arena_ok_poke _ _ (len (nodes s)) FKey k Ha1) as Ha2.
  split.
  - etransitivity;
      [apply (peek_poke_ne _ (gnew :: N) gnew gnew FPrefix FKey pfx Ha2);
       [left|left|exact I|exact I|right; discriminate]|].
    apply (peek_poke_eq32 _ (gnew :: N) gnew FKey k Ha1);
      [left|exact I|discriminate|exact Hk].
  - etransitivity;
      [apply (peek_poke_eq _ (gnew :: N) gnew FPrefix pfx Ha2); [left|exact I]|].
    f_equal. cbn [fsize]. apply Z.mod_small.
    change (256 ^ Z.of_nat 8) with (2 ^ 64). lia.
Qed.

Lemma Linking_init s A R h k :
  Inv s (A ++ R) -> 1 <= h <= maxHeight ->
  len (nodes s) + nodeSize h < 2 ^ 32 ->
  0 <= k < 2 ^ 32 ->
  Linking (with_node s h k (Prefix st (Get st k))) A R (mkG (len (nodes s)) h k) 0.
Proof.
  intros HI Hh Hfit Hk.
  set (gnew := mkG (len (nodes s)) h k).
  set (N0 := sentinel (head s) :: sentinel (tail s) :: A ++ R).
  pose proof (inv_arena _ _ HI) as Ha0. fold N0 in Ha0.
  pose proof (with_node_arena s N0 h k (Prefix st (Get st k)) Ha0 Hh Hfit) as Ha.
  fold gnew in Ha.
  destruct (with_node_new s N0 h k (Prefix st (Get st k)) Ha0 Hh Hfit Hk
              (Prefix_range _ _ HC _)) as [Pk Pp].
  split.
  - exact (inv_storage _ _ HI).
  - eapply arena_ok_weaken; [exact Ha|].
    intros g Hg. change (head (with_node _ _ _ _)) with (head s) in Hg.
    change (tail (with_node _ _ _ _)) with (tail s) in Hg.
    apply elem_of_cons in Hg as [->|Hg]; [right; left|].
    apply elem_of_cons in Hg as [->|Hg]; [right; right; left|].
    apply elem_of_cons in Hg as [->|Hg]; [left|].
    right; right; right. exact Hg.
  - change (head (with_node _ _ _ _)) with (head s).
    change (tail (with_node _ _ _ _)) with (tail s).
    pose proof (inv_nodup _ _ HI) as Hnd.
    apply NoDup_cons in Hnd as [H1 Hnd]. apply NoDup_cons in Hnd as [H2 Hnd].
    pose proof (Inv_head_in _ _ HI) as Hhd. pose proof (Inv_tail_in _ _ HI) as Htl.
    assert (Hfresh : forall x, x ∈ map g_off (A ++ R) -> x <> g_off gnew).
    { intros x Hx. apply list_elem_of_fmap in Hx as (g & -> & Hg).
      destruct (Inv_node _ _ _ HI Hg) as (Hb & _). cbn [gnew g_off]. lia. }
    apply NoDup_cons. split.
    { intros Hin. apply elem_of_cons in Hin as [E|Hin]; [apply H1; rewrite E; left|].
      apply elem_of_cons in Hin as [E|Hin]; [cbn [gnew g_off] in E; lia|].
      apply H1. right. exact Hin. }
    apply NoDup_cons. split.
    { intros Hin. apply elem_of_cons in Hin as [E|Hin]; [cbn [gnew g_off] in E; lia|].
      apply H2. exact Hin. }
    apply NoDup_cons. split; [|exact Hnd].
    intros Hin. apply (Hfresh _ Hin). reflexivity.
  - intros g Hg. apply elem_of_cons in Hg as [->|Hg].
    + cbn [gnew g_key g_off]. unfold gk. cbn [g_key]. auto.
    + destruct (inv_keys _ _ HI g Hg) as (Hr & Pk' & Pp').
      split; [exact Hr|].
      rewrite !(with_node_old s N0); auto; try exact I; right; right; exact Hg.
  - intros j Hj. lia.
  - intros j Hj.
    apply (chain_frame s (with_node s h k (Prefix st (Get st k))) N0 j (A ++ R));
      auto; try lia; try reflexivity.
    + left.
    + right; left.
    + intros g Hg. right; right. exact Hg.
    + intros g f Hg Hf _. apply (with_node_old s N0); auto.
    + apply (inv_chain _ _ HI). lia.
Qed.

Lemma lvl_skip j G1 g G2 :
  g_ht g <= j -> lvl j (G1 ++ g :: G2) = lvl j (G1 ++ G2).
Proof.
  intros H. rewrite !lvl_app. f_equal. unfold lvl. rewrite filter_cons.
  destruct (decide (j < g_ht g)); [lia|reflexivity].
Qed.

Lemma Linking_done s A R gnew :
  Linking s A R gnew (g_ht gnew) ->
  1 <= height s <= maxHeight -> g_ht gnew <= height s ->
  (forall g, g ∈ A ++ R -> g_ht g <= height s) ->
  StronglySorted (fun g g' => kcmp (gk g) (gk g') = Lt) (A ++ gnew :: R) ->
  Inv s (A ++ gnew :: R).
Proof.
  intros HL Hh Hn Hhts Hso.
  assert (Hmem : forall g, g ∈ A ++ gnew :: R <-> g ∈ gnew :: A ++ R).
  { intros g. rewrite !elem_of_app, !elem_of_cons, !elem_of_app. tauto. }
  split.
  - exact (lk_storage _ _ _ _ _ HL).
  - eapply arena_ok_weaken; [exact (lk_arena _ _ _ _ _ HL)|].
    intros g Hg.
    apply elem_of_cons in Hg as [->|Hg]; [left|].
    apply elem_of_cons in Hg as [->|Hg]; [right; left|].
    right; right. apply Hmem. exact Hg.
  - pose proof (lk_nodup _ _ _ _ _ HL) as Hnd.
    assert (HP : map g_off (A ++ gnew :: R) ≡ₚ g_off gnew :: map g_off (A ++ R)).
    { rewrite !map_app. cbn [map]. symmetry. apply Permutation_middle. }
    rewrite HP. exact Hnd.
  - exact Hh.
  - intros g Hg. apply Hmem in Hg. apply elem_of_cons in Hg as [->|Hg]; auto.
  - intros j Hj. destruct (Z.lt_ge_cases j (g_ht gnew)) as [Hlt|Hge].
    + apply (lk_done _ _ _ _ _ HL). lia.
    + rewrite lvl_skip by lia. apply (lk_todo _ _ _ _ _ HL). lia.
  - intros g Hg. apply (lk_keys _ _ _ _ _ HL). apply Hmem. exact Hg.
  - exact Hso.
Qed.

(** *** The height drawn *)

Definition with_draw (w : world) : world :=
  mkWorld (probabilities w) (skl w) (calls w) (rand_src w) (S (rand_pos w)).

(** The draw [rand.Uint32] returns next. *)
Definition drawn (w : world) : Z := u32 (rand_src w (rand_pos w)).

Definition height_of (tbl : list Z) (rnd : Z) : Z :=
  randomHeight_loop (Z.to_nat maxHeight) tbl rnd 1.

Lemma randomHeight_run w :
  randomHeight w = (Ok (height_of (probabilities w) (drawn w)), with_draw w).
Proof. reflexivity. Qed.

Lemma randomHeight_loop_range n tbl rnd h :
  1 <= h <= maxHeight -> 1 <= randomHeight_loop n tbl rnd h <= maxHeight.
Proof.
  revert h. induction n as [|n IH]; intros h Hh; cbn [randomHeight_loop]; [exact Hh|].
  destruct (Z.ltb_spec h maxHeight) as [Hlt|Hge]; cbn [andb]; [|exact Hh].
  destruct (rnd <=? nth (Z.to_nat h) tbl 0); [|exact Hh].
  apply IH. unfold maxHeight in *. rewrite u32_id by lia. lia.
Qed.

Lemma height_of_range tbl rnd : 1 <= height_of tbl rnd <= maxHeight.
Proof. apply randomHeight_loop_range. unfold maxHeight. lia. Qed.

(** *** Where a key belongs in the sorted nodes *)

Lemma sorted_split a G :
  StronglySorted (fun g g' => kcmp (gk g) (gk g') = Lt) G ->
  exists A R, G = A ++ R /\
    (forall g, g ∈ A -> kcmp (gk g) a = Lt) /\
    (forall g, g ∈ R -> kcmp a (gk g) <> Gt) /\
    ((forall g, g ∈ R -> kcmp a (gk g) = Lt) \/
     (exists x B, R = x :: B /\ kcmp a (gk x) = Eq)).
Proof.
  induction 1 as [|g G Hs IH Hall].
  - exists [], []. repeat split; try (intros g Hg; inversion Hg).
    left. intros g Hg; inversion Hg.
  - rewrite Forall_forall in Hall.
    destruct (kcmp (gk g) a) eqn:E.
    + exists [], (g :: G). split; [reflexivity|]. split; [intros ? Hg; inversion Hg|].
      assert (Hrest : forall g', g' ∈ G -> kcmp a (gk g') = Lt).
      { intros g' Hg'. rewrite <- (kcmp_eq _ _ HC _ _ _ E). apply Hall. exact Hg'. }
      split.
      * intros g' Hg'. apply elem_of_cons in Hg' as [->|Hg'].
        -- rewrite (kcmp_eq_sym _ _ E). discriminate.
        -- rewrite (Hrest _ Hg'). discriminate.
      * right. exists g, G. split; [reflexivity|]. apply kcmp_eq_sym. exact E.
    + destruct IH as (A & R & -> & HA & HR & Hcase).
      exists (g :: A), R. split; [reflexivity|]. split; [|split; [exact HR|exact Hcase]].
      intros g' Hg'. apply elem_of_cons in Hg' as [->|Hg']; auto.
    + exists [], (g :: G). split; [reflexivity|]. split; [intros ? Hg; inversion Hg|].
      apply kcmp_gt_lt in E.
      assert (Hrest : forall g', g' ∈ g :: G -> kcmp a (gk g') = Lt).
      { intros g' Hg'. apply elem_of_cons in Hg' as [->|Hg']; [exact E|].
        apply (kcmp_trans _ _ HC _ _ _ E). apply Hall. exact Hg'. }
      split; [|left; exact Hrest].
      intros g' Hg'. rewrite (Hrest _ Hg'). discriminate.
Qed.

Lemma any_found_false a R n :
  (forall g, g ∈ R -> kcmp a (gk g) = Lt) -> any_found a R n = false.
Proof.
  intros HR. induction n as [|n IH]; [reflexivity|].
  cbn [any_found]. rewrite IH, orb_false_r.
  unfold found_hd. destruct (lvl (Z.of_nat n) R) as [|r L] eqn:E; [reflexivity|].
  assert (Hr : r ∈ lvl (Z.of_nat n) R) by (rewrite E; left).
  apply elem_of_lvl in Hr as [_ Hr]. rewrite (HR r Hr). reflexivity.
Qed.

Lemma any_found_true a x B n :
  kcmp a (gk x) = Eq -> 1 <= g_ht x <= Z.of_nat n -> any_found a (x :: B) n = true.
Proof.
  intros Hx. induction n as [|n IH]; intros Hh; [lia|].
  cbn [any_found]. destruct (Z.lt_ge_cases (Z.of_nat n) (g_ht x)) as [Hlt|Hge].
  - unfold lvl. rewrite filter_cons. destruct (decide (Z.of_nat n < g_ht x)); [|lia].
    cbn [found_hd]. rewrite Hx. reflexivity.
  - rewrite IH by lia. apply orb_true_r.
Qed.

(** *** Insertion *)

(** The skip list once the active height covers [h]. *)
Definition raise (s : Skiplist) (h : Z) : Skiplist :=
  if height s <? h then set_height s h else s.

Lemma raise_run h w {B} (K : unit -> M B) :
  (get_skl ≫= fun s =>
   (if height s <? h then put_height h else mret tt) ≫= K) w =
  K tt (with_skl w (raise (skl w) h)).
Proof.
  unfold raise. munfold. destruct (height (skl w) <? h).
  - reflexivity.
  - rewrite with_skl_id. reflexivity.
Qed.

Lemma Inv_raise' s G h :
  Inv s G -> 1 <= h <= maxHeight ->
  Inv (raise s h) G /\ h <= height (raise s h) /\
  nodes (raise s h) = nodes s /\ head (raise s h) = head s /\
  tail (raise s h) = tail s.
Proof.
  intros HI Hh. unfold raise. destruct (Z.ltb_spec (height s) h).
  - split; [apply Inv_raise; auto; lia|]. cbn. repeat split; lia.
  - split; [exact HI|]. repeat split; lia.
Qed.

Lemma storage_Prefix_run key w :
  storage_Prefix key w =
    (Ok (Prefix (storage (skl w)) key), with_calls w [EvPrefix key]).
Proof. reflexivity. Qed.

Lemma take_splices s A R h n :
  (h <= n)%nat -> take h (splices s A R 0 n ++ []) = splices s A R 0 h.
Proof.
  intros H. rewrite app_nil_r. unfold splices.
  rewrite firstn_map. f_equal. rewrite take_seq. f_equal. lia.
Qed.

(** The node an insertion into [w] allocates. *)
Definition gnew_of (w : world) (off : Z) : gnode :=
  mkG (len (nodes (skl w))) (height_of (probabilities w) (drawn w)) off.

(** What one insertion does to a skip list that satisfies the invariant. *)
Lemma Add_spec w G key off :
  Inv (skl w) G -> Get st off = key -> 0 <= off < 2 ^ 32 ->
  let h := height_of (probabilities w) (drawn w) in
  exists r w',
    Add key off w = (r, w') /\
    probabilities w' = probabilities w /\ rand_src w' = rand_src w /\
    rand_pos w' = S (rand_pos w) /\
    (((exists g, g ∈ G /\ kcmp key (gk g) = Eq) /\
      r = Ok (Some ErrRecordExists) /\
      skl w' = raise (skl w) h /\ Inv (skl w') G)
     \/
     ((forall g, g ∈ G -> kcmp key (gk g) <> Eq) /\
      ((len (nodes (skl w)) + nodeSize h < 2 ^ 32 /\ r = Ok None /\
        head (skl w') = head (skl w) /\ tail (skl w') = tail (skl w) /\
        len (nodes (skl w')) = len (nodes (skl w)) + nodeSize h /\
        exists A R, G = A ++ R /\ Inv (skl w') (A ++ gnew_of w off :: R))
       \/
       (2 ^ 32 <= len (nodes (skl w)) + nodeSize h /\ r = Abort PanicIndex)))).
Proof.
  intros HI Hget Hoff h.
  pose proof (height_of_range (probabilities w) (drawn w)) as Hh. fold h in Hh.
  destruct (Inv_raise' _ _ h HI Hh) as (HI3 & Hhh & Hn3 & Hh3 & Ht3).
  destruct (sorted_split key G (inv_sorted _ _ HI)) as (A & R & -> & HA & HR & Hcase).
  unfold Add.
  rewrite (bind_run _ _ _ _ _ (storage_Prefix_run key w)).
  rewrite (bind_run _ _ _ _ _ (randomHeight_run _)).
  change (drawn (with_calls w [EvPrefix key])) with (drawn w).
  change (probabilities (with_calls w [EvPrefix key])) with (probabilities w).
  fold h. rewrite raise_run.
  change (skl (with_draw (with_calls w [EvPrefix key]))) with (skl w).
  set (w3 := with_skl (with_draw (with_calls w [EvPrefix key])) (raise (skl w) h)).
  assert (Hs3 : skl w3 = raise (skl w) h) by reflexivity.
  unfold mbind at 1, M_bind at 1, get_skl at 1.
  assert (HI3' : Inv (skl w3) (A ++ R)) by (rewrite Hs3; exact HI3).
  pose proof (inv_height _ _ HI3') as Hht.
  destruct (findSplices_spec key A R (Z.to_nat (height (skl w3)))
              ltac:(lia) HA HR [] w3 HI3') as [evs Hfs].
  rewrite lvl_none in Hfs.
  2:{ intros g Hg. rewrite Z2Nat.id by lia. apply (inv_hts _ _ HI3').
      apply elem_of_app; auto. }
  cbn [map endp] in Hfs.
  rewrite (inv_storage _ _ HI), <- Hget in *. fold (gk (mkG 0 0 off)) in *.
  rewrite (bind_run _ _ _ _ _ Hfs).
  destruct Hcase as [Hlt|(x & B & -> & Hx)].
  - (* the key is new *)
    rewrite (any_found_false _ _ _ Hlt).
    assert (Hnew : forall g, g ∈ A ++ R -> kcmp (Get st off) (gk g) <> Eq).
    { intros g Hg. apply elem_of_app in Hg as [Hg|Hg].
      - rewrite (kcmp_lt_gt _ _ (HA g Hg)). discriminate.
      - rewrite (Hlt g Hg). discriminate. }
    set (w4 := with_calls w3 evs).
    assert (Hs4 : skl w4 = raise (skl w) h) by reflexivity.
    assert (Hok4 : slice_ok (nodes (skl w4))).
    { rewrite Hs4. exact (ar_slice _ _ (inv_arena _ _ HI3)). }
    assert (HL4 : len (nodes (skl w4)) < 2 ^ 32).
    { rewrite Hs4. exact (ar_len _ _ (inv_arena _ _ HI3)). }
    assert (Hlen4 : len (nodes (skl w4)) = len (nodes (skl w))).
    { rewrite Hs4, Hn3. reflexivity. }
    destruct (Z.lt_ge_cases (len (nodes (skl w)) + nodeSize h) (2 ^ 32)) as [Hfit|Hover].
    + rewrite (bind_run _ _ _ _ _
                 (newNode_ok h off _ w4 Hok4 HL4 Hh ltac:(rewrite Hlen4; exact Hfit))).
      fold (with_node (skl w4) h off (Prefix st (Get st off))).
      pose proof (Linking_init (skl w4) A R h off ltac:(rewrite Hs4; exact HI3) Hh
                    ltac:(rewrite Hlen4; exact Hfit) Hoff) as HLk.
      set (s5 := with_node (skl w4) h off (Prefix st (Get st off))) in *.
      set (gnew := mkG (len (nodes (skl w4))) h off) in *.
      rewrite take_splices by (rewrite Hs3; lia).
      destruct (spliceNode_spec A R gnew (Z.to_nat h) 0 (with_skl w4 s5) HLk
                  ltac:(cbn [gnew g_ht]; lia))
        as (s' & Hrun & HLk' & Hh' & Ht' & Hht' & Hlen').
      cbn [skl with_skl] in Hrun, Hh', Ht', Hht', Hlen'.
      change (len (nodes (skl w4))) with (g_off gnew).
      change 0 with (Z.of_nat 0) at 1.
      rewrite (splices_head_tail s5 (skl w3)) by reflexivity.
      rewrite (bind_run _ _ _ _ _ Hrun).
      eexists _, _. split; [reflexivity|].
      cbn [probabilities rand_src rand_pos with_skl with_calls with_draw w4 w3 skl].
      repeat (split; [reflexivity|]).
      right. split; [exact Hnew|]. left.
      split; [exact Hfit|]. split; [reflexivity|].
      split; [rewrite Hh'; exact Hh3|].
      split; [rewrite Ht'; exact Ht3|].
      split.
      { rewrite Hlen'. unfold s5, with_node. cbn [poke nodes len grow].
        destruct Hok4 as [Hok4 _]. rewrite Hlen4 in *.
        rewrite (u32_id (len _)) by lia.
        apply u32_id. layout. lia. }
      exists A, R. split; [reflexivity|].
      replace (gnew_of w off) with gnew
        by (unfold gnew, gnew_of; rewrite Hlen4; reflexivity).
      replace (Z.of_nat (0 + Z.to_nat h)) with (g_ht gnew) in HLk'
        by (cbn [gnew g_ht]; lia).
      apply Linking_done; auto.
      * rewrite Hht'. exact (inv_height _ _ HI3).
      * rewrite Hht'. exact Hhh.
      * intros g Hg. rewrite Hht'. apply (inv_hts _ _ HI3 g Hg).
      * pose proof (inv_sorted _ _ HI) as Hso.
        apply StronglySorted_app in Hso as (Hcross & HsA & HsR).
        apply StronglySorted_app. split; [|split; [exact HsA|]].
        -- intros x1 x2 H1 H2. apply elem_of_cons in H2 as [->|H2].
           ++ unfold gk at 2. cbn [gnew g_key]. apply HA. exact H1.
           ++ apply Hcross; auto.
        -- apply StronglySorted_cons. split; [|exact HsR].
           apply Forall_forall. intros g Hg. unfold gk at 1. cbn [gnew g_key].
           apply Hlt. exact Hg.
    + rewrite (bind_abort _ _ _ _ _
                 (newNode_overflow h off _ w4 Hok4 HL4 Hh ltac:(rewrite Hlen4; exact Hover))).
      eexists _, _. split; [reflexivity|].
      cbn [probabilities rand_src rand_pos with_skl with_calls with_draw w4 w3 skl].
      repeat (split; [reflexivity|]).
      right. split; [exact Hnew|]. right. split; [exact Hover|reflexivity].
  - (* the key is there *)
    assert (Hxin : x ∈ A ++ x :: B) by (apply elem_of_app; right; left).
    rewrite any_found_true; [|exact Hx|].
    2:{ destruct (Inv_node _ _ _ HI3' Hxin) as (_ & Hxh & _).
        pose proof (inv_hts _ _ HI3' x Hxin). lia. }
    eexists _, _. split; [reflexivity|].
    cbn [probabilities rand_src rand_pos with_skl with_calls with_draw w3 skl].
    repeat (split; [reflexivity|]).
    left. split; [exists x; auto|]. split; [reflexivity|]. split; [reflexivity|].
    exact HI3.
Qed.

(** *** The empty list *)

Lemma link_levels_spec (N : list gnode) ghd gtl n :
  forall i w,
  arena_ok (skl w) N -> ghd ∈ N -> gtl ∈ N ->
  g_off ghd = head (skl w) -> g_off gtl = tail (skl w) ->
  g_ht ghd = maxHeight -> g_ht gtl = maxHeight ->
  0 <= i -> i + Z.of_nat n = maxHeight ->
  (forall j, 0 <= j < i ->
     peek (skl w) (head (skl w)) (FNext j) = Some (tail (skl w)) /\
     peek (skl w) (tail (skl w)) (FPrev j) = Some (head (skl w))) ->
  exists s',
    link_levels n i w = (Ok tt, with_skl w s') /\
    arena_ok s' N /\
    storage s' = storage (skl w) /\ head s' = head (skl w) /\
    tail s' = tail (skl w) /\ height s' = height (skl w) /\
    len (nodes s') = len (nodes (skl w)) /\
    cap (nodes s') = cap (nodes (skl w)) /\
    forall j, 0 <= j < maxHeight ->
      peek s' (head s') (FNext j) = Some (tail s') /\
      peek s' (tail s') (FPrev j) = Some (head s').
Proof.
  induction n as [|n IH]; intros i w Ha Hhd Htl Eh Et Hh Ht Hi Hn Hdone.
  - exists (skl w). cbn [link_levels]. rewrite with_skl_id.
    split; [reflexivity|]. split; [exact Ha|]. repeat split; auto; apply Hdone; lia.
  - cbn [link_levels].
    unfold mbind at 1, M_bind at 1, get_skl at 1. rewrite <- Eh, <- Et.
    rewrite (bind_run _ _ _ _ _ (setNext_ok N ghd i _ w Ha Hhd ltac:(lia))).
    unfold mbind at 1, M_bind at 1, get_skl at 1.
    set (s1 := poke (skl w) (g_off ghd) (FNext i) (g_off gtl)).
    cbn [skl with_skl]. change (head s1) with (head (skl w)).
    change (tail s1) with (tail (skl w)). rewrite <- Eh, <- Et.
    assert (Ha1 : arena_ok s1 N) by (apply arena_ok_poke; exact Ha).
    rewrite (bind_run _ _ _ _ _
               (setPrev_ok N gtl i _ (with_skl w s1) Ha1 Htl ltac:(lia))).
    cbn [skl with_skl].
    set (s2 := poke s1 (g_off gtl) (FPrev i) (g_off ghd)).
    assert (Ha2 : arena_ok s2 N) by (apply arena_ok_poke; exact Ha1).
    pose proof (arena_off_range _ _ _ Ha Hhd) as Rh.
    pose proof (arena_off_range _ _ _ Ha Htl) as Rt.
    assert (Hi20 : i < maxHeight) by lia.
    rewrite (u32_id (i + 1)) by (unfold maxHeight in *; lia).
    destruct (IH (i + 1) (with_skl w s2)) as (s' & Hrun & Ha' & E1 & E2 & E3 & E4 & E5 & E6 & Hall);
      cbn [skl with_skl]; auto; try lia.
    + intros j Hj. change (head s2) with (head (skl w)).
      change (tail s2) with (tail (skl w)). rewrite <- Eh, <- Et.
      destruct (Z.eq_dec j i) as [->|Hne].
      * split.
        -- unfold s2. etransitivity;
             [apply (peek_poke_ne s1 N gtl ghd (FPrev i) (FNext i) _ Ha1 Htl Hhd);
              [cbn; lia|cbn; lia|right; discriminate]|].
           apply (peek_poke_eq32 _ N ghd (FNext i) _ Ha Hhd); [cbn; lia|discriminate|lia].
        -- apply (peek_poke_eq32 _ N gtl (FPrev i) _ Ha1 Htl); [cbn; lia|discriminate|lia].
      * destruct (Hdone j ltac:(lia)) as [D1 D2]. rewrite <- Eh, <- Et in D1, D2.
        split.
        -- unfold s2. etransitivity;
             [apply (peek_poke_ne s1 N gtl ghd (FPrev i) (FNext j) _ Ha1 Htl Hhd);
              [cbn; lia|cbn; lia|right; discriminate]|].
           unfold s1. etransitivity;
             [apply (peek_poke_ne (skl w) N ghd ghd (FNext i) (FNext j) _ Ha Hhd Hhd);
              [cbn; lia|cbn; lia|right; congruence]|].
           exact D1.
        -- unfold s2. etransitivity;
             [apply (peek_poke_ne s1 N gtl gtl (FPrev i) (FPrev j) _ Ha1 Htl Htl);
              [cbn; lia|cbn; lia|right; congruence]|].
           unfold s1. etransitivity;
             [apply (peek_poke_ne (skl w) N ghd gtl (FNext i) (FPrev j) _ Ha Hhd Htl);
              [cbn; lia|cbn; lia|right; discriminate]|].
           exact D2.
    + exists s'. change (with_skl (with_skl w s1) s2) with (with_skl w s2).
      split; [exact Hrun|]. split; [exact Ha'|].
      split; [exact E1|]. split; [rewrite Eh; exact E2|].
      split; [rewrite Et; exact E3|]. split; [exact E4|]. split; [exact E5|].
      split; [|exact Hall].
      rewrite E6. unfold s2, s1, poke, cap. cbn [nodes arr skl with_skl].
      rewrite !length_store_le. reflexivity.
Qed.

Lemma arena_ok_nodes s s' (N : list gnode) :
  nodes s' = nodes s -> arena_ok s N -> arena_ok s' N.
Proof. intros E [H1 H2 H3 H4]. split; rewrite ?E; auto. Qed.

(** The capacity [NewSkiplist] gives the arena to start with. *)
Definition initCap (initBufSize : Z) : Z :=
  if initBufSize <? 256 then 256 else initBufSize.

(** The skip list [NewSkiplist] starts from: no node yet. *)
Definition struct0 (initBufSize : Z) : Skiplist :=
  mkSkiplist st (mkSlice (replicate (Z.to_nat (initCap initBufSize)) 0) 0) 0 0 1.

Lemma NewSkiplist_struct_run n w :
  n <= maxAlloc ->
  NewSkiplist_struct st n w = (Ok tt, with_skl w (struct0 n)).
Proof.
  intros Hn. unfold NewSkiplist_struct, make_bytes, struct0, initCap. munfold.
  unfold maxAlloc in *. destruct (Z.ltb_spec n 256); zbool; reflexivity.
Qed.

(** A hint above the limit of the allocator: [make] panics and no list is
    made. *)
Lemma NewSkiplist_struct_panic n w :
  maxAlloc < n ->
  NewSkiplist_struct st n w = (Abort PanicMake, w) /\
  NewSkiplist st n w = (Abort PanicMake, w).
Proof.
  intros Hn.
  assert (E : NewSkiplist_struct st n w = (Abort PanicMake, w)).
  { unfold NewSkiplist_struct, make_bytes. munfold. unfold maxAlloc in *.
    destruct (Z.ltb_spec n 256); [lia|]. zbool. reflexivity. }
  split; [exact E|]. unfold NewSkiplist. rewrite (bind_abort _ _ _ _ _ E).
  reflexivity.
Qed.

Lemma NewSkiplist_returns n w w1 :
  NewSkiplist st n w = (Ok tt, w1) -> n <= maxAlloc.
Proof.
  intros H. destruct (Z.le_gt_cases n maxAlloc) as [Hle|Hgt]; [exact Hle|].
  rewrite (proj2 (NewSkiplist_struct_panic n w Hgt)) in H. discriminate.
Qed.

Lemma struct0_cap n : cap (nodes (struct0 n)) = Z.max n 256.
Proof.
  unfold struct0, cap, initCap. cbn [nodes arr]. rewrite length_replicate.
  destruct (Z.ltb_spec n 256); lia.
Qed.

Lemma put_head_run v w :
  put_head v w =
    (Ok tt, with_skl w (mkSkiplist (storage (skl w)) (nodes (skl w)) v
                          (tail (skl w)) (height (skl w)))).
Proof. reflexivity. Qed.

Lemma put_tail_run v w :
  put_tail v w =
    (Ok tt, with_skl w (mkSkiplist (storage (skl w)) (nodes (skl w))
                          (head (skl w)) v (height (skl w)))).
Proof. reflexivity. Qed.

Lemma NewSkiplist_spec n w :
  n <= maxAlloc ->
  exists s',
    NewSkiplist st n w = (Ok tt, with_skl w s') /\
    Inv s' [] /\
    head s' = 0 /\ tail s' = maxNodeSize /\ height s' = 1 /\
    len (nodes s') = 2 * maxNodeSize /\
    cap (nodes s') =
      (if Z.max n 256 <? 2 * maxNodeSize then 2 * Z.max n 256 else Z.max n 256).
Proof.
  intros Hmax. unfold NewSkiplist.
  rewrite (bind_run _ _ _ _ _ (NewSkiplist_struct_run n w Hmax)).
  set (s0 := struct0 n).
  pose proof (struct0_cap n) as Hcap0. fold s0 in Hcap0.
  assert (Hmh : 1 <= maxHeight <= maxHeight) by (unfold maxHeight; lia).
  assert (Hns : nodeSize maxHeight = maxNodeSize) by reflexivity.
  assert (Ha0 : arena_ok s0 []).
  { split.
    - split; [cbn; lia|]. rewrite Hcap0. cbn. lia.
    - cbn. lia.
    - intros g Hg. inversion Hg.
    - intros g g' Hg. inversion Hg. }
  (* the head *)
  assert (E1 : newNode maxHeight 0 0 (with_skl w s0) =
               (Ok 0, with_skl w (with_node s0 maxHeight 0 0))).
  { rewrite newNode_ok; cbn [skl with_skl]; auto.
    - exact (ar_slice _ _ Ha0).
    - cbn. lia.
    - rewrite Hns. cbn. layout. lia. }
  rewrite (bind_run _ _ _ _ _ E1).
  pose proof (with_node_arena s0 [] maxHeight 0 0 Ha0 Hmh
                ltac:(rewrite Hns; cbn; layout; lia)) as Ha1.
  change (len (nodes s0)) with 0 in Ha1.
  set (s1 := with_node s0 maxHeight 0 0) in *.
  assert (Hlen1 : len (nodes s1) = maxNodeSize) by reflexivity.
  rewrite (bind_run _ _ _ _ _ (put_head_run 0 _)). cbn [skl with_skl].
  set (s1' := mkSkiplist (storage s1) (nodes s1) 0 (tail s1) (height s1)).
  assert (Ha1' : arena_ok s1' [mkG 0 maxHeight 0])
    by (apply (arena_ok_nodes s1); [reflexivity|exact Ha1]).
  (* the tail *)
  assert (E2 : newNode maxHeight 0 0 (with_skl w s1') =
               (Ok maxNodeSize, with_skl w (with_node s1' maxHeight 0 0))).
  { rewrite newNode_ok; cbn [skl with_skl]; auto.
    - exact (ar_slice _ _ Ha1').
    - exact (ar_len _ _ Ha1').
    - change (len (nodes s1')) with maxNodeSize. rewrite Hns. cbn. layout. lia. }
  change (with_skl (with_skl w s0) s1') with (with_skl w s1').
  rewrite (bind_run _ _ _ _ _ E2).
  pose proof (with_node_arena s1' _ maxHeight 0 0 Ha1' Hmh
                ltac:(change (len (nodes s1')) with maxNodeSize; rewrite Hns; cbn; layout; lia)) as Ha2.
  change (len (nodes s1')) with maxNodeSize in Ha2.
  set (s2 := with_node s1' maxHeight 0 0) in *.
  rewrite (bind_run _ _ _ _ _ (put_tail_run maxNodeSize _)). cbn [skl with_skl].
  set (s2' := mkSkiplist (storage s2) (nodes s2) (head s2) maxNodeSize (height s2)).
  set (N := [mkG maxNodeSize maxHeight 0; mkG 0 maxHeight 0]) in *.
  assert (Ha2' : arena_ok s2' N)
    by (apply (arena_ok_nodes s2); [reflexivity|exact Ha2]).
  destruct (link_levels_spec N (mkG 0 maxHeight 0) (mkG maxNodeSize maxHeight 0)
              (Z.to_nat maxHeight) 0 (with_skl w s2'))
    as (s' & Hrun & Ha' & F1 & F2 & F3 & F4 & F5 & F6 & Hall);
    cbn [skl with_skl]; auto; try reflexivity; try lia.
  { right; left. }
  { left. }
  cbn [skl with_skl] in *.
  change (with_skl (with_skl w s1') s2') with (with_skl w s2').
  exists s'. split; [exact Hrun|].
  change (head s2') with 0 in F2. change (tail s2') with maxNodeSize in F3.
  change (height s2') with 1 in F4. change (storage s2') with st in F1.
  split; [|split; [exact F2|split; [exact F3|split; [exact F4|split]]]].
  - split.
    + exact F1.
    + rewrite F2, F3. eapply arena_ok_weaken; [exact Ha'|].
      intros g Hg. apply elem_of_cons in Hg as [->|Hg]; [right; left|].
      apply elem_of_cons in Hg as [->|Hg]; [left|inversion Hg].
    + rewrite F2, F3. cbn [map]. apply NoDup_cons. split.
      * intros H. apply list_elem_of_singleton in H. discriminate.
      * apply NoDup_singleton.
    + rewrite F4. unfold maxHeight. lia.
    + intros g Hg. inversion Hg.
    + intros j Hj. cbn [lvl map chain]. apply Hall. exact Hj.
    + intros g Hg. inversion Hg.
    + constructor.
  - rewrite F5. reflexivity.
  - rewrite F6. unfold s2', s2, with_node, poke, cap. cbn [nodes arr].
    rewrite !length_store_le. unfold grow. cbn [nodes arr].
    change (u32 (u32 (len (nodes s1')) + nodeSize maxHeight)) with (2 * maxNodeSize).
    rewrite (alloc_arr_length (nodes s1')) by exact (ar_slice _ _ Ha1').
    assert (Hc1 : cap (nodes s1') = Z.max n 256).
    { unfold s1', s1, with_node, poke, cap. cbn [nodes arr].
      rewrite !length_store_le. unfold grow. cbn [nodes arr].
      change (u32 (u32 (len (nodes s0)) + nodeSize maxHeight)) with maxNodeSize.
      rewrite (alloc_arr_length (nodes s0)) by exact (ar_slice _ _ Ha0).
      rewrite Hcap0. change maxNodeSize with 176.
      destruct (Z.ltb_spec (Z.max n 256) 176); lia. }
    rewrite Hc1. change maxNodeSize with 176.
    destruct (Z.ltb_spec (Z.max n 256) (2 * 176)); [|reflexivity].
    rewrite (u32_id (Z.max n 256 * 2)) by lia.
    destruct (Z.ltb_spec (Z.max n 256 * 2) (2 * 176)); lia.
Qed.

(** *** Walking a level *)

Lemma debug_level_chain j l :
  0 <= j < maxHeight ->
  forall a w fuel,
  chain (skl w) j a l (tail (skl w)) ->
  (forall x, x ∈ a :: l -> 0 <= x < len (nodes (skl w)) /\ x <> tail (skl w)) ->
  (length l < fuel)%nat ->
  debug_level fuel j a w = (Ok (a :: l), w).
Proof.
  intros Hj. induction l as [|x l IH]; intros a w fuel Hch Hin Hfuel.
  - destruct fuel as [|fuel]; [simpl in Hfuel; lia|].
    destruct (Hin a ltac:(left)) as [Ha Hat].
    cbn [debug_level]. unfold mbind at 1, M_bind at 1, get_skl at 1. zbool.
    destruct Hch as [Hn _].
    rewrite (bind_run _ _ _ _ _ (getNext_run _ _ _ _ Ha Hj Hn)).
    destruct fuel; cbn [debug_level]; munfold; zbool; reflexivity.
  - destruct fuel as [|fuel]; [simpl in Hfuel; lia|].
    destruct (Hin a ltac:(left)) as [Ha Hat].
    cbn [debug_level]. unfold mbind at 1, M_bind at 1, get_skl at 1. zbool.
    destruct Hch as (Hn & _ & Hch).
    rewrite (bind_run _ _ _ _ _ (getNext_run _ _ _ _ Ha Hj Hn)).
    rewrite (bind_run _ _ _ _ _ (IH x w fuel Hch
               ltac:(intros y Hy; apply Hin; right; exact Hy)
               ltac:(simpl in Hfuel; lia))).
    reflexivity.
Qed.

Lemma lvl_0 s G : Inv s G -> lvl 0 G = G.
Proof.
  intros HI. unfold lvl.
  assert (H : forall g, g ∈ G -> 0 < g_ht g).
  { intros g Hg. destruct (Inv_node _ _ _ HI Hg) as (_ & ? & _). lia. }
  clear HI. induction G as [|g G IH]; [reflexivity|].
  rewrite filter_cons. destruct (decide (0 < g_ht g)) as [_|Hn].
  - f_equal. apply IH. intros g' Hg'. apply H. right. exact Hg'.
  - exfalso. apply Hn. apply H. left.
Qed.

(** The walk of a level visits the head and then the nodes that reach the
    level, in order. *)
Lemma debug_level_Inv w G j :
  Inv (skl w) G -> 0 <= j < maxHeight ->
  debug_level (level_fuel (skl w)) j (head (skl w)) w =
    (Ok (head (skl w) :: map g_off (lvl j G)), w).
Proof.
  intros HI Hj. apply debug_level_chain; auto.
  - apply (inv_chain _ _ HI). exact Hj.
  - intros x Hx. apply elem_of_cons in Hx as [->|Hx].
    + split; [eapply Inv_head_in; eauto|].
      pose proof (inv_nodup _ _ HI) as Hnd. apply NoDup_cons in Hnd as [Hn _].
      intros E. apply Hn. rewrite E. left.
    + apply lvl_node in Hx as (g & Hg & <- & _).
      destruct (Inv_node _ _ _ HI Hg) as (? & _ & _ & ?). auto.
  - unfold level_fuel. pose proof (Inv_length _ _ HI).
    pose proof (length_filter (fun g => j < g_ht g) G). fold (lvl j G) in *.
    rewrite length_map. lia.
Qed.

Lemma getKey_all w G G' :
  Inv (skl w) G -> (forall g, g ∈ G' -> g ∈ G) ->
  mapM getKey (map g_off G') w = (Ok (map g_key G'), w).
Proof.
  intros HI. induction G' as [|g G' IH]; intros Hsub; [reflexivity|].
  cbn [map mapM].
  destruct (Inv_node _ _ _ HI (Hsub g ltac:(left))) as (Hb & _).
  destruct (inv_keys _ _ HI g (Hsub g ltac:(left))) as (_ & Hk & _).
  rewrite (bind_run _ _ _ _ _ (getKey_run _ _ _ Hb Hk)).
  rewrite (bind_run _ _ _ _ _ (IH ltac:(intros g' Hg'; apply Hsub; right; exact Hg'))).
  reflexivity.
Qed.

(** Ascending order, as [Compare] reports it on key offsets. *)
Definition ascending (ks : list Z) : Prop :=
  StronglySorted (fun k1 k2 => Compare st (Get st k1) k2 < 0) ks.

Lemma sorted_keys G :
  StronglySorted (fun g g' => kcmp (gk g) (gk g') = Lt) G ->
  ascending (map g_key G).
Proof.
  unfold ascending. induction 1 as [|g G Hs IH Hall]; cbn [map]; constructor; auto.
  rewrite Forall_forall in Hall. apply Forall_forall. intros k Hk.
  apply list_elem_of_fmap in Hk as (g' & -> & Hg').
  unfold Z.lt. rewrite (Compare_kcmp _ _ HC). apply Hall. exact Hg'.
Qed.

(** *** Sequences of insertions *)

(** The records a caller may insert: the key stored at the offset is the
    key given, and the offset is a [uint32]. *)
Definition valid_op (op : list Byte.byte * Z) : Prop :=
  Get st (snd op) = fst op /\ 0 <= snd op < 2 ^ 32.

(** The key offsets of the insertions that returned no error. *)
Definition inserted (rs : list (option error)) (ops : list (list Byte.byte * Z))
  : list Z :=
  map (fun p => snd (snd p)) (filter (fun p => fst p = None) (zip rs ops)).

(** Every insertion of a sequence that runs to its end keeps the invariant;
    the nodes are those there were and one for each insertion that
    returned no error. *)
Lemma AddAll_Inv ops :
  Forall valid_op ops ->
  forall w G rs w',
  Inv (skl w) G ->
  AddAll ops w = (Ok rs, w') ->
  exists G',
    Inv (skl w') G' /\
    head (skl w') = head (skl w) /\ tail (skl w') = tail (skl w) /\
    probabilities w' = probabilities w /\
    length rs = length ops /\
    map g_key G' ≡ₚ inserted rs ops ++ map g_key G.
Proof.
  induction 1 as [|[key off] ops [Hget Hoff] Hval IH]; intros w G rs w' HI Hrun.
  - cbn [AddAll] in Hrun. injection Hrun as <- <-. exists G.
    split; [exact HI|]. repeat split; auto.
  - cbn [AddAll fst snd] in *.
    apply bind_Ok in Hrun as (r & w1 & Hadd & Hrun).
    apply bind_Ok in Hrun as (rs' & w2 & Hrest & Hrun).
    injection Hrun as <- <-.
    destruct (Add_spec w G key off HI Hget Hoff) as (r0 & w0 & Hadd' & Hp & _ & _ & Hcase).
    rewrite Hadd in Hadd'. injection Hadd' as <- <-.
    destruct Hcase as [(_ & Hr & Hs & HI1)|(_ & [(_ & Hr & Hh & Ht & _ & A & R & -> & HI1)|(_ & Hr)])];
      try discriminate; injection Hr as ->.
    + destruct (IH w1 G rs' w2 HI1 Hrest) as (G' & HI' & Hh' & Ht' & Hp' & Hl & Hperm).
      exists G'. split; [exact HI'|].
      destruct (Inv_raise' _ _ _ HI (height_of_range (probabilities w) (drawn w)))
        as (_ & _ & _ & Hh1 & Ht1).
      rewrite Hs in Hh', Ht'.
      split; [congruence|]. split; [congruence|]. split; [congruence|].
      split; [cbn; lia|].
      unfold inserted. cbn [zip zip_with]. rewrite filter_cons.
      destruct (decide (fst (Some ErrRecordExists, (key, off)) = None)) as [E|_];
        [discriminate|].
      exact Hperm.
    + destruct (IH w1 _ rs' w2 HI1 Hrest) as (G' & HI' & Hh' & Ht' & Hp' & Hl & Hperm).
      exists G'. split; [exact HI'|].
      split; [congruence|]. split; [congruence|]. split; [congruence|].
      split; [cbn; lia|].
      unfold inserted in *. cbn [zip zip_with]. rewrite filter_cons.
      destruct (decide (fst (@None error, (key, off)) = None)) as [_|E];
        [|contradiction].
      rewrite Hperm. cbn [map snd app].
      rewrite !map_app. cbn [map g_key gnew_of].
      rewrite <- !Permutation_middle. reflexivity.
Qed.

(** No two records of the sequence have equal keys. *)
Definition distinct_keys (ops : list (list Byte.byte * Z)) : Prop :=
  ForallOrdPairs (fun a b => kcmp (fst a) (fst b) <> Eq) ops.

Lemma AddAll_distinct ops :
  Forall valid_op ops -> distinct_keys ops ->
  forall w G rs w',
  Inv (skl w) G ->
  (forall op g, op ∈ ops -> g ∈ G -> kcmp (fst op) (gk g) <> Eq) ->
  AddAll ops w = (Ok rs, w') ->
  Forall (fun r => r = None) rs /\
  exists G',
    Inv (skl w') G' /\
    head (skl w') = head (skl w) /\ tail (skl w') = tail (skl w) /\
    map g_key G' ≡ₚ map snd ops ++ map g_key G.
Proof.
  intros Hval Hd. revert Hval.
  induction Hd as [|[key off] ops Hfirst Hd IH]; intros Hval w G rs w' HI Hnew Hrun.
  - cbn [AddAll] in Hrun. injection Hrun as <- <-. split; [constructor|].
    exists G. split; [exact HI|]. repeat split; auto.
  - apply Forall_cons in Hval as [[Hget Hoff] Hval]. cbn [AddAll fst snd] in *.
    apply bind_Ok in Hrun as (r & w1 & Hadd & Hrun).
    apply bind_Ok in Hrun as (rs' & w2 & Hrest & Hrun).
    injection Hrun as <- <-.
    destruct (Add_spec w G key off HI Hget Hoff) as (r0 & w0 & Hadd' & Hp & _ & _ & Hcase).
    rewrite Hadd in Hadd'. injection Hadd' as <- <-.
    destruct Hcase as [((g & Hg & Heq) & _)|(_ & [(_ & Hr & Hh & Ht & _ & A & R & -> & HI1)|(_ & Hr)])];
      try discriminate.
    + exfalso. apply (Hnew (key, off) g); auto. left.
    + injection Hr as ->.
      destruct (IH Hval w1 _ rs' w2 HI1) as (Hall & G' & HI' & Hh' & Ht' & Hperm); auto.
      * intros op g Hop Hg.
        assert (Hg' : g ∈ gnew_of w off :: A ++ R).
        { revert Hg. rewrite !elem_of_app, !elem_of_cons, !elem_of_app. tauto. }
        apply elem_of_cons in Hg' as [->|Hg'].
        -- unfold gk, gnew_of. cbn [g_key]. rewrite Hget.
           rewrite Forall_forall in Hfirst. specialize (Hfirst op Hop).
           cbn [fst] in Hfirst. intros E. apply Hfirst.
           apply kcmp_eq_sym. exact E.
        -- apply Hnew; auto. right. exact Hop.
      * split; [constructor; auto|].
        exists G'. split; [exact HI'|].
        split; [congruence|]. split; [congruence|].
        rewrite Hperm. cbn [map snd app].
        rewrite !map_app. cbn [map g_key gnew_of].
        rewrite <- !Permutation_middle. reflexivity.
Qed.

Lemma nodeSize_le h : 1 <= h <= maxHeight -> 0 < nodeSize h <= maxNodeSize.
Proof. intros H. layout. lia. Qed.

(** A sequence of insertions runs to its end when the arena has room for
    a node of the maximum height for every one of them. *)
Lemma AddAll_total ops :
  Forall valid_op ops ->
  forall w G,
  Inv (skl w) G ->
  len (nodes (skl w)) + maxNodeSize * Z.of_nat (length ops) < 2 ^ 32 ->
  exists rs w', AddAll ops w = (Ok rs, w').
Proof.
  induction 1 as [|[key off] ops [Hget Hoff] Hval IH]; intros w G HI Hroom.
  - eexists _, _. reflexivity.
  - cbn [AddAll fst snd length] in *.
    destruct (Add_spec w G key off HI Hget Hoff) as (r & w1 & Hadd & _ & _ & _ & Hcase).
    pose proof (nodeSize_le _ (height_of_range (probabilities w) (drawn w))) as Hsz.
    assert (Hnext : exists r1 G1, r = Ok r1 /\ Inv (skl w1) G1 /\
                      len (nodes (skl w1)) <= len (nodes (skl w)) + maxNodeSize).
    { destruct Hcase as [(_ & -> & Hs & HI1)|(_ & [(_ & -> & _ & _ & Hl & A & R & _ & HI1)|(Hov & _)])].
      - eexists _, G. split; [reflexivity|]. split; [exact HI1|].
        rewrite Hs.
        destruct (Inv_raise' _ _ _ HI (height_of_range (probabilities w) (drawn w)))
          as (_ & _ & -> & _). unfold maxNodeSize. layout. lia.
      - eexists _, _. split; [reflexivity|]. split; [exact HI1|]. lia.
      - exfalso. clear IH HI. change maxNodeSize with 176 in *. lia. }
    destruct Hnext as (r1 & G1 & -> & HI1 & Hl).
    assert (Hroom1 : len (nodes (skl w1)) + maxNodeSize * Z.of_nat (length ops) < 2 ^ 32)
      by (change maxNodeSize with 176 in *; lia).
    destruct (IH w1 G1 HI1 Hroom1) as (rs & w' & Hrest).
    rewrite (bind_run _ _ _ _ _ Hadd), (bind_run _ _ _ _ _ Hrest).
    eexists _, _. reflexivity.
Qed.

End Contract.


(** ** The splice search, turn by turn *)

(** A read of the skip list [s] that returns [a], whatever the rest of the
    program state is. *)
Definition yields {A} (m : M A) (s : Skiplist) (a : A) : Prop :=
  forall w, skl w = s -> m w = (Ok a, w).

Lemma getNext_yields nd h w v w' :
  getNext nd h w = (Ok v, w') -> yields (getNext nd h) (skl w) v.
Proof.
  intros H. apply getNext_inv in H as (_ & Hn & Hh & Hp).
  intros w0 E. apply getNext_run; rewrite ?E; auto.
Qed.

Lemma getKey_yields nd w v w' :
  getKey nd w = (Ok v, w') -> yields (getKey nd) (skl w) v.
Proof.
  intros H. apply getKey_inv in H as (_ & Hn & Hp).
  intros w0 E. apply getKey_run; rewrite ?E; auto.
Qed.

Lemma getKeyPrefix_yields nd w v w' :
  getKeyPrefix nd w = (Ok v, w') -> yields (getKeyPrefix nd) (skl w) v.
Proof.
  intros H. apply getKeyPrefix_inv in H as (_ & Hn & Hp).
  intros w0 E. apply getKeyPrefix_run; rewrite ?E; auto.
Qed.

(** The walk moves from [prev] on to [next]: [next] is not the tail and
    its prefix is below the target's, or the prefixes are equal and the
    next key is strictly less than the target. *)
Definition advances (s : Skiplist) (key : list Byte.byte) (prefix level prev next : Z)
  : Prop :=
  yields (getNext prev level) s next /\ next <> tail s /\
  exists nextPrefix, yields (getKeyPrefix next) s nextPrefix /\
    (nextPrefix < prefix \/
     (nextPrefix = prefix /\
      exists k, yields (getKey next) s k /\ 0 < Compare (storage s) key k)).

(** The walk stops at [prev] with [next] and [found]: [next] is the tail,
    or its prefix is above the target's, or the prefixes are equal and the
    next key is the target ([found]) or strictly greater. *)
Definition stops (s : Skiplist) (key : list Byte.byte) (prefix level prev next : Z)
    (found : bool) : Prop :=
  yields (getNext prev level) s next /\
  ((next = tail s /\ found = false) \/
   (next <> tail s /\
    exists nextPrefix, yields (getKeyPrefix next) s nextPrefix /\
      ((prefix < nextPrefix /\ found = false) \/
       (nextPrefix = prefix /\
        exists k, yields (getKey next) s k /\
          ((Compare (storage s) key k = 0 /\ found = true) \/
           (Compare (storage s) key k < 0 /\ found = false)))))).

(** The nodes the walk passes, from where it starts to where it stops. *)
Inductive walk (s : Skiplist) (key : list Byte.byte) (prefix level : Z)
  : Z -> Z -> Prop :=
| walk_here a : walk s key prefix level a a
| walk_step a b c :
    advances s key prefix level a b -> walk s key prefix level b c ->
    walk s key prefix level a c.

(** What a turn that returns has done. *)
Lemma body_inv key prefix level prev w t w' :
  findSpliceForLevel_body key prefix level prev w = (Ok t, w') ->
  exists next, getNext prev level w = (Ok next, w) /\
    ((next = tail (skl w) /\ t = Stop next false /\ w' = w) \/
     (next <> tail (skl w) /\
      exists np, getKeyPrefix next w = (Ok np, w) /\
        ((prefix < np /\ t = Stop next false /\ w' = w) \/
         (np < prefix /\ t = Advance next /\ w' = w) \/
         (np = prefix /\
          exists k, getKey next w = (Ok k, w) /\
            t = turn_of_cmp next (Compare (storage (skl w)) key k) /\
            w' = with_calls w [EvCompare key k])))).
Proof.
  unfold findSpliceForLevel_body. intros H.
  apply bind_Ok in H as (next & w1 & Hn & H).
  pose proof (reads_getNext _ _ _ _ _ Hn) as ->.
  exists next. split; [exact Hn|].
  unfold mbind at 1, M_bind at 1, get_skl at 1 in H.
  destruct (Z.eqb_spec next (tail (skl w))) as [E|E].
  - left. injection H as <- <-. auto.
  - right. split; [exact E|].
    apply bind_Ok in H as (np & w1 & Hp & H).
    pose proof (reads_getKeyPrefix _ _ _ _ Hp) as ->.
    exists np. split; [exact Hp|].
    destruct (Z.ltb_spec prefix np) as [Hlt|Hge].
    + left. injection H as <- <-. auto.
    + right. destruct (Z.eqb_spec prefix np) as [Heq|Hne].
      * right. split; [auto|].
        apply bind_Ok in H as (k & w1 & Hk & H).
        pose proof (reads_getKey _ _ _ _ Hk) as ->.
        exists k. split; [exact Hk|].
        unfold storage_Compare in H. munfold. cbn [skl] in H.
        fold (with_calls w [EvCompare key k]) in H. unfold turn_of_cmp.
        destruct (Compare (storage (skl w)) key k =? 0);
          [injection H as <- <-; auto|].
        destruct (Compare (storage (skl w)) key k <? 0);
          injection H as <- <-; auto.
      * left. injection H as <- <-. split; [lia|auto].
Qed.

(** Whatever a turn does, it leaves the program state as it was, or has
    made one call to [Compare], on a node that is not the tail and whose
    prefix is the target's. *)
Lemma body_effect key prefix level prev w r w' :
  findSpliceForLevel_body key prefix level prev w = (r, w') ->
  w' = w \/
  exists next k, w' = with_calls w [EvCompare key k] /\
    next <> tail (skl w) /\
    yields (getKeyPrefix next) (skl w) prefix /\
    yields (getKey next) (skl w) k.
Proof.
  unfold findSpliceForLevel_body. unfold mbind at 1, M_bind at 1.
  destruct (getNext prev level w) as [[next|e] w1] eqn:Hn;
    pose proof (reads_getNext _ _ _ _ _ Hn) as ->; [|intros [= <- <-]; auto].
  unfold mbind at 1, M_bind at 1, get_skl at 1.
  destruct (Z.eqb_spec next (tail (skl w))) as [E|E]; [intros [= <- <-]; auto|].
  unfold mbind at 1, M_bind at 1.
  destruct (getKeyPrefix next w) as [[np|e] w1] eqn:Hp;
    pose proof (reads_getKeyPrefix _ _ _ _ Hp) as ->; [|intros [= <- <-]; auto].
  destruct (Z.ltb_spec prefix np) as [Hlt|Hge]; [intros [= <- <-]; auto|].
  destruct (Z.eqb_spec prefix np) as [Heq|Hne]; [|intros [= <- <-]; auto].
  unfold mbind at 1, M_bind at 1.
  destruct (getKey next w) as [[k|e] w1] eqn:Hk;
    pose proof (reads_getKey _ _ _ _ Hk) as ->; [|intros [= <- <-]; auto].
  intros H. right. exists next, k. subst np.
  split; [|split; [exact E|split;
    [eapply getKeyPrefix_yields; eauto|eapply getKey_yields; eauto]]].
  unfold storage_Compare in H. munfold. cbn [skl] in H.
  fold (with_calls w [EvCompare key k]) in H.
  destruct (Compare (storage (skl w)) key k =? 0); [injection H as <- <-; auto|].
  destruct (Compare (storage (skl w)) key k <? 0); injection H as <- <-; auto.
Qed.


(** ** The small storage keeps the contract *)

Lemma rank_range k : 0 <= Demo.rank k <= 256.
Proof.
  destruct k as [|b k]; cbn [Demo.rank]; [lia|].
  pose proof (Byte.to_N_bounded b). lia.
Qed.

Lemma demo_contract : StorageContract Demo.demo Demo.order.
Proof.
  split; unfold Demo.order; cbn [Demo.demo Get Prefix Compare].
  - intros a. apply Z.compare_refl.
  - intros a b. apply Z.compare_antisym.
  - intros a b c H1 H2. exact (Z.lt_trans _ _ _ H1 H2).
  - intros a b c H. apply Z.compare_eq in H. rewrite H. reflexivity.
  - intros a o. symmetry. apply Z.compare_sub.
  - intros a b H.
    destruct (Z.lt_ge_cases (Demo.rank a) (Demo.rank b)) as [Hlt|Hge]; [exact Hlt|].
    pose proof (Z.div_le_mono _ _ 4 ltac:(lia) Hge). lia.
  - intros a. pose proof (rank_range a).
    split; [apply Z.div_pos; lia|].
    apply Z.div_lt_upper_bound; lia.
Qed.

(** ** What the operations leave alone *)

(** A search leaves everything but the log of calls as it was. *)
Lemma findSpliceForLevel_frame fuel key prefix level start w r w' :
  findSpliceForLevel fuel key prefix level start w = (r, w') ->
  exists evs, w' = with_calls w evs.
Proof.
  revert start w. induction fuel as [|fuel IH]; intros start w H.
  - injection H as <- <-. exists []. rewrite with_calls_nil. reflexivity.
  - cbn [findSpliceForLevel] in H. unfold mbind, M_bind in H.
    destruct (findSpliceForLevel_body key prefix level start w) as [t w1] eqn:Hb.
    apply body_effect in Hb.
    assert (Hw1 : exists e1, w1 = with_calls w e1).
    { destruct Hb as [->|(? & k & -> & _)]; [exists []|eexists; reflexivity].
      rewrite with_calls_nil. reflexivity. }
    destruct Hw1 as [e1 ->].
    destruct t as [[nx fd|nx]|e].
    + injection H as <- <-. eauto.
    + apply IH in H as [e2 ->]. exists (e1 ++ e2). apply with_calls_app.
    + injection H as <- <-. eauto.
Qed.

(** Mutual links at a level, from one node to another. *)
Inductive linked (w : world) (level : Z) : Z -> Z -> Prop :=
| linked_next a b :
    getNext a level w = (Ok b, w) -> getPrev b level w = (Ok a, w) ->
    linked w level a b
| linked_step a b c :
    getNext a level w = (Ok b, w) -> getPrev b level w = (Ok a, w) ->
    linked w level b c -> linked w level a c.

Lemma chain_linked w j l :
  0 <= j < maxHeight ->
  forall a b,
  chain (skl w) j a l b ->
  (forall x, x ∈ a :: l ++ [b] -> 0 <= x < len (nodes (skl w))) ->
  linked w j a b.
Proof.
  intros Hj. induction l as [|x l IH]; intros a b Hch Hin.
  - destruct Hch as [Hn Hp]. apply linked_next.
    + apply getNext_run; auto. apply Hin. left.
    + apply getPrev_run; auto. apply Hin. right; left.
  - destruct Hch as (Hn & Hp & Hch). apply (linked_step _ _ _ x).
    + apply getNext_run; auto. apply Hin. left.
    + apply getPrev_run; auto. apply Hin. right; left.
    + apply IH; auto. intros y Hy. apply Hin. right. exact Hy.
Qed.

Section Operations.

Context (st : Storage) (kcmp : list Byte.byte -> list Byte.byte -> comparison).
Context (HC : StorageContract st kcmp).

(** Head and tail stay linked at every level. *)
Lemma Inv_linked w G j :
  Inv st kcmp (skl w) G -> 0 <= j < maxHeight ->
  linked w j (head (skl w)) (tail (skl w)).
Proof.
  intros HI Hj.
  apply (chain_linked w j (map g_off (lvl j G))); auto.
  - apply (inv_chain _ _ _ _ HI). exact Hj.
  - intros x Hx. apply elem_of_cons in Hx as [->|Hx]; [eapply Inv_head_in; eauto|].
    apply elem_of_app in Hx as [Hx|Hx].
    + apply lvl_node in Hx as (g & Hg & <- & _).
      eapply Inv_node; eauto.
    + apply list_elem_of_singleton in Hx. subst x. eapply Inv_tail_in; eauto.
Qed.

(** The operations a caller may perform: insertions are of valid records. *)
Definition valid_operation (o : operation) : Prop :=
  match o with
  | OpAdd key keyOffset => valid_op st (key, keyOffset)
  | _ => True
  end.

Lemma perform_Inv o w G w' :
  valid_operation o -> Inv st kcmp (skl w) G ->
  perform o w = (Ok tt, w') ->
  exists G', Inv st kcmp (skl w') G' /\
    head (skl w') = head (skl w) /\ tail (skl w') = tail (skl w) /\
    probabilities w' = probabilities w.
Proof.
  intros Hv HI Hrun. destruct o as [key off|key prefix level start|nd h|nd h|nd];
    cbn [perform valid_operation] in *.
  - destruct Hv as [Hget Hoff]. cbn [fst snd] in *.
    apply bind_Ok in Hrun as (r & w1 & Hadd & Hrun). injection Hrun as <-.
    destruct (Add_spec st kcmp HC w G key off HI Hget Hoff)
      as (r0 & w0 & Hadd' & Hp & _ & _ & Hcase).
    rewrite Hadd in Hadd'. injection Hadd' as <- <-.
    destruct Hcase as [(_ & _ & Hs & HI1)|(_ & [(_ & _ & Hh & Ht & _ & A & R & _ & HI1)|(_ & Hr)])];
      try discriminate.
    + exists G. split; [exact HI1|]. rewrite Hs.
      destruct (Inv_raise' st kcmp _ _ _ HI (height_of_range (probabilities w) (drawn w)))
        as (_ & _ & _ & -> & ->). auto.
    + eexists. split; [exact HI1|]. auto.
  - unfold mbind at 1, M_bind at 1, get_skl at 1 in Hrun.
    apply bind_Ok in Hrun as (r & w1 & Hs & Hrun). injection Hrun as <-.
    apply findSpliceForLevel_frame in Hs as [evs ->].
    exists G. cbn [skl with_calls probabilities]. auto.
  - apply bind_Ok in Hrun as (r & w1 & Hs & Hrun). injection Hrun as <-.
    apply reads_getNext in Hs as ->. exists G. auto.
  - apply bind_Ok in Hrun as (r & w1 & Hs & Hrun). injection Hrun as <-.
    apply reads_getPrev in Hs as ->. exists G. auto.
  - apply bind_Ok in Hrun as (r & w1 & Hs & Hrun). injection Hrun as <-.
    apply reads_getKey in Hs as ->. exists G. auto.
Qed.

Lemma performAll_Inv os :
  Forall valid_operation os ->
  forall w G w',
  Inv st kcmp (skl w) G ->
  performAll os w = (Ok tt, w') ->
  exists G', Inv st kcmp (skl w') G' /\
    head (skl w') = head (skl w) /\ tail (skl w') = tail (skl w) /\
    probabilities w' = probabilities w.
Proof.
  induction 1 as [|o os Ho Hos IH]; intros w G w' HI Hrun.
  - injection Hrun as <-. exists G. auto.
  - cbn [performAll] in Hrun.
    apply bind_Ok in Hrun as ([] & w1 & H1 & Hrun).
    destruct (perform_Inv o w G w1 Ho HI H1) as (G1 & HI1 & Hh1 & Ht1 & Hp1).
    destruct (IH w1 G1 w' HI1 Hrun) as (G' & HI' & Hh' & Ht' & Hp').
    exists G'. split; [exact HI'|]. split; [congruence|]. split; congruence.
Qed.

End Operations.

(** * The table of thresholds and the height drawn *)

(** ** What [init] computes *)

(** The thresholds [init] leaves in [probabilities]. *)
Definition thresholds : list Z :=
  [4294967295; 1580030168; 581260615; 213833830; 78665070; 28939261;
   10646159; 3916503; 1440801; 530041; 194991; 71733; 26389; 9708; 3571;
   1313; 483; 177; 65; 24].

(** [math.E], the constant of Go's [math] package, is this number divided
    by [10 ^ 62]. *)
Definition math_E_digits : Z :=
  271828182845904523536028747135266249775724709369995957496696763.

(** [pValue] is the [float64] nearest to the exact constant [1 / math.E]:
    the constant lies within half a unit in the last place of it. *)
Lemma pValue_nearest :
  exists m,
    Prim2SF pValue = S754_finite false m (-54) /\
    Z.pos m < 2 ^ 53 /\
    (2 * Z.pos m - 1) * math_E_digits < 2 ^ 55 * 10 ^ 62
      < (2 * Z.pos m + 1) * math_E_digits.
Proof.
  exists 6627126856707896%positive.
  split; [vm_compute; reflexivity|].
  split; [reflexivity|]. split; reflexivity.
Qed.

(** [float64(math.MaxUint32)] is exact. *)
Lemma float64_MaxUint32 :
  float64_trunc (float64_of_Z MaxUint32) = MaxUint32.
Proof. vm_compute. reflexivity. Qed.

(** [init] overwrites all twenty entries, whatever they held. *)
Lemma init_loop_thresholds tbl :
  length tbl = Z.to_nat maxHeight ->
  init_loop (Z.to_nat maxHeight) 0 1%float tbl = thresholds.
Proof.
  change (Z.to_nat maxHeight) with 20%nat. intros H.
  do 21 (destruct tbl as [|? tbl]; try discriminate H).
  vm_compute. reflexivity.
Qed.

Lemma init_run w :
  length (probabilities w) = Z.to_nat maxHeight ->
  init w = (Ok tt, mkWorld thresholds (skl w) (calls w) (rand_src w) (rand_pos w)).
Proof. intros H. unfold init. rewrite init_loop_thresholds by exact H. reflexivity. Qed.

(** ** The thresholds as real numbers *)

Section Euler.
Local Open Scope R_scope.

(** The partial sum of the series of [e], [1/0! + ... + 1/n!], as a
    fraction: its numerator and its denominator [n!]. *)
Fixpoint esum (n : nat) : Z * Z :=
  match n with
  | O => (1, 1)%Z
  | S n' => let '(p, q) := esum n' in
            (p * Z.of_nat n + 1, q * Z.of_nat n)%Z
  end.

Lemma esum_spec n :
  (0 < fst (esum n))%Z /\ (0 < snd (esum n))%Z /\
  IZR (snd (esum n)) = INR (fact n) /\
  E1 1 n = IZR (fst (esum n)) / IZR (snd (esum n)).
Proof.
  induction n as [|n (Hp & Hq & Hf & He)].
  - cbn. split; [lia|]. split; [lia|]. split; [reflexivity|].
    unfold E1. cbn. field.
  - cbn [esum]. destruct (esum n) as [p q]. cbn [fst snd] in *.
    assert (HnR : 0 < IZR (Z.of_nat (S n))) by (apply IZR_lt; lia).
    assert (HqR : 0 < IZR q) by (apply IZR_lt; exact Hq).
    split; [lia|]. split; [lia|].
    assert (Hf' : IZR (q * Z.of_nat (S n)) = INR (fact (S n))).
    { rewrite fact_simpl, mult_INR, mult_IZR, Hf, <- INR_IZR_INZ. ring. }
    split; [exact Hf'|].
    unfold E1 in *. rewrite tech5, He, pow1, <- Hf'.
    rewrite plus_IZR, !mult_IZR. field. lra.
Qed.

Lemma E1_growing : Un_growing (E1 1).
Proof.
  intros n. unfold E1. rewrite tech5, pow1.
  assert (0 < / INR (fact (S n))) by (apply Rinv_0_lt_compat, INR_fact_lt_0).
  lra.
Qed.

(** The partial sum plus [1/(n! n)], a bound of what the series still
    adds; it decreases with [n]. *)
Definition E1up (n : nat) : R := E1 1 n + / (INR (fact n) * INR n).

Lemma E1up_decr n : (1 <= n)%nat -> E1up (S n) <= E1up n.
Proof.
  intros Hn. unfold E1up, E1. rewrite tech5, pow1.
  rewrite fact_simpl, mult_INR.
  assert (Hf : 0 < INR (fact n)) by apply INR_fact_lt_0.
  assert (Hx : 1 <= INR n) by (change 1 with (INR 1); apply le_INR; exact Hn).
  rewrite S_INR. set (x := INR n) in *. set (f := INR (fact n)) in *.
  assert (E : / (f * x) - (/ ((x + 1) * f) + / ((x + 1) * f * (x + 1)))
              = / (f * x * (x + 1) * (x + 1))).
  { field. lra. }
  assert (0 < / (f * x * (x + 1) * (x + 1))).
  { apply Rinv_0_lt_compat. repeat apply Rmult_lt_0_compat; lra. }
  lra.
Qed.

Lemma E1_le_up N n : (1 <= N)%nat -> E1 1 n <= E1up N.
Proof.
  intros HN.
  assert (Hup : forall m, E1 1 m <= E1up m).
  { intros m. unfold E1up.
    destruct m as [|m].
    - cbn. rewrite Rmult_0_r, Rinv_0. lra.
    - assert (0 < / (INR (fact (S m)) * INR (S m))).
      { apply Rinv_0_lt_compat, Rmult_lt_0_compat;
          [apply INR_fact_lt_0|apply lt_0_INR; lia]. }
      lra. }
  assert (Hmono : forall a b, (a <= b)%nat -> E1 1 a <= E1 1 b).
  { intros a b Hab. induction Hab as [|m Hab IH]; [lra|].
    pose proof (E1_growing m). lra. }
  assert (Hdec : forall k, E1up (N + k) <= E1up N).
  { induction k as [|k IH]; [rewrite Nat.add_0_r; lra|].
    rewrite Nat.add_succ_r.
    pose proof (E1up_decr (N + k) ltac:(lia)). lra. }
  destruct (Nat.le_gt_cases n N) as [Hle|Hgt].
  - pose proof (Hmono n N Hle). pose proof (Hup N). lra.
  - replace n with (N + (n - N))%nat by lia.
    pose proof (Hup (N + (n - N))%nat). pose proof (Hdec (n - N)%nat). lra.
Qed.

Lemma e_lower n : E1 1 n <= exp 1.
Proof. apply growing_ineq; [apply E1_growing|apply E1_cvg]. Qed.

Lemma e_upper N : (1 <= N)%nat -> exp 1 <= E1up N.
Proof.
  intros HN.
  apply Rle_cv_lim with (Un := E1 1) (Vn := fun _ => E1up N).
  - intros n. apply E1_le_up. exact HN.
  - apply E1_cvg.
  - intros eps Heps. exists 0%nat. intros n _.
    unfold Rdist. rewrite Rminus_diag, Rabs_R0. exact Heps.
Qed.

(** [e] between two fractions. *)
Lemma e_between n :
  (1 <= n)%nat ->
  IZR (fst (esum n)) / IZR (snd (esum n)) <= exp 1 <=
  IZR (fst (esum n) * Z.of_nat n + 1) / IZR (snd (esum n) * Z.of_nat n).
Proof.
  intros Hn. destruct (esum_spec n) as (Hp & Hq & Hf & He).
  split; [rewrite <- He; apply e_lower|].
  eapply Rle_trans; [apply (e_upper n Hn)|]. unfold E1up.
  rewrite He, <- Hf, INR_IZR_INZ, plus_IZR, !mult_IZR.
  assert (0 < IZR (snd (esum n))) by (apply IZR_lt; exact Hq).
  assert (0 < IZR (Z.of_nat n)) by (apply IZR_lt; lia).
  apply Req_le. field. lra.
Qed.

Lemma pow_frac (a b : Z) (i : nat) :
  (IZR a / IZR b) ^ i = IZR (a ^ Z.of_nat i) / IZR (b ^ Z.of_nat i).
Proof. unfold Rdiv. rewrite Rpow_mult_distr, pow_inv, !pow_IZR. reflexivity. Qed.

(** The test that [t] is the integer part of [M / e ^ i], with [e] between
    the fractions of [e_between n]: integer arithmetic only. *)
Definition floor_ok (n : nat) (M : Z) (i : nat) (t : Z) : bool :=
  let '(p, q) := esum n in
  let a := (p * Z.of_nat n + 1)%Z in
  let b := (q * Z.of_nat n)%Z in
  let i := Z.of_nat i in
  (0 <=? t)%Z && (t * a ^ i <=? M * b ^ i)%Z && (M * q ^ i <? (t + 1) * p ^ i)%Z.

Lemma floor_ok_spec n M i t :
  (1 <= n)%nat -> (0 <= M)%Z -> floor_ok n M i t = true ->
  Zfloor (IZR M * (/ exp 1) ^ i) = t.
Proof.
  intros Hn HM Hok. unfold floor_ok in Hok.
  destruct (e_between n Hn) as [Hlo Hhi].
  destruct (esum_spec n) as (Hp & Hq & _ & _).
  destruct (esum n) as [p q]. cbn [fst snd] in *.
  apply andb_prop in Hok as [Hok H3]. apply andb_prop in Hok as [H1 H2].
  apply Z.leb_le in H1, H2. apply Z.ltb_lt in H3.
  set (a := (p * Z.of_nat n + 1)%Z) in *. set (b := (q * Z.of_nat n)%Z) in *.
  assert (Ha : (0 < a)%Z) by (unfold a; nia).
  assert (Hb : (0 < b)%Z) by (unfold b; nia).
  pose proof (exp_pos 1) as He.
  assert (HE : 0 < exp 1 ^ i) by (apply pow_lt; exact He).
  assert (Hpos : forall z, (0 < z)%Z -> 0 < IZR (z ^ Z.of_nat i)).
  { intros z Hz. apply IZR_lt. apply Z.pow_pos_nonneg; lia. }
  pose proof (Hpos a Ha) as HA. pose proof (Hpos b Hb) as HB.
  pose proof (Hpos p Hp) as HP. pose proof (Hpos q Hq) as HQ.
  assert (Hlo' : IZR (p ^ Z.of_nat i) <= exp 1 ^ i * IZR (q ^ Z.of_nat i)).
  { assert (H : IZR (p ^ Z.of_nat i) / IZR (q ^ Z.of_nat i) <= exp 1 ^ i).
    { rewrite <- pow_frac. apply pow_incr. split; [|exact Hlo].
      apply Rlt_le, Rdiv_lt_0_compat; apply IZR_lt; assumption. }
    apply (Rmult_le_compat_r (IZR (q ^ Z.of_nat i))) in H; [|lra].
    unfold Rdiv in H. rewrite Rmult_assoc, Rinv_l, Rmult_1_r in H by lra.
    exact H. }
  assert (Hhi' : exp 1 ^ i * IZR (b ^ Z.of_nat i) <= IZR (a ^ Z.of_nat i)).
  { assert (H : exp 1 ^ i <= IZR (a ^ Z.of_nat i) / IZR (b ^ Z.of_nat i)).
    { rewrite <- pow_frac. apply pow_incr. split; [lra|exact Hhi]. }
    apply (Rmult_le_compat_r (IZR (b ^ Z.of_nat i))) in H; [|lra].
    unfold Rdiv in H. rewrite Rmult_assoc, Rinv_l, Rmult_1_r in H by lra.
    exact H. }
  apply IZR_le in H1, H2. apply IZR_lt in H3.
  rewrite !mult_IZR in H2, H3. rewrite plus_IZR in H3.
  set (A := IZR (a ^ Z.of_nat i)) in *. set (B := IZR (b ^ Z.of_nat i)) in *.
  set (P := IZR (p ^ Z.of_nat i)) in *. set (Q := IZR (q ^ Z.of_nat i)) in *.
  set (E := exp 1 ^ i) in *.
  assert (HMR : 0 <= IZR M) by (apply IZR_le; exact HM).
  apply Zfloor_eq. rewrite pow_inv. fold E.
  split.
  - apply (Rmult_le_reg_r E); [exact HE|].
    rewrite Rmult_assoc, Rinv_l, Rmult_1_r by lra.
    apply (Rmult_le_reg_r B); [exact HB|].
    apply Rle_trans with (IZR t * A); [|exact H2].
    rewrite Rmult_assoc. apply Rmult_le_compat_l; [exact H1|exact Hhi'].
  - apply (Rmult_lt_reg_r E); [exact HE|].
    rewrite Rmult_assoc, Rinv_l, Rmult_1_r by lra.
    apply (Rmult_lt_reg_r Q); [exact HQ|].
    apply Rlt_le_trans with ((IZR t + 1) * P); [exact H3|].
    rewrite Rmult_assoc. apply Rmult_le_compat_l; [lra|exact Hlo'].
Qed.

(** Each threshold is the integer part of [MaxUint32 / e ^ i]. *)
Lemma thresholds_floor i :
  (i < 20)%nat ->
  nth i thresholds 0%Z = Zfloor (IZR MaxUint32 * (/ exp 1) ^ i).
Proof.
  intros Hi. symmetry. apply (floor_ok_spec 17); [lia|unfold MaxUint32; lia|].
  do 20 (destruct i as [|i]; [vm_compute; reflexivity|]). lia.
Qed.

End Euler.

(** ** The scan of [randomHeight] *)

Lemma randomHeight_loop_scan n tbl rnd h :
  1 <= h <= maxHeight -> maxHeight - h <= Z.of_nat n ->
  h <= randomHeight_loop n tbl rnd h <= maxHeight /\
  (forall j, h <= j < randomHeight_loop n tbl rnd h ->
     rnd <= nth (Z.to_nat j) tbl 0) /\
  (randomHeight_loop n tbl rnd h < maxHeight ->
     nth (Z.to_nat (randomHeight_loop n tbl rnd h)) tbl 0 < rnd).
Proof.
  revert h. induction n as [|n IH]; intros h Hh Hn; cbn [randomHeight_loop].
  - split; [lia|]. split; intros; lia.
  - destruct (Z.ltb_spec h maxHeight) as [Hlt|Hge]; cbn [andb].
    + destruct (Z.leb_spec rnd (nth (Z.to_nat h) tbl 0)) as [Hle|Hgt].
      * unfold maxHeight in *. rewrite u32_id by lia.
        destruct (IH (h + 1)) as (Hr & Hbelow & Hat); [lia|lia|].
        split; [lia|]. split; [|exact Hat].
        intros j Hj. destruct (Z.eq_dec j h) as [->|Hne]; [exact Hle|].
        apply Hbelow. lia.
      * split; [lia|]. split; [intros; lia|]. intros _. exact Hgt.
    + split; [lia|]. split; intros; lia.
Qed.

(** The height drawn is the first level of [1 .. maxHeight - 1] whose
    threshold is below the draw, or [maxHeight]. *)
Lemma height_of_scan tbl rnd :
  (forall j, 1 <= j < height_of tbl rnd -> rnd <= nth (Z.to_nat j) tbl 0) /\
  (height_of tbl rnd < maxHeight -> nth (Z.to_nat (height_of tbl rnd)) tbl 0 < rnd).
Proof.
  destruct (randomHeight_loop_scan (Z.to_nat maxHeight) tbl rnd 1) as (_ & H1 & H2);
    [unfold maxHeight; lia|unfold maxHeight; lia|].
  split; assumption.
Qed.

(** ** No write to the table after [init] *)

(** A computation that leaves [probabilities] as it finds it, whether it
    returns or panics. *)
Definition keeps_table {A : Type} (m : M A) : Prop :=
  forall w, probabilities (snd (m w)) = probabilities w.

Lemma keeps_ret {A} (a : A) : keeps_table (mret a).
Proof. intros w. reflexivity. Qed.

Lemma keeps_panic {A} e : keeps_table (@panic A e).
Proof. intros w. reflexivity. Qed.

Lemma keeps_bind {A B} (k : A -> M B) (m : M A) :
  keeps_table m -> (forall a, keeps_table (k a)) -> keeps_table (mbind k m).
Proof.
  intros Hm Hk w. unfold mbind, M_bind. specialize (Hm w).
  destruct (m w) as [[a|e] w1]; cbn [snd] in *; [rewrite Hk|]; exact Hm.
Qed.

Lemma keeps_get_skl : keeps_table get_skl.
Proof. intros w. reflexivity. Qed.

Lemma keeps_put_skl s : keeps_table (put_skl s).
Proof. intros w. reflexivity. Qed.

Lemma keeps_log_call ev : keeps_table (log_call ev).
Proof. intros w. reflexivity. Qed.

Lemma keeps_rand_Uint32 : keeps_table rand_Uint32.
Proof. intros w. reflexivity. Qed.

Lemma keeps_get_probabilities : keeps_table get_probabilities.
Proof. intros w. reflexivity. Qed.

Create HintDb table.
#[local] Hint Resolve keeps_get_skl keeps_put_skl keeps_log_call
  keeps_rand_Uint32 keeps_get_probabilities : table.

(** Binds, returns, panics and case distinctions, down to the calls. *)
Ltac keeps :=
  repeat first
    [ apply keeps_ret
    | apply keeps_panic
    | apply keeps_bind; [|intros ?]
    | solve [auto with table]
    | match goal with
      | |- keeps_table (if ?b then _ else _) => destruct b
      | |- keeps_table (match ?x with _ => _ end) => destruct x
      end ].

Lemma keeps_put_nodes sl : keeps_table (put_nodes sl).
Proof. unfold put_nodes. keeps. Qed.

Lemma keeps_put_head v : keeps_table (put_head v).
Proof. unfold put_head. keeps. Qed.

Lemma keeps_put_tail v : keeps_table (put_tail v).
Proof. unfold put_tail. keeps. Qed.

Lemma keeps_put_height v : keeps_table (put_height v).
Proof. unfold put_height. keeps. Qed.

Lemma keeps_storage_Prefix key : keeps_table (storage_Prefix key).
Proof. unfold storage_Prefix. keeps. Qed.

Lemma keeps_storage_Compare a b : keeps_table (storage_Compare a b).
Proof. unfold storage_Compare. keeps. Qed.

Lemma keeps_make_bytes l c : keeps_table (make_bytes l c).
Proof. unfold make_bytes. keeps. Qed.

Lemma keeps_reslice sl hi : keeps_table (reslice sl hi).
Proof. unfold reslice. keeps. Qed.

#[local] Hint Resolve keeps_put_nodes keeps_put_head keeps_put_tail
  keeps_put_height keeps_storage_Prefix keeps_storage_Compare
  keeps_make_bytes keeps_reslice : table.

Lemma keeps_alloc size : keeps_table (alloc size).
Proof. unfold alloc. keeps. Qed.

Lemma keeps_node offset : keeps_table (node offset).
Proof. unfold node. keeps. Qed.

Lemma keeps_load n addr : keeps_table (load n addr).
Proof. unfold load. keeps. Qed.

Lemma keeps_store n addr v : keeps_table (store n addr v).
Proof. unfold store. keeps. Qed.

Lemma keeps_links_index h : keeps_table (links_index h).
Proof. unfold links_index. keeps. Qed.

#[local] Hint Resolve keeps_alloc keeps_node keeps_load keeps_store
  keeps_links_index : table.

Lemma keeps_newNode height key prefix : keeps_table (newNode height key prefix).
Proof. unfold newNode. keeps. Qed.

Lemma keeps_getKey nd : keeps_table (getKey nd).
Proof. unfold getKey. keeps. Qed.

Lemma keeps_getKeyPrefix nd : keeps_table (getKeyPrefix nd).
Proof. unfold getKeyPrefix. keeps. Qed.

Lemma keeps_getNext nd h : keeps_table (getNext nd h).
Proof. unfold getNext. keeps. Qed.

Lemma keeps_getPrev nd h : keeps_table (getPrev nd h).
Proof. unfold getPrev. keeps. Qed.

Lemma keeps_setNext nd h next : keeps_table (setNext nd h next).
Proof. unfold setNext. keeps. Qed.

Lemma keeps_setPrev nd h prev : keeps_table (setPrev nd h prev).
Proof. unfold setPrev. keeps. Qed.

#[local] Hint Resolve keeps_newNode keeps_getKey keeps_getKeyPrefix
  keeps_getNext keeps_getPrev keeps_setNext keeps_setPrev : table.

Lemma keeps_link_levels n i : keeps_table (link_levels n i).
Proof. revert i. induction n as [|n IH]; intros i; cbn [link_levels]; keeps. Qed.

#[local] Hint Resolve keeps_link_levels : table.

Lemma keeps_NewSkiplist st initBufSize : keeps_table (NewSkiplist st initBufSize).
Proof. unfold NewSkiplist, NewSkiplist_struct. keeps. Qed.

Lemma keeps_randomHeight : keeps_table randomHeight.
Proof. unfold randomHeight. keeps. Qed.

Lemma keeps_findSpliceForLevel fuel key prefix level start :
  keeps_table (findSpliceForLevel fuel key prefix level start).
Proof.
  revert start. induction fuel as [|fuel IH]; intros start;
    cbn [findSpliceForLevel]; [keeps|].
  apply keeps_bind; [unfold findSpliceForLevel_body; keeps|].
  intros [next found|next]; [keeps|apply IH].
Qed.

Lemma keeps_debug_level fuel level nd : keeps_table (debug_level fuel level nd).
Proof.
  revert nd. induction fuel as [|fuel IH]; intros nd; cbn [debug_level]; keeps.
Qed.

#[local] Hint Resolve keeps_debug_level : table.

Lemma keeps_debug_levels n level : keeps_table (debug_levels n level).
Proof.
  revert level. induction n as [|n IH]; intros level; cbn [debug_levels]; keeps.
Qed.

#[local] Hint Resolve keeps_debug_levels : table.

Lemma keeps_debug : keeps_table debug.
Proof. unfold debug. keeps. Qed.

#[local] Hint Resolve keeps_randomHeight keeps_findSpliceForLevel : table.

Lemma keeps_findSplices n key prefix prev spl :
  keeps_table (findSplices n key prefix prev spl).
Proof.
  revert prev spl. induction n as [|n IH]; intros prev spl;
    cbn [findSplices]; keeps.
Qed.

Lemma keeps_spliceNode nd level spl : keeps_table (spliceNode nd level spl).
Proof.
  revert level. induction spl as [|[prev next] spl IH]; intros level;
    cbn [spliceNode]; keeps.
Qed.

#[local] Hint Resolve keeps_findSplices keeps_spliceNode : table.

Lemma keeps_Add key keyOffset : keeps_table (Add key keyOffset).
Proof. unfold Add. keeps. Qed.

#[local] Hint Resolve keeps_Add : table.

Lemma keeps_perform o : keeps_table (perform o).
Proof. destruct o; cbn [perform]; keeps. Qed.

#[local] Hint Resolve keeps_perform : table.

Lemma keeps_performAll os : keeps_table (performAll os).
Proof. induction os as [|o os IH]; cbn [performAll]; keeps. Qed.

(** A run that starts with [NewSkiplist] and returns had a hint [make]
    accepts. *)
Lemma NewSkiplist_then_returns {A} st n (f : unit -> M A) w0 r w :
  (NewSkiplist st n ≫= f) w0 = (Ok r, w) -> n <= maxAlloc.
Proof.
  intros H. apply bind_Ok in H as ([] & w1 & H1 & _).
  exact (NewSkiplist_returns st n w0 w1 H1).
Qed.

(** * The claims of the specification *)

(** C1. A call of [findSpliceForLevel] returns [(prev, next, found)] exactly
    when the walk from [start] advances, node by node, to [prev] and stops
    there with [next] and [found].  It advances over a node that is not the
    tail when the node's prefix is below the target's, or equal with a key
    strictly less than the target; it stops, not found, at the tail, at a
    greater prefix, and at an equal prefix with a strictly greater key, and
    stops, found, at an equal prefix with a key [Compare] reports equal.
    [next] is the successor of [prev] at the level. *)
Theorem findSpliceForLevel_walk :
  forall key prefix level start w prev next found,
  (exists fuel w',
     findSpliceForLevel fuel key prefix level start w = (Ok (prev, next, found), w'))
  <->
  (walk (skl w) key prefix level start prev /\
   stops (skl w) key prefix level prev next found).
Proof.
  intros key prefix level start w prev next found. split.
  - intros (fuel & w' & H). revert start w H.
    induction fuel as [|fuel IH]; intros start w H; [discriminate|].
    cbn [findSpliceForLevel] in H.
    apply bind_Ok in H as (t & w1 & Hb & H).
    apply body_inv in Hb as (nx & Hn & Hcase).
    pose proof (getNext_yields _ _ _ _ _ Hn) as Yn.
    destruct Hcase as [(E & -> & ->)|(E & np & Hp & Hcase)].
    + injection H as <- <- <- _. split; [constructor|].
      split; [exact Yn|]. left. auto.
    + pose proof (getKeyPrefix_yields _ _ _ _ Hp) as Yp.
      destruct Hcase as [(Hlt & -> & ->)|[(Hlt & -> & ->)|(-> & k & Hk & -> & ->)]].
      * injection H as <- <- <- _. split; [constructor|].
        split; [exact Yn|]. right. split; [exact E|].
        exists np. split; [exact Yp|]. left. auto.
      * apply IH in H as [Hw Hs]. split; [|exact Hs].
        econstructor; [|exact Hw].
        split; [exact Yn|]. split; [exact E|]. exists np. auto.
      * pose proof (getKey_yields _ _ _ _ Hk) as Yk.
        unfold turn_of_cmp in H.
        destruct (Z.eqb_spec (Compare (storage (skl w)) key k) 0) as [E0|E0].
        { injection H as <- <- <- _. split; [constructor|].
          split; [exact Yn|]. right. split; [exact E|].
          exists prefix. split; [exact Yp|]. right. split; [reflexivity|].
          exists k. split; [exact Yk|]. left. auto. }
        destruct (Z.ltb_spec (Compare (storage (skl w)) key k) 0) as [E1|E1].
        { injection H as <- <- <- _. split; [constructor|].
          split; [exact Yn|]. right. split; [exact E|].
          exists prefix. split; [exact Yp|]. right. split; [reflexivity|].
          exists k. split; [exact Yk|]. right. auto. }
        apply IH in H as [Hw Hs]. cbn [skl with_calls] in Hw, Hs.
        split; [|exact Hs].
        econstructor; [|exact Hw].
        split; [exact Yn|]. split; [exact E|]. exists prefix.
        split; [exact Yp|]. right. split; [reflexivity|].
        exists k. split; [exact Yk|]. lia.
  - intros [Hw Hs]. remember (skl w) as s eqn:Es. revert w Es.
    induction Hw as [a|a b c Hadv Hw IH]; intros w Es.
    + exists 1%nat. destruct Hs as [Yn Hs].
      pose proof (Yn w (eq_sym Es)) as Hn.
      apply getNext_inv in Hn as (_ & Hb & Hl & Pn). subst s.
      cbn [findSpliceForLevel].
      destruct Hs as [(E & ->)|(E & np & Yp & Hs)].
      * eexists. rewrite (bind_run _ _ _ _ _ (body_tail _ _ _ _ _ _ Hb Hl Pn E)).
        reflexivity.
      * pose proof (Yp w eq_refl) as Hp.
        apply getKeyPrefix_inv in Hp as (_ & Hbn & Pp).
        destruct Hs as [(Hlt & ->)|(-> & k & Yk & Hs)].
        -- eexists.
           rewrite (bind_run _ _ _ _ _ (body_greater _ _ _ _ _ _ _ Hb Hl Pn E Hbn Pp Hlt)).
           reflexivity.
        -- pose proof (Yk w eq_refl) as Hk.
           apply getKey_inv in Hk as (_ & _ & Pk).
           eexists.
           rewrite (bind_run _ _ _ _ _ (body_equal _ _ _ _ _ _ _ Hb Hl Pn E Hbn Pp Pk)).
           unfold turn_of_cmp. destruct Hs as [(E0 & ->)|(E0 & ->)].
           ++ rewrite E0. reflexivity.
           ++ zbool. reflexivity.
    + destruct Hadv as (Yn & E & np & Yp & Hadv).
      pose proof (Yn w (eq_sym Es)) as Hn.
      apply getNext_inv in Hn as (_ & Hb & Hl & Pn). subst s.
      pose proof (Yp w eq_refl) as Hp.
      apply getKeyPrefix_inv in Hp as (_ & Hbn & Pp).
      destruct Hadv as [Hlt|(-> & k & Yk & Hgt)].
      * destruct (IH Hs w eq_refl) as (fuel & w' & Hrun).
        exists (S fuel), w'. cbn [findSpliceForLevel].
        rewrite (bind_run _ _ _ _ _ (body_less _ _ _ _ _ _ _ Hb Hl Pn E Hbn Pp Hlt)).
        exact Hrun.
      * pose proof (Yk w eq_refl) as Hk.
        apply getKey_inv in Hk as (_ & _ & Pk).
        destruct (IH Hs (with_calls w [EvCompare key k]) eq_refl) as (fuel & w' & Hrun).
        exists (S fuel), w'. cbn [findSpliceForLevel].
        rewrite (bind_run _ _ _ _ _ (body_equal _ _ _ _ _ _ _ Hb Hl Pn E Hbn Pp Pk)).
        unfold turn_of_cmp. zbool. exact Hrun.
Qed.

(** C7. Every call [findSpliceForLevel] makes into [Storage] is a call of
    [Compare] on the key of a node that is not the tail and whose cached
    prefix is the target's; and a turn at a node whose prefix differs
    decides by the prefixes alone, with no call at all. *)
Theorem Compare_only_on_equal_prefix :
  forall fuel key prefix level start w,
  (exists evs,
     calls (snd (findSpliceForLevel fuel key prefix level start w)) = calls w ++ evs /\
     Forall (fun ev => exists next k,
               ev = EvCompare key k /\ next <> tail (skl w) /\
               yields (getKeyPrefix next) (skl w) prefix /\
               yields (getKey next) (skl w) k) evs) /\
  (forall prev next nextPrefix,
     yields (getNext prev level) (skl w) next ->
     next <> tail (skl w) ->
     yields (getKeyPrefix next) (skl w) nextPrefix ->
     nextPrefix <> prefix ->
     findSpliceForLevel_body key prefix level prev w =
       (Ok (if prefix <? nextPrefix then Stop next false else Advance next), w)).
Proof.
  intros fuel key prefix level start w. split.
  - revert start w. induction fuel as [|fuel IH]; intros start w.
    + exists []. cbn. rewrite app_nil_r. auto.
    + cbn [findSpliceForLevel]. unfold mbind, M_bind.
      destruct (findSpliceForLevel_body key prefix level start w) as [r w1] eqn:Hb.
      apply body_effect in Hb.
      destruct r as [[nx fd|nx]|e].
      * destruct Hb as [->|(nx' & k & -> & Hb)].
        -- exists []. cbn. rewrite app_nil_r. auto.
        -- exists [EvCompare key k]. cbn. split; [reflexivity|].
           constructor; [|constructor]. exists nx', k. auto.
      * destruct Hb as [->|(nx' & k & -> & Hb)]; [apply IH|].
        destruct (IH nx (with_calls w [EvCompare key k])) as (evs & Hc & Hall).
        exists (EvCompare key k :: evs). rewrite Hc. cbn [calls with_calls].
        rewrite <- app_assoc. split; [reflexivity|].
        constructor; [exists nx', k; auto|exact Hall].
      * destruct Hb as [->|(nx' & k & -> & Hb)].
        -- exists []. cbn. rewrite app_nil_r. auto.
        -- exists [EvCompare key k]. cbn. split; [reflexivity|].
           constructor; [|constructor]. exists nx', k. auto.
  - intros prev next np Yn E Yp Hne.
    pose proof (Yn w eq_refl) as Hn. apply getNext_inv in Hn as (_ & Hb & Hl & Pn).
    pose proof (Yp w eq_refl) as Hp. apply getKeyPrefix_inv in Hp as (_ & Hbn & Pp).
    destruct (Z.ltb_spec prefix np) as [Hlt|Hge].
    + apply (body_greater _ _ _ _ _ _ _ Hb Hl Pn E Hbn Pp Hlt).
    + apply (body_less _ _ _ _ _ _ _ Hb Hl Pn E Hbn Pp). lia.
Qed.

(** C10. [findSpliceForLevel] changes nothing of the skip list: its arena
    (bytes, length and capacity), head, tail and height are after the call
    what they were before it, whether it finds the key, does not, or
    panics. *)
Theorem findSpliceForLevel_no_mutation :
  forall fuel key prefix level start w,
  skl (snd (findSpliceForLevel fuel key prefix level start w)) = skl w.
Proof.
  induction fuel as [|fuel IH]; intros key prefix level start w; [reflexivity|].
  cbn [findSpliceForLevel]. unfold mbind, M_bind.
  destruct (findSpliceForLevel_body key prefix level start w) as [r w1] eqn:Hb.
  apply body_effect in Hb.
  assert (Hs : skl w1 = skl w) by (destruct Hb as [->|(? & ? & -> & _)]; reflexivity).
  destruct r as [[nx fd|nx]|e]; cbn [snd]; auto.
  rewrite IH. exact Hs.
Qed.


(** C3. After [NewSkiplist] and insertions of records with pairwise
    distinct keys, in any order and whatever heights are drawn, the walk of
    level 0 from the head visits a node for each record inserted, and the
    keys of the nodes it visits are in strictly ascending order under
    [Compare]; the insertions all return no error.  Once [NewSkiplist] has
    returned, the insertions run to their end when the arena has room for
    them. *)
Theorem level0_ascending :
  forall st kcmp initBufSize ops w0,
  StorageContract st kcmp ->
  Forall (valid_op st) ops -> distinct_keys kcmp ops ->
  (forall rs w,
     (NewSkiplist st initBufSize ≫= fun _ => AddAll ops) w0 = (Ok rs, w) ->
     exists nds ks,
       debug_level (level_fuel (skl w)) 0 (head (skl w)) w =
         (Ok (head (skl w) :: nds), w) /\
       mapM getKey nds w = (Ok ks, w) /\
       ks ≡ₚ map snd ops /\
       ascending st ks /\
       Forall (fun r => r = None) rs) /\
  (forall w1,
     NewSkiplist st initBufSize w0 = (Ok tt, w1) ->
     2 * maxNodeSize + maxNodeSize * Z.of_nat (length ops) < 2 ^ 32 ->
     exists rs w,
       (NewSkiplist st initBufSize ≫= fun _ => AddAll ops) w0 = (Ok rs, w)).
Proof.
  intros st kcmp n ops w0 HC Hval Hd.
  split.
  - intros rs w Hrun.
    pose proof (NewSkiplist_then_returns _ _ _ _ _ _ Hrun) as Hmax.
    destruct (NewSkiplist_spec st kcmp n w0 Hmax)
      as (s' & Hnew & HI & _ & _ & _ & Hlen & _).
    rewrite (bind_run _ _ _ _ _ Hnew) in Hrun.
    destruct (AddAll_distinct st kcmp HC ops Hval Hd (with_skl w0 s') [] rs w HI) as (Hall & G & HIw & _ & _ & Hperm);
      auto.
    { intros op g _ Hg. inversion Hg. }
    exists (map g_off G), (map g_key G).
    pose proof (debug_level_Inv st kcmp w G 0 HIw ltac:(unfold maxHeight; lia)) as Hwalk.
    rewrite (lvl_0 st kcmp _ _ HIw) in Hwalk.
    split; [exact Hwalk|].
    split; [apply (getKey_all st kcmp w G G HIw); auto|].
    split; [rewrite Hperm; cbn [map]; rewrite app_nil_r; reflexivity|].
    split; [|exact Hall].
    apply (sorted_keys st kcmp HC). exact (inv_sorted _ _ _ _ HIw).
  - intros w1 Hret Hroom.
    pose proof (NewSkiplist_returns _ _ _ _ Hret) as Hmax.
    destruct (NewSkiplist_spec st kcmp n w0 Hmax)
      as (s' & Hnew & HI & _ & _ & _ & Hlen & _).
    destruct (AddAll_total st kcmp HC ops Hval (with_skl w0 s') [] HI) as (rs & w & Hrun).
    { cbn [skl with_skl]. rewrite Hlen. exact Hroom. }
    exists rs, w. rewrite (bind_run _ _ _ _ _ Hnew). exact Hrun.
Qed.

(** C2. In a skip list made by [NewSkiplist] and insertions, inserting a
    key that [Compare] reports equal to the key of a node of level 0 returns
    [ErrRecordExists]; the arena is byte for byte what it was, so no link
    and no record has changed, and the walk of level 0 visits the same
    nodes, as many as before, with the same keys. *)
Theorem Add_existing_key :
  forall st kcmp initBufSize ops w0 rs w key keyOffset nds nd k,
  StorageContract st kcmp ->
  Forall (valid_op st) ops ->
  (NewSkiplist st initBufSize ≫= fun _ => AddAll ops) w0 = (Ok rs, w) ->
  valid_op st (key, keyOffset) ->
  debug_level (level_fuel (skl w)) 0 (head (skl w)) w = (Ok (head (skl w) :: nds), w) ->
  nd ∈ nds -> getKey nd w = (Ok k, w) -> Compare st key k = 0 ->
  exists w',
    Add key keyOffset w = (Ok (Some ErrRecordExists), w') /\
    nodes (skl w') = nodes (skl w) /\
    head (skl w') = head (skl w) /\ tail (skl w') = tail (skl w) /\
    debug_level (level_fuel (skl w')) 0 (head (skl w')) w' =
      (Ok (head (skl w) :: nds), w') /\
    forall ks, mapM getKey nds w = (Ok ks, w) -> mapM getKey nds w' = (Ok ks, w').
Proof.
  intros st kcmp n ops w0 rs w key off nds nd k HC Hval Hrun [Hget Hoff] Hwalk Hnd Hk Hcmp.
  cbn [fst snd] in Hget, Hoff.
  pose proof (NewSkiplist_then_returns _ _ _ _ _ _ Hrun) as Hmax.
  destruct (NewSkiplist_spec st kcmp n w0 Hmax) as (s' & Hnew & HI0 & _).
  rewrite (bind_run _ _ _ _ _ Hnew) in Hrun.
  destruct (AddAll_Inv st kcmp HC ops Hval (with_skl w0 s') [] rs w HI0 Hrun) as (G & HI & _).
  pose proof (debug_level_Inv st kcmp w G 0 HI ltac:(unfold maxHeight; lia)) as Hwalk'.
  rewrite (lvl_0 st kcmp _ _ HI) in Hwalk'.
  rewrite Hwalk in Hwalk'. injection Hwalk' as ->.
  apply list_elem_of_fmap in Hnd as (g & -> & Hg).
  destruct (inv_keys _ _ _ _ HI g Hg) as (_ & Pk & _).
  apply getKey_inv in Hk as (_ & _ & Pk'). rewrite Pk in Pk'. injection Pk' as <-.
  assert (Heq : kcmp key (gk st g) = Eq).
  { unfold gk. rewrite <- (Compare_kcmp _ _ HC), Hcmp. reflexivity. }
  destruct (Add_spec st kcmp HC w G key off HI Hget Hoff)
    as (r & w' & Hadd & _ & _ & _ & Hcase).
  destruct Hcase as [(_ & -> & Hs & HI')|(Hno & _)]; [|exfalso; exact (Hno g Hg Heq)].
  destruct (Inv_raise' st kcmp _ _ _ HI (height_of_range (probabilities w) (drawn w)))
    as (_ & _ & Hn' & Hh' & Ht').
  rewrite <- Hs in Hn', Hh', Ht'.
  exists w'. split; [exact Hadd|]. split; [exact Hn'|].
  split; [exact Hh'|]. split; [exact Ht'|]. split.
  - pose proof (debug_level_Inv st kcmp w' G 0 HI' ltac:(unfold maxHeight; lia)) as Hw'.
    rewrite (lvl_0 st kcmp _ _ HI') in Hw'. rewrite <- Hh'. exact Hw'.
  - intros ks Hks.
    rewrite (getKey_all st kcmp w G G HI) in Hks by auto. injection Hks as <-.
    apply (getKey_all st kcmp w' G G HI'). auto.
Qed.

(** C8. The list [NewSkiplist] returns has a head and a tail that are two
    nodes of the maximum height, the only nodes of the arena, each linked
    to the other at every level below 20, and its height is 1; and after
    every sequence of operations that follows, head and tail are the same
    nodes and the links of every level still lead from the head to the
    tail and back. *)
Theorem head_tail_linked :
  forall st kcmp initBufSize w0,
  StorageContract st kcmp ->
  (forall w1,
     NewSkiplist st initBufSize w0 = (Ok tt, w1) ->
     head (skl w1) = 0 /\ tail (skl w1) = nodeSize maxHeight /\
     len (nodes (skl w1)) = 2 * nodeSize maxHeight /\
     height (skl w1) = 1 /\
     forall i, 0 <= i < maxHeight ->
       getNext (head (skl w1)) i w1 = (Ok (tail (skl w1)), w1) /\
       getPrev (tail (skl w1)) i w1 = (Ok (head (skl w1)), w1)) /\
  (forall os w,
     Forall (valid_operation st) os ->
     (NewSkiplist st initBufSize ≫= fun _ => performAll os) w0 = (Ok tt, w) ->
     head (skl w) = 0 /\ tail (skl w) = nodeSize maxHeight /\
     forall i, 0 <= i < maxHeight ->
       linked w i (head (skl w)) (tail (skl w))).
Proof.
  intros st kcmp n w0 HC.
  split.
  - intros w1 Hret.
    pose proof (NewSkiplist_returns _ _ _ _ Hret) as Hmax.
    destruct (NewSkiplist_spec st kcmp n w0 Hmax)
      as (s' & Hnew & HI & Hh & Ht & Hht & Hlen & _).
    rewrite Hnew in Hret. injection Hret as <-. cbn [skl with_skl].
    split; [exact Hh|]. split; [exact Ht|].
    split; [exact Hlen|]. split; [exact Hht|].
    intros i Hi. pose proof (inv_chain _ _ _ _ HI i Hi) as [Pn Pp].
    split.
    + apply getNext_run; auto. eapply Inv_head_in; eauto.
    + apply getPrev_run; auto. eapply Inv_tail_in; eauto.
  - intros os w Hval Hrun.
    pose proof (NewSkiplist_then_returns _ _ _ _ _ _ Hrun) as Hmax.
    destruct (NewSkiplist_spec st kcmp n w0 Hmax)
      as (s' & Hnew & HI & Hh & Ht & Hht & Hlen & _).
    rewrite (bind_run _ _ _ _ _ Hnew) in Hrun.
    destruct (performAll_Inv st kcmp HC os Hval (with_skl w0 s') [] w HI Hrun) as (G & HIw & Hh' & Ht' & _).
    cbn [skl with_skl] in Hh', Ht'.
    split; [congruence|]. split; [rewrite Ht'; exact Ht|].
    intros i Hi. apply (Inv_linked st kcmp w G i HIw Hi).
Qed.


(** *** Runs of the claims on the small storage *)

Lemma fresh_run : NewSkiplist Demo.demo 0 Demo.start = (Ok tt, Demo.fresh).
Proof. vm_compute. reflexivity. Qed.

Lemma records_valid : Forall (valid_op Demo.demo) Demo.records.
Proof.
  unfold Demo.records.
  repeat (constructor; [split; [reflexivity|cbn; lia]|]). constructor.
Qed.

Lemma records_distinct : distinct_keys Demo.order Demo.records.
Proof.
  unfold distinct_keys, Demo.records.
  repeat (constructor; [repeat (constructor; [vm_compute; discriminate|]); constructor|]).
  constructor.
Qed.

Lemma script_valid : Forall (valid_operation Demo.demo) Demo.script.
Proof.
  unfold Demo.script.
  repeat (constructor; [first [exact I|split; [reflexivity|cbn; lia]]|]).
  constructor.
Qed.

(** "b", "a", "c" inserted in that order are visited as "a", "b", "c",
    and the three insertions run to their end. *)
Lemma level0_ascending_witness :
  (NewSkiplist Demo.demo 0 ≫= fun _ => AddAll Demo.records) Demo.start =
    (Ok [None; None; None], Demo.filled) /\
  (exists nds ks,
     debug_level (level_fuel (skl Demo.filled)) 0 (head (skl Demo.filled)) Demo.filled =
       (Ok (head (skl Demo.filled) :: nds), Demo.filled) /\
     mapM getKey nds Demo.filled = (Ok ks, Demo.filled) /\
     ks ≡ₚ map snd Demo.records /\
     ascending Demo.demo ks /\
     Forall (fun r => r = None) [@None error; None; None]) /\
  NewSkiplist Demo.demo 0 Demo.start = (Ok tt, Demo.fresh) /\
  exists rs w,
    (NewSkiplist Demo.demo 0 ≫= fun _ => AddAll Demo.records) Demo.start = (Ok rs, w).
Proof.
  assert (Hrun : (NewSkiplist Demo.demo 0 ≫= fun _ => AddAll Demo.records) Demo.start =
                 (Ok [None; None; None], Demo.filled)) by (vm_compute; reflexivity).
  split; [exact Hrun|].
  split.
  - exact (proj1 (level0_ascending Demo.demo Demo.order 0 Demo.records Demo.start
                    demo_contract records_valid records_distinct)
             [None; None; None] Demo.filled Hrun).
  - split; [exact fresh_run|].
    apply (proj2 (level0_ascending Demo.demo Demo.order 0 Demo.records Demo.start
                    demo_contract records_valid records_distinct)
             Demo.fresh fresh_run).
    vm_compute. reflexivity.
Defined.

(** Inserting "b" again is refused and changes nothing. *)
Lemma Add_existing_key_witness :
  exists w',
    Add (Demo.key_at 98) 98 Demo.filled = (Ok (Some ErrRecordExists), w') /\
    nodes (skl w') = nodes (skl Demo.filled) /\
    head (skl w') = head (skl Demo.filled) /\
    tail (skl w') = tail (skl Demo.filled) /\
    debug_level (level_fuel (skl w')) 0 (head (skl w')) w' =
      (Ok (head (skl Demo.filled) :: [528; 352; 560]), w') /\
    forall ks, mapM getKey [528; 352; 560] Demo.filled = (Ok ks, Demo.filled) ->
               mapM getKey [528; 352; 560] w' = (Ok ks, w').
Proof.
  apply (Add_existing_key Demo.demo Demo.order 0 Demo.records Demo.start
           [None; None; None] Demo.filled (Demo.key_at 98) 98 [528; 352; 560] 352 98
           demo_contract records_valid).
  - vm_compute; reflexivity.
  - split; [reflexivity|cbn; lia].
  - vm_compute; reflexivity.
  - right; left.
  - vm_compute; reflexivity.
  - reflexivity.
Defined.

(** The list [NewSkiplist] returns with no hint has head and tail linked
    at all levels, and so has the list after insertions, a search and a
    refused insertion. *)
Lemma head_tail_linked_witness :
  (NewSkiplist Demo.demo 0 Demo.start = (Ok tt, Demo.fresh) /\
   head (skl Demo.fresh) = 0 /\ tail (skl Demo.fresh) = nodeSize maxHeight /\
   len (nodes (skl Demo.fresh)) = 2 * nodeSize maxHeight /\
   height (skl Demo.fresh) = 1 /\
   forall i, 0 <= i < maxHeight ->
     getNext (head (skl Demo.fresh)) i Demo.fresh = (Ok (tail (skl Demo.fresh)), Demo.fresh) /\
     getPrev (tail (skl Demo.fresh)) i Demo.fresh = (Ok (head (skl Demo.fresh)), Demo.fresh)) /\
  head (skl Demo.scripted) = 0 /\
  tail (skl Demo.scripted) = nodeSize maxHeight /\
  forall i, 0 <= i < maxHeight ->
    linked Demo.scripted i (head (skl Demo.scripted)) (tail (skl Demo.scripted)).
Proof.
  split.
  - split; [exact fresh_run|].
    exact (proj1 (head_tail_linked Demo.demo Demo.order 0 Demo.start demo_contract)
             Demo.fresh fresh_run).
  - apply (proj2 (head_tail_linked Demo.demo Demo.order 0 Demo.start demo_contract)
             Demo.script Demo.scripted script_valid).
    vm_compute; reflexivity.
Defined.


(** C9, as stated, fails: [MaxInt64] is a hint above what [make] accepts,
    and [NewSkiplist] panics on it. *)
Lemma NewSkiplist_hint_too_large :
  NewSkiplist Demo.demo (2 ^ 63 - 1) Demo.start = (Abort PanicMake, Demo.start).
Proof.
  apply (NewSkiplist_struct_panic Demo.demo (2 ^ 63 - 1) Demo.start).
  unfold maxAlloc. lia.
Qed.

(** C9, amended. A hint below 256, zero and negative hints included, is
    raised to 256: [NewSkiplist] does with it what it does with the hint
    256, and it returns.  Whenever [NewSkiplist] returns, it has made the
    arena with capacity [max(initBufSize, 256)] and no byte in use before
    it allocated the sentinels, and the arena it returns has that capacity,
    or twice that capacity when the sentinels did not fit.  A hint above
    the limit of the allocator makes [make] panic. *)
Theorem NewSkiplist_capacity_hint :
  forall st initBufSize w,
  (initBufSize < 256 ->
     NewSkiplist st initBufSize w = NewSkiplist st 256 w /\
     exists w1, NewSkiplist st initBufSize w = (Ok tt, w1)) /\
  (forall w1,
     NewSkiplist st initBufSize w = (Ok tt, w1) ->
     exists w0,
       NewSkiplist_struct st initBufSize w = (Ok tt, w0) /\
       cap (nodes (skl w0)) = Z.max initBufSize 256 /\
       len (nodes (skl w0)) = 0 /\
       (hd ← newNode maxHeight 0 0;
        _ ← put_head hd;
        tl ← newNode maxHeight 0 0;
        _ ← put_tail tl;
        link_levels (Z.to_nat maxHeight) 0) w0 = (Ok tt, w1) /\
       Z.max initBufSize 256 <= cap (nodes (skl w1)) /\
       cap (nodes (skl w1)) =
         (if Z.max initBufSize 256 <? 2 * maxNodeSize
          then 2 * Z.max initBufSize 256 else Z.max initBufSize 256)) /\
  (maxAlloc < initBufSize ->
     NewSkiplist st initBufSize w = (Abort PanicMake, w)).
Proof.
  intros st n w. split; [|split].
  - intros Hn. split.
    + unfold NewSkiplist, NewSkiplist_struct.
      rewrite (proj2 (Z.ltb_lt n 256) Hn). change (256 <? 256) with false.
      reflexivity.
    + destruct (NewSkiplist_spec st (fun _ _ => Eq) n w) as (s' & Hnew & _);
        [unfold maxAlloc; lia|].
      exists (with_skl w s'). exact Hnew.
  - intros w1 Hret.
    pose proof (NewSkiplist_returns _ _ _ _ Hret) as Hmax.
    pose proof (NewSkiplist_struct_run st n w Hmax) as Hstruct.
    exists (with_skl w (struct0 st n)). cbn [skl with_skl].
    split; [exact Hstruct|]. split; [apply struct0_cap|]. split; [reflexivity|].
    split.
    { unfold NewSkiplist in Hret. rewrite (bind_run _ _ _ _ _ Hstruct) in Hret.
      exact Hret. }
    destruct (NewSkiplist_spec st (fun _ _ => Eq) n w Hmax)
      as (s' & Hnew & _ & _ & _ & _ & _ & Hcap).
    rewrite Hnew in Hret. injection Hret as <-. cbn [skl with_skl].
    rewrite Hcap. split; [|reflexivity].
    destruct (Z.ltb_spec (Z.max n 256) (2 * maxNodeSize)); lia.
  - intros Hn. exact (proj2 (NewSkiplist_struct_panic st n w Hn)).
Qed.

(** The hint 0 gives the list of the hint 256, made with capacity 256 and
    returned with capacity 512. *)
Lemma NewSkiplist_capacity_hint_witness :
  NewSkiplist Demo.demo 0 Demo.start = NewSkiplist Demo.demo 256 Demo.start /\
  NewSkiplist Demo.demo 0 Demo.start = (Ok tt, Demo.fresh) /\
  exists w0,
    NewSkiplist_struct Demo.demo 0 Demo.start = (Ok tt, w0) /\
    cap (nodes (skl w0)) = Z.max 0 256 /\
    len (nodes (skl w0)) = 0 /\
    cap (nodes (skl Demo.fresh)) = 2 * Z.max 0 256.
Proof.
  destruct (NewSkiplist_capacity_hint Demo.demo 0 Demo.start) as (H1 & H2 & _).
  split; [apply H1; lia|]. split; [exact fresh_run|].
  destruct (H2 Demo.fresh fresh_run) as (w0 & Hs & Hc & Hl & _ & _ & Hf).
  exists w0. split; [exact Hs|]. split; [exact Hc|]. split; [exact Hl|].
  exact Hf.
Defined.

Lemma nearly_full_ok :
  slice_ok (nodes (skl Demo.nearly_full)) /\
  len (nodes (skl Demo.nearly_full)) = 2 ^ 32 - 8 /\
  cap (nodes (skl Demo.nearly_full)) = 2 ^ 32 - 8.
Proof.
  unfold Demo.nearly_full, slice_ok, cap. cbn [skl nodes arr len].
  rewrite length_replicate. unfold Demo.nearly_full_len.
  rewrite Z2Nat.id by lia. lia.
Qed.

Lemma newNode_wraps w :
  slice_ok (nodes (skl w)) -> len (nodes (skl w)) = 2 ^ 32 - 8 ->
  fst (newNode 1 0 0 w) = Abort PanicIndex.
Proof.
  intros Hok Hlen. rewrite newNode_overflow.
  - reflexivity.
  - exact Hok.
  - rewrite Hlen. lia.
  - unfold maxHeight. lia.
  - rewrite Hlen. layout. lia.
Qed.

(** C5, as stated, fails: a node of height 1 on an arena eight bytes short
    of 2^32 panics, on the index of the node, though the height is in
    range. *)
Lemma newNode_panics_in_range :
  1 <= 1 <= maxHeight /\
  fst (newNode 1 0 0 Demo.nearly_full) = Abort PanicIndex.
Proof.
  split; [unfold maxHeight; lia|].
  exact (newNode_wraps Demo.nearly_full
           (proj1 nearly_full_ok) (proj1 (proj2 nearly_full_ok))).
Qed.

(** C5, amended. On an arena below 2^32 bytes, [newNode] panics on the
    height exactly when the height is below 1 or above 20; for a height in
    range the node takes the header and [height] link pairs, which is
    [maxNodeSize - (20 - height) * linksSize] bytes and less than
    [maxNodeSize] below height 20, and [newNode] returns the old length of
    the arena as its offset, provided the arena still has that many bytes
    below 2^32. *)
Theorem newNode_height_and_size :
  forall height key prefix w,
  slice_ok (nodes (skl w)) -> len (nodes (skl w)) < 2 ^ 32 ->
  (fst (newNode height key prefix w) = Abort PanicHeight <->
   height < 1 \/ maxHeight < height) /\
  (1 <= height <= maxHeight ->
   nodeSize height = keyPrefixSize + prefixOff + height * linksSize /\
   nodeSize height = maxNodeSize - (maxHeight - height) * linksSize /\
   (height < maxHeight -> nodeSize height < maxNodeSize) /\
   (len (nodes (skl w)) + nodeSize height < 2 ^ 32 ->
    fst (newNode height key prefix w) = Ok (len (nodes (skl w))) /\
    len (nodes (skl (snd (newNode height key prefix w)))) =
      len (nodes (skl w)) + nodeSize height)).
Proof.
  intros h key prefix w Hok HL. split.
  - split.
    + intros H. destruct (Z.lt_ge_cases h 1) as [?|H1]; [auto|].
      destruct (Z.lt_ge_cases maxHeight h) as [?|H2]; [auto|]. exfalso.
      destruct (Z.lt_ge_cases (len (nodes (skl w)) + nodeSize h) (2 ^ 32)).
      * rewrite newNode_ok in H by (auto; lia). discriminate.
      * rewrite newNode_overflow in H by (auto; lia). discriminate.
    + intros H. rewrite newNode_height_panic by exact H. reflexivity.
  - intros Hh. split; [layout; lia|]. split; [layout; lia|].
    split; [intros; layout; lia|].
    intros Hfit. rewrite newNode_ok by auto. cbn [fst snd skl with_skl].
    split; [reflexivity|].
    destruct Hok as [H0 H1]. cbn [poke nodes len grow].
    rewrite (u32_id (len _)) by lia. apply u32_id. layout. lia.
Qed.

Lemma filled_arena :
  len (nodes (skl Demo.filled)) = 584 /\ cap (nodes (skl Demo.filled)) = 1024.
Proof. split; vm_compute; reflexivity. Qed.

(** A node of height 3 in the list of "a", "b", "c". *)
Lemma newNode_height_and_size_witness :
  (fst (newNode 3 100 25 Demo.filled) = Abort PanicHeight <->
   3 < 1 \/ maxHeight < 3) /\
  (1 <= 3 <= maxHeight ->
   nodeSize 3 = keyPrefixSize + prefixOff + 3 * linksSize /\
   nodeSize 3 = maxNodeSize - (maxHeight - 3) * linksSize /\
   (3 < maxHeight -> nodeSize 3 < maxNodeSize) /\
   (len (nodes (skl Demo.filled)) + nodeSize 3 < 2 ^ 32 ->
    fst (newNode 3 100 25 Demo.filled) = Ok (len (nodes (skl Demo.filled))) /\
    len (nodes (skl (snd (newNode 3 100 25 Demo.filled)))) =
      len (nodes (skl Demo.filled)) + nodeSize 3)).
Proof.
  destruct filled_arena as [Hlen Hcap].
  apply (newNode_height_and_size 3 100 25 Demo.filled).
  - unfold slice_ok. rewrite Hlen, Hcap. lia.
  - rewrite Hlen. lia.
Defined.

Lemma alloc_wraps w :
  slice_ok (nodes (skl w)) -> len (nodes (skl w)) = 2 ^ 32 - 8 ->
  cap (nodes (skl w)) = 2 ^ 32 - 8 ->
  fst (alloc 24 w) = Ok (2 ^ 32 - 8) /\
  fst (alloc 24 (snd (alloc 24 w))) = Ok 16.
Proof.
  intros Hok Hlen Hcap.
  rewrite (alloc_run 24 w Hok). cbn [fst snd].
  rewrite Hlen. split; [reflexivity|].
  assert (Hlen' : len (nodes (skl (with_skl w (grow (skl w) 24)))) = 16).
  { cbn [skl with_skl grow nodes len]. rewrite Hlen. reflexivity. }
  assert (Hcap' : cap (nodes (skl (with_skl w (grow (skl w) 24)))) = 2 ^ 32 - 8).
  { cbn [skl with_skl grow nodes]. unfold cap at 1. cbn [arr].
    rewrite (alloc_arr_length _ _ Hok), Hcap, Hlen. reflexivity. }
  rewrite alloc_run by (unfold slice_ok; rewrite Hlen', Hcap'; lia).
  cbn [fst]. rewrite Hlen'. reflexivity.
Qed.

(** C6, as stated, fails: on an arena eight bytes short of 2^32 an
    allocation of 24 bytes returns offset 2^32 - 8 and the next one returns
    offset 16, below it and inside bytes issued long before. *)
Lemma alloc_offsets_wrap :
  fst (alloc 24 Demo.nearly_full) = Ok (2 ^ 32 - 8) /\
  fst (alloc 24 (snd (alloc 24 Demo.nearly_full))) = Ok 16.
Proof.
  exact (alloc_wraps Demo.nearly_full (proj1 nearly_full_ok)
           (proj1 (proj2 nearly_full_ok)) (proj2 (proj2 nearly_full_ok))).
Qed.

(** C6, amended. While the length of the arena and the size asked for stay
    below 2^32 together, [alloc] returns the length of the arena as the
    offset and the next allocation starts where this one ends, so offsets
    increase and no byte is issued twice; when the capacity does not cover
    the new length, the new capacity is twice the old one, as a [uint32],
    or exactly the new length when that is less; and every byte below the
    old length is after the call what it was before. *)
Theorem alloc_offsets_and_growth :
  forall size w,
  slice_ok (nodes (skl w)) -> 0 <= size ->
  len (nodes (skl w)) + size < 2 ^ 32 ->
  fst (alloc size w) = Ok (len (nodes (skl w))) /\
  len (nodes (skl (snd (alloc size w)))) = len (nodes (skl w)) + size /\
  (forall size', fst (alloc size' (snd (alloc size w))) =
                   Ok (len (nodes (skl w)) + size)) /\
  cap (nodes (skl (snd (alloc size w)))) =
    (if cap (nodes (skl w)) <? len (nodes (skl w)) + size then
       Z.max (u32 (cap (nodes (skl w)) * 2)) (len (nodes (skl w)) + size)
     else cap (nodes (skl w))) /\
  (cap (nodes (skl w)) * 2 < 2 ^ 32 ->
   u32 (cap (nodes (skl w)) * 2) = cap (nodes (skl w)) * 2) /\
  (forall k, Z.of_nat k < len (nodes (skl w)) ->
     arr (nodes (skl (snd (alloc size w)))) !! k = arr (nodes (skl w)) !! k).
Proof.
  intros size w Hok Hsize Hfit. pose proof Hok as [H0 H1].
  rewrite (alloc_run size w Hok). cbn [fst snd skl with_skl].
  assert (Hlen : len (nodes (grow (skl w) size)) = len (nodes (skl w)) + size).
  { cbn [grow nodes len]. rewrite (u32_id (len _)) by lia. apply u32_id. lia. }
  assert (Hns : u32 (u32 (len (nodes (skl w))) + size) = len (nodes (skl w)) + size).
  { rewrite (u32_id (len _)) by lia. apply u32_id. lia. }
  assert (Hcap : cap (nodes (grow (skl w) size)) =
                 (if cap (nodes (skl w)) <? len (nodes (skl w)) + size then
                    Z.max (u32 (cap (nodes (skl w)) * 2)) (len (nodes (skl w)) + size)
                  else cap (nodes (skl w)))).
  { unfold cap at 1. cbn [grow nodes arr]. rewrite (alloc_arr_length _ _ Hok), Hns.
    destruct (Z.ltb_spec (cap (nodes (skl w))) (len (nodes (skl w)) + size)); [|reflexivity].
    destruct (Z.ltb_spec (u32 (cap (nodes (skl w)) * 2)) (len (nodes (skl w)) + size)); lia. }
  split; [rewrite u32_id by lia; reflexivity|].
  split; [exact Hlen|]. split; [|split; [exact Hcap|split]].
  - intros size'. rewrite alloc_run.
    + cbn [fst skl with_skl]. rewrite Hlen. rewrite u32_id by lia. reflexivity.
    + cbn [skl with_skl]. split; [lia|]. rewrite Hlen, Hcap.
      destruct (Z.ltb_spec (cap (nodes (skl w))) (len (nodes (skl w)) + size)); lia.
  - intros Hc. apply u32_id. unfold cap in *. lia.
  - intros k Hk. cbn [grow nodes arr]. apply alloc_arr_lookup; auto.
Qed.

(** An allocation of 24 bytes in the list of "a", "b", "c". *)
Lemma alloc_offsets_and_growth_witness :
  fst (alloc 24 Demo.filled) = Ok (len (nodes (skl Demo.filled))) /\
  len (nodes (skl (snd (alloc 24 Demo.filled)))) = len (nodes (skl Demo.filled)) + 24 /\
  (forall size', fst (alloc size' (snd (alloc 24 Demo.filled))) =
                   Ok (len (nodes (skl Demo.filled)) + 24)) /\
  cap (nodes (skl (snd (alloc 24 Demo.filled)))) =
    (if cap (nodes (skl Demo.filled)) <? len (nodes (skl Demo.filled)) + 24 then
       Z.max (u32 (cap (nodes (skl Demo.filled)) * 2)) (len (nodes (skl Demo.filled)) + 24)
     else cap (nodes (skl Demo.filled))) /\
  (cap (nodes (skl Demo.filled)) * 2 < 2 ^ 32 ->
   u32 (cap (nodes (skl Demo.filled)) * 2) = cap (nodes (skl Demo.filled)) * 2) /\
  (forall k, Z.of_nat k < len (nodes (skl Demo.filled)) ->
     arr (nodes (skl (snd (alloc 24 Demo.filled)))) !! k =
     arr (nodes (skl Demo.filled)) !! k).
Proof.
  destruct filled_arena as [Hlen Hcap].
  apply (alloc_offsets_and_growth 24 Demo.filled).
  - unfold slice_ok. rewrite Hlen, Hcap. lia.
  - lia.
  - rewrite Hlen. lia.
Defined.


(** C4. Once [init] has built the table, [randomHeight] takes exactly one
    32-bit draw from the source and leaves everything else as it was; the
    height [h] it returns is between 1 and 20, no level of 1 .. 19 below
    [h] has its threshold under the draw, the threshold of level [h] is
    under the draw when [h < 20], and [h] is 20 when no level of 1 .. 19
    has.  The table has twenty entries, entry [i] is the integer part of
    [MaxUint32 * (1/e)^i] with [e] the real number, and no operation of
    the package writes to it afterwards, whether it returns or panics. *)
Theorem randomHeight_scans_thresholds :
  forall w0 w,
  length (probabilities w0) = Z.to_nat maxHeight ->
  probabilities w = probabilities (snd (init w0)) ->
  (exists h,
     randomHeight w = (Ok h, with_draw w) /\
     rand_pos (with_draw w) = S (rand_pos w) /\
     0 <= drawn w < 2 ^ 32 /\
     1 <= h <= maxHeight /\
     (forall j, 1 <= j < maxHeight ->
        nth (Z.to_nat j) (probabilities w) 0 < drawn w -> h <= j) /\
     (h < maxHeight -> nth (Z.to_nat h) (probabilities w) 0 < drawn w) /\
     ((forall j, 1 <= j < maxHeight ->
         drawn w <= nth (Z.to_nat j) (probabilities w) 0) -> h = maxHeight)) /\
  length (probabilities w) = Z.to_nat maxHeight /\
  (forall i, (i < Z.to_nat maxHeight)%nat ->
     nth i (probabilities w) 0 =
     Zfloor (IZR MaxUint32 * (/ exp 1) ^ i)%R) /\
  probabilities (snd (randomHeight w)) = probabilities w /\
  (forall st initBufSize,
     probabilities (snd (NewSkiplist st initBufSize w)) = probabilities w) /\
  (forall os, probabilities (snd (performAll os w)) = probabilities w) /\
  probabilities (snd (debug w)) = probabilities w.
Proof.
  intros w0 w Hlen Hw.
  assert (Htbl : probabilities w = thresholds).
  { rewrite Hw, (init_run w0 Hlen). reflexivity. }
  split.
  { exists (height_of (probabilities w) (drawn w)).
    destruct (height_of_scan (probabilities w) (drawn w)) as [Hbelow Hat].
    pose proof (height_of_range (probabilities w) (drawn w)) as Hr.
    split; [apply randomHeight_run|]. split; [reflexivity|].
    split; [apply u32_range|]. split; [exact Hr|].
    split; [|split].
    - intros j Hj Hlt.
      destruct (Z.le_gt_cases (height_of (probabilities w) (drawn w)) j)
        as [Hle|Hgt]; [exact Hle|].
      specialize (Hbelow j). lia.
    - exact Hat.
    - intros Hall.
      destruct (Z.eq_dec (height_of (probabilities w) (drawn w)) maxHeight)
        as [He|Hne]; [exact He|].
      specialize (Hall (height_of (probabilities w) (drawn w))). lia. }
  split; [rewrite Htbl; reflexivity|].
  split; [intros i Hi; rewrite Htbl; apply thresholds_floor; exact Hi|].
  split; [apply keeps_randomHeight|].
  split; [intros st n; apply keeps_NewSkiplist|].
  split; [intros os; apply keeps_performAll|apply keeps_debug].
Qed.

(** In the state [init] leaves, [randomHeight] takes one draw and returns a
    height between 1 and 20, and the threshold of level 1 is the integer
    part of [MaxUint32 / e]. *)
Lemma randomHeight_scans_thresholds_witness :
  length (probabilities (Demo.boot Demo.draws)) = Z.to_nat maxHeight /\
  (exists h, randomHeight Demo.start = (Ok h, with_draw Demo.start) /\
             1 <= h <= maxHeight) /\
  nth 1 (probabilities Demo.start) 0 =
    Zfloor (IZR MaxUint32 * (/ exp 1) ^ 1)%R.
Proof.
  split; [reflexivity|].
  destruct (randomHeight_scans_thresholds (Demo.boot Demo.draws) Demo.start
              eq_refl eq_refl)
    as ((h & Hrun & _ & _ & Hh & _) & _ & Hfl & _).
  split; [exists h; split; assumption|].
  apply (Hfl 1%nat). vm_compute. lia.
Defined.


(** * Further properties of the code *)

(** ** Links and fields of a node *)

Lemma peek_poke_same s nd f v :
  0 <= nd + foff f ->
  nd + foff f + Z.of_nat (fsize f) <= cap (nodes s) ->
  0 <= v < 256 ^ Z.of_nat (fsize f) ->
  peek (poke s nd f v) nd f = Some v.
Proof.
  intros H0 Hc Hv. unfold peek, poke, cap in *. cbn [nodes arr].
  rewrite load_store_le_eq by lia. f_equal. apply Z.mod_small. exact Hv.
Qed.

Lemma peek_poke_apart s nd f v nd' f' :
  0 <= nd + foff f -> 0 <= nd' + foff f' ->
  nd' + foff f' + Z.of_nat (fsize f') <= nd + foff f \/
  nd + foff f + Z.of_nat (fsize f) <= nd' + foff f' ->
  peek (poke s nd f v) nd' f' = peek s nd' f'.
Proof.
  intros H0 H0' Hd. unfold peek, poke. cbn [nodes arr].
  apply load_store_le_ne. lia.
Qed.

(** What a getter returns is decided by the bounds and by the bytes of the
    field. *)
Lemma getNext_fst nd h w :
  fst (getNext nd h w) =
    if (0 <=? nd) && (nd <? len (nodes (skl w))) then
      if (0 <=? h) && (h <? maxHeight) then
        match peek (skl w) nd (FNext h) with
        | Some v => Ok v
        | None => Abort MemFault
        end
      else Abort PanicIndex
    else Abort PanicIndex.
Proof.
  unfold getNext, node, links_index, load, peek. munfold. cbn [foff fsize].
  destruct ((0 <=? nd) && (nd <? len (nodes (skl w)))); [|reflexivity].
  destruct ((0 <=? h) && (h <? maxHeight)); [|reflexivity].
  destruct (load_le _ _ _); reflexivity.
Qed.

Lemma getPrev_fst nd h w :
  fst (getPrev nd h w) =
    if (0 <=? nd) && (nd <? len (nodes (skl w))) then
      if (0 <=? h) && (h <? maxHeight) then
        match peek (skl w) nd (FPrev h) with
        | Some v => Ok v
        | None => Abort MemFault
        end
      else Abort PanicIndex
    else Abort PanicIndex.
Proof.
  unfold getPrev, node, links_index, load, peek. munfold. cbn [foff fsize].
  destruct ((0 <=? nd) && (nd <? len (nodes (skl w)))); [|reflexivity].
  destruct ((0 <=? h) && (h <? maxHeight)); [|reflexivity].
  destruct (load_le _ _ _); reflexivity.
Qed.

Lemma getKey_fst nd w :
  fst (getKey nd w) =
    if (0 <=? nd) && (nd <? len (nodes (skl w))) then
      match peek (skl w) nd FKey with
      | Some v => Ok v
      | None => Abort MemFault
      end
    else Abort PanicIndex.
Proof.
  unfold getKey, node, load, peek. munfold. cbn [foff fsize].
  destruct ((0 <=? nd) && (nd <? len (nodes (skl w)))); [|reflexivity].
  destruct (load_le _ _ _); reflexivity.
Qed.

Lemma getKeyPrefix_fst nd w :
  fst (getKeyPrefix nd w) =
    if (0 <=? nd) && (nd <? len (nodes (skl w))) then
      match peek (skl w) nd FPrefix with
      | Some v => Ok v
      | None => Abort MemFault
      end
    else Abort PanicIndex.
Proof.
  unfold getKeyPrefix, node, load, peek. munfold. cbn [foff fsize].
  destruct ((0 <=? nd) && (nd <? len (nodes (skl w)))); [|reflexivity].
  destruct (load_le _ _ _); reflexivity.
Qed.

(** Two states whose arenas have the same length and hold the same bytes
    in the fields read give the same results. *)
Ltac same_read :=
  rewrite ?getNext_fst, ?getPrev_fst, ?getKey_fst, ?getKeyPrefix_fst;
  cbn [skl with_skl poke nodes len].

(** X1. A link written is the link read back. *)
Theorem links_round_trip :
  forall nd h v w,
  0 <= nd < len (nodes (skl w)) -> 0 <= h < maxHeight ->
  nd + prevOff h + 4 <= cap (nodes (skl w)) -> 0 <= v < 2 ^ 32 ->
  (exists w1, setNext nd h v w = (Ok tt, w1) /\
              getNext nd h w1 = (Ok v, w1) /\
              len (nodes (skl w1)) = len (nodes (skl w)) /\
              cap (nodes (skl w1)) = cap (nodes (skl w))) /\
  (exists w1, setPrev nd h v w = (Ok tt, w1) /\
              getPrev nd h w1 = (Ok v, w1) /\
              len (nodes (skl w1)) = len (nodes (skl w)) /\
              cap (nodes (skl w1)) = cap (nodes (skl w))).
Proof.
  intros nd h v w Hn Hh Hc Hv.
  assert (Hcn : nd + nextOff h + 4 <= cap (nodes (skl w))) by (layout; lia).
  split.
  - exists (with_skl w (poke (skl w) nd (FNext h) v)).
    split; [apply setNext_run; assumption|].
    split; [|split; [reflexivity|]].
    + apply getNext_run; cbn [skl with_skl poke nodes len]; try assumption.
      apply peek_poke_same; cbn [foff fsize]; [layout; lia|lia|].
      change (256 ^ Z.of_nat 4) with (2 ^ 32). exact Hv.
    + unfold cap. cbn [skl with_skl poke nodes arr]. rewrite length_store_le.
      reflexivity.
  - exists (with_skl w (poke (skl w) nd (FPrev h) v)).
    split; [apply setPrev_run; assumption|].
    split; [|split; [reflexivity|]].
    + apply getPrev_run; cbn [skl with_skl poke nodes len]; try assumption.
      apply peek_poke_same; cbn [foff fsize]; [layout; lia|lia|].
      change (256 ^ Z.of_nat 4) with (2 ^ 32). exact Hv.
    + unfold cap. cbn [skl with_skl poke nodes arr]. rewrite length_store_le.
      reflexivity.
Qed.

(** On the list of "a", "b", "c": level 3 of the head. *)
Lemma links_round_trip_witness :
  (exists w1, setNext 0 3 560 Demo.filled = (Ok tt, w1) /\
              getNext 0 3 w1 = (Ok 560, w1) /\
              len (nodes (skl w1)) = len (nodes (skl Demo.filled)) /\
              cap (nodes (skl w1)) = cap (nodes (skl Demo.filled))) /\
  (exists w1, setPrev 0 3 560 Demo.filled = (Ok tt, w1) /\
              getPrev 0 3 w1 = (Ok 560, w1) /\
              len (nodes (skl w1)) = len (nodes (skl Demo.filled)) /\
              cap (nodes (skl w1)) = cap (nodes (skl Demo.filled))).
Proof.
  destruct filled_arena as [Hlen Hcap].
  apply (links_round_trip 0 3 560 Demo.filled).
  - rewrite Hlen. lia.
  - unfold maxHeight. lia.
  - rewrite Hcap. layout. lia.
  - lia.
Defined.

(** X2. A link written at one level of a node leaves the key, the prefix and
    every other link of that node as they were. *)
Theorem link_write_keeps_node :
  forall nd h v w,
  0 <= nd < len (nodes (skl w)) -> 0 <= h < maxHeight ->
  nd + prevOff h + 4 <= cap (nodes (skl w)) ->
  (fst (getKey nd (snd (setNext nd h v w))) = fst (getKey nd w) /\
   fst (getKeyPrefix nd (snd (setNext nd h v w))) = fst (getKeyPrefix nd w) /\
   (forall h', fst (getPrev nd h' (snd (setNext nd h v w))) = fst (getPrev nd h' w)) /\
   (forall h', h' <> h ->
      fst (getNext nd h' (snd (setNext nd h v w))) = fst (getNext nd h' w))) /\
  (fst (getKey nd (snd (setPrev nd h v w))) = fst (getKey nd w) /\
   fst (getKeyPrefix nd (snd (setPrev nd h v w))) = fst (getKeyPrefix nd w) /\
   (forall h', fst (getNext nd h' (snd (setPrev nd h v w))) = fst (getNext nd h' w)) /\
   (forall h', h' <> h ->
      fst (getPrev nd h' (snd (setPrev nd h v w))) = fst (getPrev nd h' w))).
Proof.
  intros nd h v w Hn Hh Hc.
  assert (Hcn : nd + nextOff h + 4 <= cap (nodes (skl w))) by (layout; lia).
  rewrite (setNext_run nd h v w Hn Hh Hcn), (setPrev_run nd h v w Hn Hh Hc).
  cbn [snd].
  split; (split; [|split; [|split]]); try intros h'; try intros Hne; same_read.
  - rewrite peek_poke_apart by (layout; lia). reflexivity.
  - rewrite peek_poke_apart by (layout; lia). reflexivity.
  - destruct ((0 <=? h') && (h' <? maxHeight)) eqn:E; [|reflexivity].
    apply andb_prop in E as [E1 E2]. apply Z.leb_le in E1. apply Z.ltb_lt in E2.
    rewrite peek_poke_apart by (layout; lia). reflexivity.
  - destruct ((0 <=? h') && (h' <? maxHeight)) eqn:E; [|reflexivity].
    apply andb_prop in E as [E1 E2]. apply Z.leb_le in E1. apply Z.ltb_lt in E2.
    rewrite peek_poke_apart by (layout; lia). reflexivity.
  - rewrite peek_poke_apart by (layout; lia). reflexivity.
  - rewrite peek_poke_apart by (layout; lia). reflexivity.
  - destruct ((0 <=? h') && (h' <? maxHeight)) eqn:E; [|reflexivity].
    apply andb_prop in E as [E1 E2]. apply Z.leb_le in E1. apply Z.ltb_lt in E2.
    rewrite peek_poke_apart by (layout; lia). reflexivity.
  - destruct ((0 <=? h') && (h' <? maxHeight)) eqn:E; [|reflexivity].
    apply andb_prop in E as [E1 E2]. apply Z.leb_le in E1. apply Z.ltb_lt in E2.
    rewrite peek_poke_apart by (layout; lia). reflexivity.
Qed.


(** On the list of "a", "b", "c": level 0 of the node of "b". *)
Lemma link_write_keeps_node_witness :
  fst (getKey 352 (snd (setNext 352 0 7 Demo.filled))) = fst (getKey 352 Demo.filled) /\
  fst (getKey 352 (snd (setPrev 352 0 7 Demo.filled))) = fst (getKey 352 Demo.filled).
Proof.
  destruct filled_arena as [Hlen Hcap].
  destruct (link_write_keeps_node 352 0 7 Demo.filled) as [(H1 & _) (H2 & _)].
  - rewrite Hlen. lia.
  - unfold maxHeight. lia.
  - rewrite Hcap. layout. lia.
  - split; assumption.
Defined.

(** X3. A link written at a level below the height of a node leaves the key,
    the prefix and the links of every node allocated apart from it as they
    were. *)
Theorem link_write_keeps_other_nodes :
  forall nd ht h v w nd' ht',
  0 <= nd < len (nodes (skl w)) -> 0 <= h < ht -> ht <= maxHeight ->
  nd + nodeSize ht <= cap (nodes (skl w)) ->
  0 <= nd' -> 1 <= ht' ->
  nd + nodeSize ht <= nd' \/ nd' + nodeSize ht' <= nd ->
  forall w1,
  w1 = snd (setNext nd h v w) \/ w1 = snd (setPrev nd h v w) ->
  fst (getKey nd' w1) = fst (getKey nd' w) /\
  fst (getKeyPrefix nd' w1) = fst (getKeyPrefix nd' w) /\
  forall h', 0 <= h' < ht' ->
    fst (getNext nd' h' w1) = fst (getNext nd' h' w) /\
    fst (getPrev nd' h' w1) = fst (getPrev nd' h' w).
Proof.
  intros nd ht h v w nd' ht' Hn Hh Hht Hc Hn' Hht' Hsep w1 Hw1.
  assert (Hh' : 0 <= h < maxHeight) by lia.
  assert (Hcp : nd + prevOff h + 4 <= cap (nodes (skl w))) by (layout; lia).
  assert (Hcn : nd + nextOff h + 4 <= cap (nodes (skl w))) by (layout; lia).
  rewrite (setNext_run nd h v w Hn Hh' Hcn), (setPrev_run nd h v w Hn Hh' Hcp) in Hw1.
  cbn [snd] in Hw1.
  destruct Hw1 as [-> | ->];
    (split; [|split; [|intros h' Hh2; split]]); same_read;
    rewrite peek_poke_apart by (layout; lia); reflexivity.
Qed.

(** On the list of "a", "b", "c": a write to level 1 of the node of "a"
    (height 2, at 528) and the node of "c" that follows it at 560. *)
Lemma link_write_keeps_other_nodes_witness :
  fst (getKey 560 (snd (setNext 528 1 7 Demo.filled))) = fst (getKey 560 Demo.filled) /\
  fst (getKeyPrefix 560 (snd (setNext 528 1 7 Demo.filled))) =
    fst (getKeyPrefix 560 Demo.filled).
Proof.
  destruct filled_arena as [Hlen Hcap].
  destruct (link_write_keeps_other_nodes 528 2 1 7 Demo.filled 560 1)
    with (w1 := snd (setNext 528 1 7 Demo.filled)) as (H1 & H2 & _).
  - rewrite Hlen. lia.
  - lia.
  - unfold maxHeight. lia.
  - rewrite Hcap. layout. lia.
  - lia.
  - lia.
  - left. layout. lia.
  - left. reflexivity.
  - split; assumption.
Defined.

(** X4. A node allocated with height [h] has no link of level [h]: the bytes
    where it would be are the key of the node allocated after it.  The
    level is checked against [maxHeight] only, so [setNext] at level [h]
    returns and overwrites that key. *)
Theorem link_at_own_height_is_next_key :
  forall nd h v w,
  0 <= nd -> 1 <= h < maxHeight ->
  nd + nodeSize h < len (nodes (skl w)) ->
  nd + nodeSize h + 4 <= cap (nodes (skl w)) ->
  0 <= v < 2 ^ 32 ->
  exists w1,
    setNext nd h v w = (Ok tt, w1) /\
    getKey (nd + nodeSize h) w1 = (Ok v, w1) /\
    getNext nd h w1 = (Ok v, w1).
Proof.
  intros nd h v w Hn Hh Hl Hc Hv.
  assert (Hsz : nodeSize h = nextOff h) by (layout; lia).
  assert (Hin : 0 <= nd < len (nodes (skl w))) by (layout; lia).
  assert (Hh' : 0 <= h < maxHeight) by lia.
  assert (Hcn : nd + nextOff h + 4 <= cap (nodes (skl w))) by lia.
  exists (with_skl w (poke (skl w) nd (FNext h) v)).
  split; [apply setNext_run; assumption|].
  assert (Hp : peek (poke (skl w) nd (FNext h) v) nd (FNext h) = Some v).
  { apply peek_poke_same; cbn [foff fsize]; [layout; lia|lia|].
    change (256 ^ Z.of_nat 4) with (2 ^ 32). exact Hv. }
  split.
  - apply getKey_run; cbn [skl with_skl poke nodes len]; [layout; lia|].
    rewrite <- Hp. unfold peek. cbn [foff fsize]. do 2 f_equal. layout. lia.
  - apply getNext_run; cbn [skl with_skl poke nodes len]; assumption.
Qed.

(** On the list of "a", "b", "c": the node of "a" has height 2 and lies at
    528, the node of "c" follows it at 560. *)
Lemma link_at_own_height_is_next_key_witness :
  exists w1,
    setNext 528 2 7 Demo.filled = (Ok tt, w1) /\
    getKey (528 + nodeSize 2) w1 = (Ok 7, w1) /\
    getNext 528 2 w1 = (Ok 7, w1).
Proof.
  destruct filled_arena as [Hlen Hcap].
  apply (link_at_own_height_is_next_key 528 2 7 Demo.filled).
  - lia.
  - unfold maxHeight. lia.
  - rewrite Hlen. layout. lia.
  - rewrite Hcap. layout. lia.
  - lia.
Defined.

(** ** Bounds of the accessors *)

(** X5. The getters leave the state as it is and panic on the index exactly
    when the node is not below the length of the arena or the level is not
    below [maxHeight]; the setters panic on the index in the same cases
    and then have written nothing. *)
Theorem accessors_bounds :
  forall nd h v w,
  (snd (getKey nd w) = w /\ snd (getKeyPrefix nd w) = w /\
   snd (getNext nd h w) = w /\ snd (getPrev nd h w) = w) /\
  (fst (getKey nd w) = Abort PanicIndex <-> ~ 0 <= nd < len (nodes (skl w))) /\
  (fst (getKeyPrefix nd w) = Abort PanicIndex <-> ~ 0 <= nd < len (nodes (skl w))) /\
  (fst (getNext nd h w) = Abort PanicIndex <->
     ~ (0 <= nd < len (nodes (skl w)) /\ 0 <= h < maxHeight)) /\
  (fst (getPrev nd h w) = Abort PanicIndex <->
     ~ (0 <= nd < len (nodes (skl w)) /\ 0 <= h < maxHeight)) /\
  (~ (0 <= nd < len (nodes (skl w)) /\ 0 <= h < maxHeight) ->
     setNext nd h v w = (Abort PanicIndex, w) /\
     setPrev nd h v w = (Abort PanicIndex, w)) /\
  (0 <= nd < len (nodes (skl w)) -> 0 <= h < maxHeight ->
   nd + prevOff h + 4 <= cap (nodes (skl w)) ->
     (exists a, fst (getNext nd h w) = Ok a) /\
     (exists a, fst (getPrev nd h w) = Ok a) /\
     fst (setNext nd h v w) = Ok tt /\ fst (setPrev nd h v w) = Ok tt).
Proof.
  intros nd h v w.
  split.
  { split; [|split; [|split]].
    - destruct (getKey nd w) as [r w'] eqn:E. apply reads_getKey in E. exact E.
    - destruct (getKeyPrefix nd w) as [r w'] eqn:E. apply reads_getKeyPrefix in E. exact E.
    - destruct (getNext nd h w) as [r w'] eqn:E. apply reads_getNext in E. exact E.
    - destruct (getPrev nd h w) as [r w'] eqn:E. apply reads_getPrev in E. exact E. }
  assert (Hpanic : forall (o : option Z),
            match o with Some a => Ok a | None => Abort MemFault end
              <> Abort PanicIndex).
  { intros [a|]; discriminate. }
  split; [|split; [|split; [|split; [|split]]]].
  - rewrite getKey_fst.
    destruct (Z.leb_spec 0 nd); destruct (Z.ltb_spec nd (len (nodes (skl w))));
      cbn [andb]; split; intros H'; try lia; try reflexivity;
      exfalso; exact (Hpanic _ H').
  - rewrite getKeyPrefix_fst.
    destruct (Z.leb_spec 0 nd); destruct (Z.ltb_spec nd (len (nodes (skl w))));
      cbn [andb]; split; intros H'; try lia; try reflexivity;
      exfalso; exact (Hpanic _ H').
  - rewrite getNext_fst.
    destruct (Z.leb_spec 0 nd); destruct (Z.ltb_spec nd (len (nodes (skl w))));
      destruct (Z.leb_spec 0 h); destruct (Z.ltb_spec h maxHeight);
      cbn [andb]; split; intros H'; try lia; try reflexivity;
      exfalso; exact (Hpanic _ H').
  - rewrite getPrev_fst.
    destruct (Z.leb_spec 0 nd); destruct (Z.ltb_spec nd (len (nodes (skl w))));
      destruct (Z.leb_spec 0 h); destruct (Z.ltb_spec h maxHeight);
      cbn [andb]; split; intros H'; try lia; try reflexivity;
      exfalso; exact (Hpanic _ H').
  - intros Hno. unfold setNext, setPrev, node, links_index. munfold.
    destruct (Z.leb_spec 0 nd); destruct (Z.ltb_spec nd (len (nodes (skl w))));
      destruct (Z.leb_spec 0 h); destruct (Z.ltb_spec h maxHeight);
      cbn [andb]; try (split; reflexivity); exfalso; lia.
  - intros Hn Hh Hc.
    assert (Hcn : nd + nextOff h + 4 <= cap (nodes (skl w))) by (layout; lia).
    rewrite getNext_fst, getPrev_fst.
    rewrite (setNext_run nd h v w Hn Hh Hcn), (setPrev_run nd h v w Hn Hh Hc).
    zbool. cbn [andb fst]. unfold peek, cap in *. cbn [foff fsize].
    destruct (load_le_Some (arr (nodes (skl w))) (Z.to_nat (nd + nextOff h)) 4)
      as [x Hx]; [layout; lia|].
    destruct (load_le_Some (arr (nodes (skl w))) (Z.to_nat (nd + prevOff h)) 4)
      as [y Hy]; [layout; lia|].
    rewrite Hx, Hy. split; [exists x; reflexivity|].
    split; [exists y; reflexivity|]. split; reflexivity.
Qed.


(** ** Allocation *)

Lemma grow_len s size :
  slice_ok (nodes s) -> 0 <= size -> len (nodes s) + size < 2 ^ 32 ->
  len (nodes (grow s size)) = len (nodes s) + size.
Proof.
  intros [H0 H1] Hs Hfit. unfold grow. cbn [nodes len].
  rewrite (u32_id (len _)) by lia. apply u32_id. lia.
Qed.

Lemma cap_poke s nd f v : cap (nodes (poke s nd f v)) = cap (nodes s).
Proof. unfold cap, poke. cbn [nodes arr]. rewrite length_store_le. reflexivity. Qed.

(** The bytes below [n] are the same in two arenas. *)
Definition same_below (n : Z) (s s' : Skiplist) : Prop :=
  forall k, Z.of_nat k < n -> arr (nodes s') !! k = arr (nodes s) !! k.

Lemma same_below_peek n s s' nd f :
  same_below n s s' -> 0 <= nd + foff f ->
  nd + foff f + Z.of_nat (fsize f) <= n ->
  peek s' nd f = peek s nd f.
Proof.
  intros Hsame H0 H1. unfold peek. apply load_le_ext.
  intros k Hk. apply Hsame. lia.
Qed.

Lemma with_node_below s h k pfx :
  slice_ok (nodes s) ->
  same_below (len (nodes s)) s (with_node s h k pfx).
Proof.
  intros Hok i Hi. pose proof Hok as [H0 H1].
  unfold with_node, poke. cbn [nodes arr]. layout.
  rewrite !lookup_store_le_ne by lia.
  unfold grow. cbn [nodes arr]. apply alloc_arr_lookup; assumption.
Qed.

(** X6. [alloc] returns for every size, also one that wraps the length: the
    new length never exceeds the capacity it has made sure of, the
    capacity never shrinks, and nothing but the arena changes. *)
Theorem alloc_never_panics :
  forall size w,
  slice_ok (nodes (skl w)) ->
  exists s1,
    alloc size w = (Ok (u32 (len (nodes (skl w)))), with_skl w s1) /\
    slice_ok (nodes s1) /\
    len (nodes s1) = u32 (u32 (len (nodes (skl w))) + size) /\
    cap (nodes (skl w)) <= cap (nodes s1) /\
    (cap (nodes s1) = cap (nodes (skl w)) <-> len (nodes s1) <= cap (nodes (skl w))) /\
    storage s1 = storage (skl w) /\ head s1 = head (skl w) /\
    tail s1 = tail (skl w) /\ height s1 = height (skl w).
Proof.
  intros size w Hok. exists (grow (skl w) size).
  split; [apply alloc_run; exact Hok|].
  pose proof (u32_range (u32 (len (nodes (skl w))) + size)) as Hr.
  pose proof (alloc_arr_length (nodes (skl w))
                (u32 (u32 (len (nodes (skl w))) + size)) Hok) as HL.
  pose proof (alloc_arr_cap (nodes (skl w))
                (u32 (u32 (len (nodes (skl w))) + size)) Hok) as HC.
  unfold grow, slice_ok, cap in *. cbn [nodes arr len storage head tail height].
  split; [lia|]. split; [reflexivity|].
  destruct (Z.ltb_spec (Z.of_nat (length (arr (nodes (skl w)))))
              (u32 (u32 (len (nodes (skl w))) + size))) as [Hlt|Hge].
  - destruct (Z.ltb_spec (u32 (Z.of_nat (length (arr (nodes (skl w)))) * 2))
                (u32 (u32 (len (nodes (skl w))) + size)));
      (split; [lia|]); (split; [split; lia|]); repeat split.
  - split; [lia|]. split; [split; lia|]. repeat split.
Qed.

(** An allocation of 24 bytes on the list of "a", "b", "c". *)
Lemma alloc_never_panics_witness :
  exists s1,
    alloc 24 Demo.filled = (Ok (u32 (len (nodes (skl Demo.filled)))), with_skl Demo.filled s1) /\
    slice_ok (nodes s1) /\
    cap (nodes (skl Demo.filled)) <= cap (nodes s1).
Proof.
  destruct filled_arena as [Hlen Hcap].
  destruct (alloc_never_panics 24 Demo.filled) as (s1 & H1 & H2 & _ & H3 & _).
  - unfold slice_ok. rewrite Hlen, Hcap. lia.
  - exists s1. split; [exact H1|]. split; assumption.
Defined.

(** X7. A node just allocated holds the key and the prefix it was given, its
    links below its height can be written, and every field of the nodes
    allocated before it reads as it did. *)
Theorem newNode_read_back :
  forall h key prefix w,
  slice_ok (nodes (skl w)) -> 1 <= h <= maxHeight ->
  len (nodes (skl w)) + nodeSize h < 2 ^ 32 ->
  0 <= key < 2 ^ 32 -> 0 <= prefix < 2 ^ 64 ->
  exists w1,
    newNode h key prefix w = (Ok (len (nodes (skl w))), w1) /\
    getKey (len (nodes (skl w))) w1 = (Ok key, w1) /\
    getKeyPrefix (len (nodes (skl w))) w1 = (Ok prefix, w1) /\
    (forall i v, 0 <= i < h ->
       fst (setNext (len (nodes (skl w))) i v w1) = Ok tt /\
       fst (setPrev (len (nodes (skl w))) i v w1) = Ok tt) /\
    (forall nd i, 0 <= nd -> 0 <= i ->
       nd + prevOff i + 4 <= len (nodes (skl w)) ->
       fst (getKey nd w1) = fst (getKey nd w) /\
       fst (getKeyPrefix nd w1) = fst (getKeyPrefix nd w) /\
       fst (getNext nd i w1) = fst (getNext nd i w) /\
       fst (getPrev nd i w1) = fst (getPrev nd i w)) /\
    head (skl w1) = head (skl w) /\ tail (skl w1) = tail (skl w) /\
    height (skl w1) = height (skl w).
Proof.
  intros h key prefix w Hok Hh Hfit Hk Hp. pose proof Hok as [H0 H1].
  assert (Hsz : 24 <= nodeSize h <= maxNodeSize) by (layout; lia).
  assert (HL : len (nodes (skl w)) < 2 ^ 32) by lia.
  assert (Ha : arena_ok (skl w) []).
  { split; [exact Hok|exact HL|intros g Hg; inversion Hg|intros g g' Hg; inversion Hg]. }
  exists (with_skl w (with_node (skl w) h key prefix)).
  split; [apply newNode_ok; assumption|].
  destruct (with_node_new (skl w) [] h key prefix Ha Hh Hfit Hk Hp) as [Pk Pp].
  assert (Hlen : len (nodes (with_node (skl w) h key prefix)) =
                 len (nodes (skl w)) + nodeSize h).
  { unfold with_node, poke. cbn [nodes len]. apply grow_len; [exact Hok|lia|exact Hfit]. }
  assert (Hcap : len (nodes (skl w)) + nodeSize h <=
                 cap (nodes (with_node (skl w) h key prefix))).
  { unfold with_node. rewrite !cap_poke. unfold grow, cap. cbn [nodes arr].
    etransitivity; [|apply alloc_arr_cap; exact Hok].
    rewrite (u32_id (len _)) by lia. rewrite u32_id by lia. lia. }
  split; [apply getKey_run; cbn [skl with_skl]; [lia|exact Pk]|].
  split; [apply getKeyPrefix_run; cbn [skl with_skl]; [lia|exact Pp]|].
  split.
  { intros i v Hi. split.
    - rewrite setNext_run; cbn [skl with_skl]; [reflexivity|lia|lia|layout; lia].
    - rewrite setPrev_run; cbn [skl with_skl]; [reflexivity|lia|lia|layout; lia]. }
  split; [|repeat split].
  intros nd h' Hnd Hh' Hin.
  pose proof (with_node_below (skl w) h key prefix Hok) as Hsame.
  rewrite !getKey_fst, !getKeyPrefix_fst, !getNext_fst, !getPrev_fst.
  cbn [skl with_skl]. rewrite Hlen.
  assert (Hlt : nd < len (nodes (skl w))) by (layout; lia).
  assert (E1 : (0 <=? nd) && (nd <? len (nodes (skl w)) + nodeSize h) = true)
    by (zbool; reflexivity).
  assert (E2 : (0 <=? nd) && (nd <? len (nodes (skl w))) = true)
    by (zbool; reflexivity).
  rewrite E1, E2.
  rewrite (same_below_peek _ _ _ nd FKey Hsame) by (layout; lia).
  rewrite (same_below_peek _ _ _ nd FPrefix Hsame) by (layout; lia).
  rewrite (same_below_peek _ _ _ nd (FNext h') Hsame) by (layout; lia).
  rewrite (same_below_peek _ _ _ nd (FPrev h') Hsame) by (layout; lia).
  repeat split.
Qed.

(** A node of height 3 allocated in the list of "a", "b", "c". *)
Lemma newNode_read_back_witness :
  exists w1,
    newNode 3 100 25 Demo.filled = (Ok (len (nodes (skl Demo.filled))), w1) /\
    getKey (len (nodes (skl Demo.filled))) w1 = (Ok 100, w1) /\
    getKeyPrefix (len (nodes (skl Demo.filled))) w1 = (Ok 25, w1).
Proof.
  destruct filled_arena as [Hlen Hcap].
  destruct (newNode_read_back 3 100 25 Demo.filled) as (w1 & H1 & H2 & H3 & _).
  - unfold slice_ok. rewrite Hlen, Hcap. lia.
  - unfold maxHeight. lia.
  - rewrite Hlen. layout. lia.
  - lia.
  - lia.
  - exists w1. split; [exact H1|]. split; assumption.
Defined.


(** ** A new list *)

(** X8. [NewSkiplist], when it returns, has called nothing of [Storage]
    and drawn no random number; the arena it leaves holds the two
    sentinels and nothing else.  The 256 bytes a small hint is raised to do
    not hold them, so for a hint below 352 the arena has been reallocated
    once and ends with twice the capacity it was made with; a hint of 352
    or more is the capacity the list starts its life with. *)
Theorem NewSkiplist_arena :
  forall st initBufSize w w1,
  NewSkiplist st initBufSize w = (Ok tt, w1) ->
  exists s',
    w1 = with_skl w s' /\
    storage s' = st /\
    len (nodes s') = 2 * maxNodeSize /\
    tail s' - head s' = maxNodeSize /\
    (initBufSize < 2 * maxNodeSize -> cap (nodes s') = 2 * Z.max initBufSize 256) /\
    (2 * maxNodeSize <= initBufSize -> cap (nodes s') = initBufSize).
Proof.
  intros st n w w1 Hret.
  pose proof (NewSkiplist_returns _ _ _ _ Hret) as Hmax.
  destruct (NewSkiplist_spec st (fun _ _ => Eq) n w Hmax)
    as (s' & Hrun & HI & Hh & Ht & _ & Hlen & Hcap).
  rewrite Hrun in Hret. injection Hret as <-.
  exists s'. split; [reflexivity|]. split; [exact (inv_storage _ _ _ _ HI)|].
  split; [exact Hlen|]. split; [rewrite Hh, Ht; lia|].
  rewrite Hcap. change maxNodeSize with 176.
  split; intros Hn; destruct (Z.ltb_spec (Z.max n 256) (2 * 176)); lia.
Qed.

(** The list made with no hint. *)
Lemma NewSkiplist_arena_witness :
  NewSkiplist Demo.demo 0 Demo.start = (Ok tt, Demo.fresh) /\
  exists s',
    Demo.fresh = with_skl Demo.start s' /\
    storage s' = Demo.demo /\
    len (nodes s') = 2 * maxNodeSize /\
    tail s' - head s' = maxNodeSize /\
    (0 < 2 * maxNodeSize -> cap (nodes s') = 2 * Z.max 0 256) /\
    (2 * maxNodeSize <= 0 -> cap (nodes s') = 0).
Proof.
  split; [exact fresh_run|].
  exact (NewSkiplist_arena Demo.demo 0 Demo.start Demo.fresh fresh_run).
Defined.

(** X9. A new list is empty: at every level the search of any key from the
    head stops at once with the tail as successor and nothing found,
    without a call of [Storage], and [debug] reports the one active level
    with the head as its only node. *)
Theorem new_list_is_empty :
  forall st initBufSize w0 w key prefix level fuel,
  NewSkiplist st initBufSize w0 = (Ok tt, w) ->
  0 <= level < maxHeight ->
  findSpliceForLevel (S fuel) key prefix level (head (skl w)) w =
    (Ok (head (skl w), tail (skl w), false), w) /\
  debug w = (Ok [(0, 1)], w).
Proof.
  intros st n w0 w key prefix level fuel Hret Hl.
  pose proof (NewSkiplist_returns _ _ _ _ Hret) as Hmax.
  destruct (NewSkiplist_spec st (fun _ _ => Eq) n w0 Hmax)
    as (s' & Hrun & HI & _ & _ & Hht & _).
  rewrite Hrun in Hret. injection Hret as <-.
  pose proof (Inv_head_in _ _ _ _ HI) as Hhd.
  split.
  - cbn [findSpliceForLevel skl with_skl].
    destruct (inv_chain _ _ _ _ HI level Hl) as [Hn _].
    rewrite (bind_run _ _ _ _ _
               (body_tail key prefix level (head s') (with_skl w0 s') (tail s')
                  Hhd Hl Hn eq_refl)).
    reflexivity.
  - unfold debug. unfold mbind at 1, M_bind at 1, get_skl at 1.
    cbn [skl with_skl]. rewrite Hht. change (Z.to_nat 1) with 1%nat.
    cbn [debug_levels]. unfold mbind at 1, M_bind at 1, get_skl at 1.
    rewrite (bind_run _ _ _ _ _
               (debug_level_Inv st (fun _ _ => Eq) (with_skl w0 s') [] 0 HI
                  ltac:(unfold maxHeight; lia))).
    reflexivity.
Qed.

(** A search at level 7 of the list made with no hint. *)
Lemma new_list_is_empty_witness :
  NewSkiplist Demo.demo 0 Demo.start = (Ok tt, Demo.fresh) /\
  findSpliceForLevel 1 (Demo.key_at 98) 24 7 (head (skl Demo.fresh)) Demo.fresh =
    (Ok (head (skl Demo.fresh), tail (skl Demo.fresh), false), Demo.fresh) /\
  debug Demo.fresh = (Ok [(0, 1)], Demo.fresh).
Proof.
  split; [exact fresh_run|].
  apply (new_list_is_empty Demo.demo 0 Demo.start Demo.fresh (Demo.key_at 98) 24 7 0
           fresh_run).
  unfold maxHeight. lia.
Defined.

(** ** Bounds of the search *)

(** X10. A search from a node that is not in the arena, or at a level that is
    not below [maxHeight], panics on the index in its first turn: nothing
    is called and nothing has changed. *)
Theorem findSpliceForLevel_index_panic :
  forall fuel key prefix level start w,
  ~ (0 <= start < len (nodes (skl w)) /\ 0 <= level < maxHeight) ->
  findSpliceForLevel (S fuel) key prefix level start w = (Abort PanicIndex, w).
Proof.
  intros fuel key prefix level start w Hno.
  cbn [findSpliceForLevel]. unfold findSpliceForLevel_body.
  assert (E : getNext start level w = (Abort PanicIndex, w)).
  { unfold getNext, node, links_index. munfold.
    destruct (Z.leb_spec 0 start);
      destruct (Z.ltb_spec start (len (nodes (skl w))));
      destruct (Z.leb_spec 0 level); destruct (Z.ltb_spec level maxHeight);
      cbn [andb]; try reflexivity; exfalso; lia. }
  rewrite (bind_abort _ _ _ _ _ (bind_abort _ _ _ _ _ E)). reflexivity.
Qed.

(** Level 20 of the list of "a", "b", "c". *)
Lemma findSpliceForLevel_index_panic_witness :
  findSpliceForLevel 1 (Demo.key_at 98) 24 20 0 Demo.filled =
    (Abort PanicIndex, Demo.filled).
Proof.
  apply (findSpliceForLevel_index_panic 0 (Demo.key_at 98) 24 20 0 Demo.filled).
  unfold maxHeight. lia.
Defined.

(** ** The heights drawn *)

Lemma thresholds_decreasing j k :
  (j <= k < 20)%nat -> nth k thresholds 0 <= nth j thresholds 0.
Proof.
  intros H.
  do 20 (destruct j as [|j];
         [do 20 (destruct k as [|k]; [try lia; vm_compute; discriminate|]); lia|]).
  lia.
Qed.

Lemma randomHeight_loop_ge n tbl rnd h :
  1 <= h <= maxHeight -> h <= randomHeight_loop n tbl rnd h.
Proof.
  revert h. induction n as [|n IH]; intros h Hh; cbn [randomHeight_loop]; [lia|].
  destruct (Z.ltb_spec h maxHeight) as [Hlt|Hge]; cbn [andb]; [|lia].
  destruct (rnd <=? nth (Z.to_nat h) tbl 0); [|lia].
  unfold maxHeight in *. rewrite u32_id by lia.
  specialize (IH (h + 1)). lia.
Qed.

Lemma randomHeight_loop_antitone n tbl rnd rnd' h :
  1 <= h <= maxHeight -> rnd <= rnd' ->
  randomHeight_loop n tbl rnd' h <= randomHeight_loop n tbl rnd h.
Proof.
  revert h. induction n as [|n IH]; intros h Hh Hle; cbn [randomHeight_loop]; [lia|].
  destruct (Z.ltb_spec h maxHeight) as [Hlt|Hge]; cbn [andb]; [|lia].
  destruct (Z.leb_spec rnd' (nth (Z.to_nat h) tbl 0)) as [H1|H1].
  - destruct (Z.leb_spec rnd (nth (Z.to_nat h) tbl 0)) as [H2|H2]; [|lia].
    apply IH; [|exact Hle]. unfold maxHeight in *. rewrite u32_id by lia. lia.
  - destruct (Z.leb_spec rnd (nth (Z.to_nat h) tbl 0)) as [H2|H2]; [|lia].
    etransitivity; [|apply randomHeight_loop_ge].
    + unfold maxHeight in *. rewrite u32_id by lia. lia.
    + unfold maxHeight in *. rewrite u32_id by lia. lia.
Qed.

(** X11. With the table of [init], the height drawn is above [k] exactly
    when the draw is at most the integer part of [MaxUint32 / e ^ k]: of
    the [2 ^ 32] draws, that many and one more.  And whatever the table
    holds, a larger draw never gives a taller node. *)
Theorem randomHeight_above_level :
  forall w0 w k,
  (length (probabilities w0) = Z.to_nat maxHeight ->
   probabilities w = probabilities (snd (init w0)) ->
   1 <= k < maxHeight ->
   exists h,
     fst (randomHeight w) = Ok h /\
     (k < h <-> drawn w <= Zfloor (IZR MaxUint32 * (/ exp 1) ^ Z.to_nat k)%R)) /\
  (forall w', probabilities w' = probabilities w -> drawn w <= drawn w' ->
     exists h h', fst (randomHeight w) = Ok h /\
                  fst (randomHeight w') = Ok h' /\ h' <= h).
Proof.
  intros w0 w k. split.
  - intros Hlen Hw Hk.
    assert (Htbl : probabilities w = thresholds).
    { rewrite Hw, (init_run w0 Hlen). reflexivity. }
    exists (height_of (probabilities w) (drawn w)).
    rewrite randomHeight_run. split; [reflexivity|].
    pose proof (height_of_range (probabilities w) (drawn w)) as Hr.
    destruct (height_of_scan (probabilities w) (drawn w)) as [Hbelow Hat].
    rewrite <- thresholds_floor by (unfold maxHeight in Hk; lia).
    rewrite Htbl in *.
    set (h := height_of thresholds (drawn w)) in *.
    split.
    + intros Hlt. apply Hbelow. lia.
    + intros Hle. destruct (Z.lt_ge_cases k h) as [Hlt|Hge]; [exact Hlt|].
      exfalso. specialize (Hat ltac:(lia)).
      pose proof (thresholds_decreasing (Z.to_nat h) (Z.to_nat k)
                    ltac:(unfold maxHeight in *; lia)).
      lia.
  - intros w' Hw' Hle.
    exists (height_of (probabilities w) (drawn w)),
      (height_of (probabilities w') (drawn w')).
    rewrite !randomHeight_run. split; [reflexivity|]. split; [reflexivity|].
    rewrite Hw'. unfold height_of.
    apply randomHeight_loop_antitone; [unfold maxHeight; lia|exact Hle].
Qed.

(** In the state [init] leaves, for level 3; and the zeroed table before
    [init], with the draws 0 and 1. *)
Lemma randomHeight_above_level_witness :
  (exists h,
     fst (randomHeight Demo.start) = Ok h /\
     (3 < h <-> drawn Demo.start <= Zfloor (IZR MaxUint32 * (/ exp 1) ^ Z.to_nat 3)%R)) /\
  exists h h',
    fst (randomHeight (Demo.boot (fun _ => 0))) = Ok h /\
    fst (randomHeight (Demo.boot (fun _ => 1))) = Ok h' /\ h' <= h.
Proof.
  split.
  - apply (proj1 (randomHeight_above_level (Demo.boot Demo.draws) Demo.start 3));
      [reflexivity|reflexivity|unfold maxHeight; lia].
  - apply (proj2 (randomHeight_above_level (Demo.boot Demo.draws)
                    (Demo.boot (fun _ => 0)) 3) (Demo.boot (fun _ => 1)));
      [reflexivity|vm_compute; discriminate].
Defined.

(** ** Lists with nodes *)

Lemma lvl_sorted {R : gnode -> gnode -> Prop} j G :
  StronglySorted R G -> StronglySorted R (lvl j G).
Proof.
  induction 1 as [|g G Hs IH Hall]; [constructor|].
  unfold lvl. rewrite filter_cons. destruct (decide (j < g_ht g)); [|exact IH].
  constructor; [exact IH|].
  rewrite Forall_forall in *. intros x Hx.
  apply list_elem_of_filter in Hx as [_ Hx]. apply Hall. exact Hx.
Qed.

Lemma lvl_length j G : (length (lvl j G) <= length G)%nat.
Proof. apply length_filter. Qed.

(** The list of "a", "b", "c" is well formed, with a node for each. *)
Lemma filled_Inv :
  exists G, Inv Demo.demo Demo.order (skl Demo.filled) G /\ length G = 3%nat.
Proof.
  assert (Hrun : (NewSkiplist Demo.demo 0 ≫= fun _ => AddAll Demo.records) Demo.start =
                 (Ok [None; None; None], Demo.filled)) by (vm_compute; reflexivity).
  destruct (NewSkiplist_spec Demo.demo Demo.order 0 Demo.start
              ltac:(unfold maxAlloc; lia)) as (s' & Hnew & HI & _).
  rewrite (bind_run _ _ _ _ _ Hnew) in Hrun.
  destruct (AddAll_Inv Demo.demo Demo.order demo_contract Demo.records records_valid
              (with_skl Demo.start s') [] _ _ HI Hrun) as (G & HIG & _ & _ & _ & _ & Hperm).
  exists G. split; [exact HIG|].
  apply Permutation_length in Hperm. rewrite length_map in Hperm. exact Hperm.
Qed.

Lemma debug_levels_Inv st kcmp w G :
  Inv st kcmp (skl w) G ->
  forall n level,
  0 <= level -> level + Z.of_nat n <= maxHeight ->
  debug_levels n level w =
    (Ok (map (fun l => (l, 1 + Z.of_nat (length (lvl l G))))
           (seqZ level (Z.of_nat n))), w).
Proof.
  intros HI. induction n as [|n IH]; intros level H0 Hn; [reflexivity|].
  cbn [debug_levels]. unfold mbind at 1, M_bind at 1, get_skl at 1.
  assert (Hl : 0 <= level < maxHeight) by lia.
  rewrite (bind_run _ _ _ _ _ (debug_level_Inv st kcmp w G level HI Hl)).
  rewrite u32_id by (unfold maxHeight in *; lia).
  rewrite (bind_run _ _ _ _ _ (IH (level + 1) ltac:(lia) ltac:(lia))).
  rewrite (seqZ_cons level) by lia.
  replace (Z.pred (Z.of_nat (S n))) with (Z.of_nat n) by lia.
  cbn [map length mret M_ret]. rewrite length_map.
  replace (Z.of_nat (S (length (lvl level G)))) with
    (1 + Z.of_nat (length (lvl level G))) by lia.
  reflexivity.
Qed.

(** X12. On a well-formed list [debug] reports every level below the height of
    the list, lowest first, with the number of nodes its loop counts: the
    head and the nodes tall enough to reach the level; at level 0 that is
    one more than the number of records. *)
Theorem debug_counts_levels :
  forall st kcmp w G,
  Inv st kcmp (skl w) G ->
  debug w =
    (Ok (map (fun l => (l, 1 + Z.of_nat (length (lvl l G))))
           (seqZ 0 (height (skl w)))), w) /\
  lvl 0 G = G.
Proof.
  intros st kcmp w G HI. split; [|exact (lvl_0 _ _ _ _ HI)].
  unfold debug. unfold mbind at 1, M_bind at 1, get_skl at 1.
  pose proof (inv_height _ _ _ _ HI) as Hh.
  rewrite (debug_levels_Inv st kcmp w G HI) by lia.
  rewrite Z2Nat.id by lia. reflexivity.
Qed.

(** The levels of the list of "a", "b", "c". *)
Lemma debug_counts_levels_witness :
  exists G,
    length G = 3%nat /\
    debug Demo.filled =
      (Ok (map (fun l => (l, 1 + Z.of_nat (length (lvl l G))))
             (seqZ 0 (height (skl Demo.filled)))), Demo.filled) /\
    lvl 0 G = G.
Proof.
  destruct filled_Inv as (G & HI & HG).
  exists G. split; [exact HG|].
  exact (debug_counts_levels Demo.demo Demo.order Demo.filled G HI).
Defined.

(** X13. On a well-formed list over a [Storage] that keeps its contract, the
    search of a key at a level splits the nodes of the level in those
    below the key and the others; it returns the last of the first (the
    head if there is none) and the first of the others (the tail if there
    is none), and it reports the key as found exactly when a node of the
    level holds a key equal to it.  It returns the same from the head and
    from every node of the level below the key, which is why the search of
    a level may start where the level above ended. *)
Theorem search_finds_splice :
  forall st kcmp w G key j,
  StorageContract st kcmp ->
  Inv st kcmp (skl w) G -> 0 <= j < maxHeight ->
  exists Q R prev next found,
    lvl j G = Q ++ R /\
    (forall g, g ∈ Q -> kcmp (gk st g) key = Lt) /\
    (forall g, g ∈ R -> kcmp key (gk st g) <> Gt) /\
    prev = endp (head (skl w)) (map g_off Q) /\
    next = hd (tail (skl w)) (map g_off R) /\
    (found = true <-> exists g, g ∈ lvl j G /\ kcmp key (gk st g) = Eq) /\
    forall start,
      start = head (skl w) \/ start ∈ map g_off Q ->
      exists evs,
        findSpliceForLevel (level_fuel (skl w)) key (Prefix st key) j start w =
          (Ok (prev, next, found), with_calls w evs).
Proof.
  intros st kcmp w G key j HC HI Hj.
  pose proof (lvl_sorted j G (inv_sorted _ _ _ _ HI)) as Hs.
  destruct (sorted_split st kcmp HC key (lvl j G) Hs) as (Q & R & HQR & HQ & HR & Hd).
  exists Q, R, (endp (head (skl w)) (map g_off Q)),
    (hd (tail (skl w)) (map g_off R)), (found_hd st kcmp key R).
  split; [exact HQR|]. split; [exact HQ|]. split; [exact HR|].
  split; [reflexivity|]. split; [reflexivity|].
  assert (HinG : forall g, g ∈ Q ++ R -> g ∈ G /\ j < g_ht g).
  { intros g Hg. rewrite <- HQR in Hg. apply elem_of_lvl in Hg. tauto. }
  pose proof (inv_chain _ _ _ _ HI j Hj) as Hch. rewrite HQR in Hch.
  assert (Hlen : (length (Q ++ R) < level_fuel (skl w))%nat).
  { unfold level_fuel. pose proof (Inv_length _ _ _ _ HI).
    pose proof (lvl_length j G). rewrite HQR in *. lia. }
  split.
  - split.
    + unfold found_hd. destruct R as [|r R']; [discriminate|].
      destruct (kcmp key (gk st r)) eqn:E; try discriminate.
      intros _. exists r. split; [|exact E].
      rewrite HQR. apply elem_of_app. right. left.
    + intros (g & Hg & Eg). rewrite HQR in Hg.
      apply elem_of_app in Hg as [Hg|Hg].
      * specialize (HQ g Hg). rewrite (kcmp_opp _ _ HC key (gk st g)), Eg in HQ.
        discriminate.
      * destruct Hd as [Hlt|(x & B & -> & Ex)].
        -- rewrite (Hlt g Hg) in Eg. discriminate.
        -- unfold found_hd. rewrite Ex. reflexivity.
  - intros start [->|Hst].
    + apply (search_chain st kcmp HC key j G Q Hj R (head (skl w)) w _ HI HinG).
      * exact (Inv_head_in _ _ _ _ HI).
      * exact Hch.
      * exact HQ.
      * exact HR.
      * rewrite length_app in Hlen. lia.
    + apply list_elem_of_fmap in Hst as (g & -> & Hg).
      apply list_elem_of_split in Hg as (Q1 & Q2 & ->).
      rewrite <- app_assoc in Hch. rewrite map_app in Hch.
      apply chain_app_inv in Hch. cbn [app map] in Hch.
      apply chain_tail in Hch.
      destruct (search_chain st kcmp HC key j G Q2 Hj R (g_off g) w
                  (level_fuel (skl w)) HI) as [evs Hrun].
      * intros x Hx. apply HinG. rewrite <- app_assoc. apply elem_of_app. right.
        right. exact Hx.
      * apply (Inv_node _ _ _ _ _ HI). apply (HinG g).
        apply elem_of_app. left. apply elem_of_app. right. left.
      * exact Hch.
      * intros x Hx. apply HQ. apply elem_of_app. right. right. exact Hx.
      * exact HR.
      * rewrite !length_app in Hlen. cbn [length] in Hlen. lia.
      * exists evs. rewrite Hrun. rewrite map_app, endp_app. reflexivity.
Qed.

(** The search of "b" at level 0 of the list of "a", "b", "c" finds it. *)
Lemma search_finds_splice_witness :
  exists G Q R prev next found,
    lvl 0 G = Q ++ R /\
    (found = true <->
       exists g, g ∈ lvl 0 G /\ Demo.order (Demo.key_at 98) (gk Demo.demo g) = Eq) /\
    exists evs,
      findSpliceForLevel (level_fuel (skl Demo.filled)) (Demo.key_at 98)
        (Prefix Demo.demo (Demo.key_at 98)) 0 (head (skl Demo.filled)) Demo.filled =
        (Ok (prev, next, found), with_calls Demo.filled evs).
Proof.
  destruct filled_Inv as (G & HI & _).
  destruct (search_finds_splice Demo.demo Demo.order Demo.filled G (Demo.key_at 98) 0
              demo_contract HI)
    as (Q & R & prev & next & found & H1 & _ & _ & _ & _ & H2 & H3).
  - unfold maxHeight. lia.
  - exists G, Q, R, prev, next, found. split; [exact H1|]. split; [exact H2|].
    apply H3. left. reflexivity.
Defined.


(** ** When [newNode] panics *)

(** X14. A height out of range is refused before anything is allocated.  A node
    that does not fit below [2 ^ 32] is not: [alloc] has then wrapped the
    length of the arena to a small value before the panic on the index, so
    the nodes at and above the new length, the new one among them, can no
    longer be read. *)
Theorem newNode_failure_states :
  forall h key prefix w,
  slice_ok (nodes (skl w)) -> len (nodes (skl w)) < 2 ^ 32 ->
  (h < 1 \/ maxHeight < h ->
     newNode h key prefix w = (Abort PanicHeight, w)) /\
  (1 <= h <= maxHeight -> 2 ^ 32 <= len (nodes (skl w)) + nodeSize h ->
     exists s1,
       newNode h key prefix w = (Abort PanicIndex, with_skl w s1) /\
       len (nodes s1) = len (nodes (skl w)) + nodeSize h - 2 ^ 32 /\
       len (nodes s1) < len (nodes (skl w)) /\
       cap (nodes s1) = cap (nodes (skl w)) /\
       forall nd, len (nodes s1) <= nd ->
         fst (getKey nd (with_skl w s1)) = Abort PanicIndex /\
         fst (getKeyPrefix nd (with_skl w s1)) = Abort PanicIndex /\
         forall i, fst (getNext nd i (with_skl w s1)) = Abort PanicIndex /\
                   fst (getPrev nd i (with_skl w s1)) = Abort PanicIndex).
Proof.
  intros h key prefix w Hok HL. pose proof Hok as [H0 H1].
  split; [apply newNode_height_panic|].
  intros Hh Hfit.
  assert (Hsz : 0 < nodeSize h <= 176) by (layout; lia).
  exists (grow (skl w) (nodeSize h)).
  split; [apply newNode_overflow; assumption|].
  assert (Hlen : len (nodes (grow (skl w) (nodeSize h))) =
                 len (nodes (skl w)) + nodeSize h - 2 ^ 32).
  { unfold grow. cbn [nodes len]. rewrite (u32_id (len _)) by lia. unfold u32.
    symmetry. apply Z.mod_unique_pos with (q := 1); lia. }
  split; [exact Hlen|]. split; [lia|].
  split.
  { unfold cap at 1. unfold grow. cbn [nodes arr].
    rewrite (alloc_arr_length (nodes (skl w))) by exact Hok.
    fold (len (nodes (grow (skl w) (nodeSize h)))).
    change (u32 (u32 (len (nodes (skl w))) + nodeSize h)) with
      (len (nodes (grow (skl w) (nodeSize h)))).
    rewrite Hlen.
    destruct (Z.ltb_spec (cap (nodes (skl w)))
                (len (nodes (skl w)) + nodeSize h - 2 ^ 32)); [lia|reflexivity]. }
  intros nd Hnd.
  rewrite getKey_fst, getKeyPrefix_fst. cbn [skl with_skl].
  assert (E : (0 <=? nd) && (nd <? len (nodes (grow (skl w) (nodeSize h)))) = false).
  { destruct (Z.leb_spec 0 nd); [|reflexivity].
    destruct (Z.ltb_spec nd (len (nodes (grow (skl w) (nodeSize h))))); [lia|reflexivity]. }
  rewrite E. split; [reflexivity|]. split; [reflexivity|].
  intros i. rewrite getNext_fst, getPrev_fst. cbn [skl with_skl]. rewrite E.
  split; reflexivity.
Qed.

(** A node of height 1 on the arena eight bytes short of [2 ^ 32]: the
    length is 16 at the panic. *)
Lemma newNode_failure_states_witness :
  exists s1,
    newNode 1 0 0 Demo.nearly_full = (Abort PanicIndex, with_skl Demo.nearly_full s1) /\
    len (nodes s1) = len (nodes (skl Demo.nearly_full)) + nodeSize 1 - 2 ^ 32 /\
    len (nodes s1) < len (nodes (skl Demo.nearly_full)).
Proof.
  destruct nearly_full_ok as (Hok & Hlen & Hcap).
  destruct (newNode_failure_states 1 0 0 Demo.nearly_full Hok) as [_ H].
  - rewrite Hlen. lia.
  - destruct H as (s1 & H1 & H2 & H3 & _).
    + unfold maxHeight. lia.
    + rewrite Hlen. layout. lia.
    + exists s1. split; [exact H1|]. split; assumption.
Defined.

End batchskl.
